(** * Detection webs of a ZX diagram: a shallow embedding of
      [rust_web/python/detection_webs.py]

    The Python module normalises a ZX diagram into red/green form
    ([make_rg]), orders its vertices ([ordered_nodes]), builds a parity
    matrix over GF(2), asks a linear-algebra collaborator for a nullspace
    basis and turns every basis vector into a Pauli web ([get_pw]).

    The diagram is a [pyzx] graph of the simple backend: a dictionary of
    adjacency dictionaries, a type dictionary, position dictionaries, a
    fresh-index counter and the two boundary tuples.  Python dictionaries
    iterate in insertion order, and [make_rg] numbers the vertices it
    creates in iteration order, so the adjacency structure is kept as an
    association list; dictionaries that are only looked up are finite maps.
    Python exceptions are the [Raise] results of a small error monad. *)

From Stdlib Require Import ZArith QArith Qcanon Lia.
From stdpp Require Import base decidable option list gmap strings sorting.

Local Open Scope Z_scope.
Set Warnings "-clear-no-such-hyp".

(** ** Exceptions *)

Inductive exn := KeyError | ValueError | IndexError | NetworkXError | TypeError.

Inductive result (A : Type) : Type :=
| Ok (a : A)
| Raise (e : exn).
Arguments Ok {A} a.
Arguments Raise {A} e.

#[global] Instance result_ret : MRet result := λ A a, Ok a.
#[global] Instance result_bind : MBind result := λ A B f m,
  match m with Ok a => f a | Raise e => Raise e end.

#[global] Instance exn_eq_dec : EqDecision exn.
Proof. solve_decision. Defined.

#[global] Instance result_eq_dec {A : Type} `{EqDecision A} : EqDecision (result A).
Proof. solve_decision. Defined.

(** [for x in l: body] over a state [s]; the list is the sequence the
    iterator was created from. *)
Fixpoint for_each {A S : Type} (l : list A) (body : S → A → result S) (s : S)
  : result S :=
  match l with
  | [] => Ok s
  | x :: l' => s' ← body s x; for_each l' body s'
  end.

(** [d[k]] on an option: a missing key raises [KeyError]. *)
Definition subscript {A : Type} (o : option A) : result A :=
  match o with Some a => Ok a | None => Raise KeyError end.

(** ** Insertion-ordered dictionaries *)

Fixpoint dict_get {V : Type} (d : list (Z * V)) (k : Z) : option V :=
  match d with
  | [] => None
  | (k', v) :: d' => if decide (k' = k) then Some v else dict_get d' k
  end.

(** [d[k] = v]: an existing key keeps its position, a new one goes last. *)
Fixpoint dict_set {V : Type} (d : list (Z * V)) (k : Z) (v : V) : list (Z * V) :=
  match d with
  | [] => [(k, v)]
  | (k', v') :: d' =>
      if decide (k' = k) then (k', v) :: d' else (k', v') :: dict_set d' k v
  end.

(** ** The diagram *)

Record Graph := mkGraph {
  graph : list (Z * list Z);   (* vertex ↦ its neighbours *)
  ty : gmap Z Z;               (* 0 boundary, 1 Z (green), 2 X (red), ... *)
  qindex : gmap Z Q;
  rindex : gmap Z Q;
  vindex : Z;                  (* next fresh vertex identifier *)
  inputs : list Z;
  outputs : list Z
}.

Definition with_graph (g : Graph) (d : list (Z * list Z)) : Graph :=
  mkGraph d (ty g) (qindex g) (rindex g) (vindex g) (inputs g) (outputs g).

Definition vertices (g : Graph) : list Z := (graph g).*1.

Definition neighbors (g : Graph) (v : Z) : result (list Z) :=
  subscript (dict_get (graph g) v).

Definition ty_at (g : Graph) (v : Z) : result Z := subscript (ty g !! v).

Definition row (g : Graph) (v : Z) : Q := default (-1)%Q (rindex g !! v).
Definition qubit (g : Graph) (v : Z) : Q := default (-1)%Q (qindex g !! v).

(** [edges] yields every edge once, smaller endpoint first. *)
Definition edges (g : Graph) : list (Z * Z) :=
  flat_map (λ p, (λ v1, (p.1, v1)) <$> filter (λ v1, p.1 < v1) p.2) (graph g).

Definition clone (g : Graph) : Graph := g.

(** [del self.graph[s][t]] *)
Definition del_adj (d : list (Z * list Z)) (s t : Z) : result (list (Z * list Z)) :=
  a ← subscript (dict_get d s);
  if decide (t ∈ a) then Ok (dict_set d s (filter (λ x, x ≠ t) a))
  else Raise KeyError.

(** [self.graph[s][t] = edgetype] *)
Definition put_adj (d : list (Z * list Z)) (s t : Z) : result (list (Z * list Z)) :=
  a ← subscript (dict_get d s);
  Ok (dict_set d s (if decide (t ∈ a) then a else a ++ [t])).

Definition remove_edge (g : Graph) (e : Z * Z) : result Graph :=
  d1 ← del_adj (graph g) e.1 e.2;
  d2 ← del_adj d1 e.2 e.1;
  Ok (with_graph g d2).

(** [add_vertex(ty, qubit, row)] takes the next fresh identifier. *)
Definition add_vertex (g : Graph) (t : Z) (q r : Q) : Graph * Z :=
  let v := vindex g in
  (mkGraph (dict_set (graph g) v []) (<[v := t]> (ty g))
           (<[v := q]> (qindex g)) (<[v := r]> (rindex g))
           (v + 1) (inputs g) (outputs g), v).

(** [add_edge] with the default (simple) edge type.  A second simple edge
    between the same endpoints is resolved by the library: it fuses with
    the first between spiders of one colour and between a Z spider and an
    H-box, cancels it between a Z and an X spider, and is refused
    otherwise; a simple self-loop on a spider is dropped. *)
Definition add_edge (g : Graph) (e : Z * Z) : result Graph :=
  let s := e.1 in
  let t := e.2 in
  t1 ← ty_at g s;
  t2 ← ty_at g t;
  if decide (s = t) then
    if decide (t1 = 1 ∨ t1 = 2) then Ok g else Raise ValueError
  else
    a ← subscript (dict_get (graph g) s);
    if decide (t ∈ a) then
      if decide ((t1 = 1 ∧ t2 = 1) ∨ (t1 = 2 ∧ t2 = 2)) then Ok g
      else if decide ((t1 = 1 ∧ t2 = 2) ∨ (t1 = 2 ∧ t2 = 1)) then remove_edge g (s, t)
      else if decide ((t1 = 1 ∧ t2 = 3) ∨ (t1 = 3 ∧ t2 = 1)) then Ok g
      else Raise ValueError
    else
      d1 ← put_adj (graph g) s t;
      d2 ← put_adj d1 t s;
      Ok (with_graph g d2).

(** ** RG normalisation *)

Module MakeRg.

(** The body of the [if]: the edge is taken out of [oldg], a vertex of the
    other colour is put in its place, and [g] becomes a fresh clone. *)
Definition subdivide (node nodecolor neighbor : Z) (st : Graph * Graph)
  : result (Graph * Graph) :=
  let '(oldg, g) := st in
  let row_ := ((row g node + row g neighbor) / 2)%Q in
  let qubit_ := ((qubit g node + qubit g neighbor) / 2)%Q in
  oldg1 ← remove_edge oldg (neighbor, node);
  let '(oldg2, new_vertex) := add_vertex oldg1 (nodecolor `mod` 2 + 1) qubit_ row_ in
  oldg3 ← add_edge oldg2 (node, new_vertex);
  oldg4 ← add_edge oldg3 (new_vertex, neighbor);
  Ok (oldg4, clone oldg4).

Definition inner (node nodecolor : Z) (st : Graph * Graph) (neighbor : Z)
  : result (Graph * Graph) :=
  tn ← ty_at st.2 neighbor;
  if decide (tn = nodecolor) then subdivide node nodecolor neighbor st
  else Ok st.

Definition outer (st : Graph * Graph) (node : Z) : result (Graph * Graph) :=
  nodecolor ← ty_at st.2 node;
  nbs ← neighbors st.2 node;
  for_each nbs (inner node nodecolor) st.

End MakeRg.

(** [make_rg]: the result is the final state of [oldg], which the function
    both mutates and returns.  The outer loop runs over the vertices of the
    first clone, every inner loop over the neighbours the current clone has
    when that loop starts. *)
Definition make_rg (oldg : Graph) : result Graph :=
  let g := clone oldg in
  st ← for_each (vertices g) MakeRg.outer (oldg, g);
  Ok st.1.

(** ** Vertex ordering *)

(** A list comprehension whose condition may raise. *)
Fixpoint filterM {A : Type} (p : A → result bool) (l : list A) : result (list A) :=
  match l with
  | [] => Ok []
  | x :: l' =>
      b ← p x;
      r ← filterM p l';
      Ok (if (b : bool) then x :: r else r)
  end.

(** [l.index(x)] *)
Fixpoint index {A : Type} `{EqDecision A} (l : list A) (x : A) : result Z :=
  match l with
  | [] => Raise ValueError
  | y :: l' => if decide (y = x) then Ok 0 else (i ← index l' x; Ok (i + 1))
  end.

(** One entry of the dictionary comprehension
    [{vertices.index(item): item for item in original if item in vertices}]. *)
Definition index_entry (vertices_ : list Z) (m : gmap Z Z) (item : Z)
  : result (gmap Z Z) :=
  if decide (item ∈ vertices_)
  then i ← index vertices_ item; Ok (<[i := item]> m)
  else Ok m.

(** [outputs_] and [vertices_] are the source's locals [outputs] and
    [vertices]: the first holds the vertices named neither in the inputs nor
    in the outputs, the second adds the typed vertices not yet listed. *)
Definition ordered_nodes (g : Graph) : result (list Z * gmap Z Z) :=
  let original := vertices g in
  let outputs_ := filter (λ v, (v ∉ inputs g) ∧ (v ∉ outputs g)) original in
  typed ← filterM (λ v, (t ← ty_at g v; Ok (bool_decide (t ≠ 0 ∧ v ∉ outputs_)))) original;
  let vertices_ := outputs_ ++ typed in
  index_map ← for_each original (index_entry vertices_) ∅;
  Ok (vertices_, index_map).

(** ** Arrays *)

(** A two-dimensional array: its second dimension and its rows (the first
    dimension is the number of rows, so shapes [(0, c)] and [(r, 0)] are
    both represented). *)
Record ndarray := mkArray { ncols : Z; rows : list (list Z) }.

Definition nrows (a : ndarray) : Z := Z.of_nat (length (rows a)).

Definition np_eye (n : Z) : result ndarray :=
  if decide (n < 0) then Raise ValueError
  else Ok (mkArray n ((λ i, (λ j, if decide (i = j) then 1 else 0) <$> seqZ 0 n) <$> seqZ 0 n)).

Definition np_zeros (r c : Z) : result ndarray :=
  if decide (r < 0 ∨ c < 0) then Raise ValueError
  else Ok (mkArray c (replicate (Z.to_nat r) (replicate (Z.to_nat c) 0))).

Definition np_vstack (a b : ndarray) : result ndarray :=
  if decide (ncols a = ncols b) then Ok (mkArray (ncols a) (rows a ++ rows b))
  else Raise ValueError.

Definition hstack2 (a b : ndarray) : result ndarray :=
  if decide (nrows a = nrows b)
  then Ok (mkArray (ncols a + ncols b) (zip_with app (rows a) (rows b)))
  else Raise ValueError.

(** [np.hstack] of a sequence: at least one array is needed. *)
Definition np_hstack (l : list ndarray) : result ndarray :=
  match l with
  | [] => Raise ValueError
  | a :: l' => for_each l' hstack2 a
  end.

(** [a.T] *)
Definition transpose (a : ndarray) : ndarray :=
  mkArray (nrows a)
    ((λ j, (λ r, default 0 (r !! Z.to_nat j)) <$> rows a) <$> seqZ 0 (ncols a)).

(** Row [i] of the identity array of size [k]. *)
Definition unit_row (k i : Z) : list Z :=
  (λ j, if decide (i = j) then 1 else 0) <$> seqZ 0 k.

(** The dot product of two integer vectors, up to the shorter one. *)
Definition dot (r v : list Z) : Z := foldr Z.add 0 (zip_with Z.mul r v).

(** The vector [v] as an array of one column. *)
Definition column (v : list Z) : ndarray := mkArray 1 ((λ x, [x]) <$> v).

(** An array of shape [(r, c)] whose rows all have [c] entries. *)
Definition shaped (a : ndarray) (r c : Z) : Prop :=
  ncols a = c ∧ nrows a = r ∧ Forall (λ x, Z.of_nat (length x) = c) (rows a).

(** [np.nonzero(v)[0]] *)
Definition nonzero (v : list Z) : list Z :=
  filter (λ i, default 0 (v !! Z.to_nat i) ≠ 0) (seqZ 0 (Z.of_nat (length v))).

(** ** The adjacency array *)

(** [nx.Graph(edge_list)]: the nodes are the endpoints of the edges. *)
Record nxGraph := mkNx { nx_nodes : list Z; nx_edges : list (Z * Z) }.

Definition nx_add_node (l : list Z) (v : Z) : list Z :=
  if decide (v ∈ l) then l else l ++ [v].

Definition nx_Graph (es : list (Z * Z)) : nxGraph :=
  mkNx (foldl (λ l e, nx_add_node (nx_add_node l e.1) e.2) [] es) es.

Definition nx_adjacent (G : nxGraph) (u v : Z) : Prop :=
  (u, v) ∈ nx_edges G ∨ (v, u) ∈ nx_edges G.

(** [nx.to_numpy_array(G, nodelist)]: every listed node must be a node of
    [G], and none may be listed twice. *)
Definition to_numpy_array (G : nxGraph) (nodelist : list Z) : result ndarray :=
  if decide (Forall (λ v, v ∈ nx_nodes G) nodelist) then
    if decide (NoDup nodelist) then
      Ok (mkArray (Z.of_nat (length nodelist))
            ((λ u, (λ v, if decide (nx_adjacent G u v) then 1 else 0) <$> nodelist)
               <$> nodelist))
    else Raise NetworkXError
  else Raise NetworkXError.

(** ** Pauli webs *)

Inductive Pauli := PauliI | PauliX | PauliY | PauliZ.

#[global] Instance Pauli_eq_dec : EqDecision Pauli.
Proof. solve_decision. Defined.

Definition multiply_paulis (p1 p2 : Pauli) : Pauli :=
  match p1, p2 with
  | PauliI, p | p, PauliI => p
  | PauliX, PauliX | PauliY, PauliY | PauliZ, PauliZ => PauliI
  | PauliY, PauliZ | PauliZ, PauliY => PauliX
  | PauliX, PauliZ | PauliZ, PauliX => PauliY
  | PauliX, PauliY | PauliY, PauliX => PauliZ
  end.

(** A web stores a Pauli on each half-edge [(s, t)]; adding a Pauli to a
    half-edge multiplies it into what is there, and the identity is not
    stored. *)
Record PauliWeb := mkWeb { es : gmap (Z * Z) Pauli }.

Definition add_half_edge (pw : PauliWeb) (e : Z * Z) (p : Pauli) : PauliWeb :=
  let p1 := multiply_paulis (default PauliI (es pw !! e)) p in
  mkWeb (if decide (p1 = PauliI) then delete e (es pw) else <[e := p1]> (es pw)).

(** [pw.add_edge(e, pauli)] on a simple edge labels both half-edges. *)
Definition pw_add_edge (pw : PauliWeb) (e : Z * Z) (p : Pauli) : PauliWeb :=
  add_half_edge (add_half_edge pw (e.1, e.2) p) (e.2, e.1) p.

(** What a half-edge holds after a Pauli has been multiplied into it. *)
Definition relabel (o : option Pauli) (p : Pauli) : option Pauli :=
  let p1 := multiply_paulis (default PauliI o) p in
  if decide (p1 = PauliI) then None else Some p1.

Module GetPw.

(** The edge sets [(red_edges, green_edges)] after one edge of the scan
    for the firing index [i]. *)
Definition mark (index_map : gmap Z Z) (i outs node_color : Z)
    (st : gset (Z * Z) * gset (Z * Z)) (edge : Z * Z)
  : result (gset (Z * Z) * gset (Z * Z)) :=
  vtx ← subscript (index_map !! (i - outs));
  if decide (vtx = edge.1 ∨ vtx = edge.2) then
    if decide (node_color = 1) then Ok (st.1, {[edge]} ∪ st.2)
    else if decide (node_color = 2) then Ok ({[edge]} ∪ st.1, st.2)
    else Ok st
  else Ok st.

Definition fire (index_map : gmap Z Z) (g : Graph) (outs : Z)
    (st : gset (Z * Z) * gset (Z * Z)) (i : Z)
  : result (gset (Z * Z) * gset (Z * Z)) :=
  vtx ← subscript (index_map !! (i - outs));
  node_color ← ty_at g vtx;
  for_each (edges g) (mark index_map i outs node_color) st.

(** The first loop of [get_pw]: the pair [(red_edges, green_edges)]. *)
Definition edge_sets (index_map : gmap Z Z) (v : list Z) (g : Graph) (outs : Z)
  : result (gset (Z * Z) * gset (Z * Z)) :=
  for_each (nonzero v) (fire index_map g outs) (∅, ∅).

End GetPw.

(** [v] fires a vertex of type [c] on the edge [e]: some nonzero index of
    [v] is mapped to an endpoint of [e] that has type [c]. *)
Definition fires (index_map : gmap Z Z) (g : Graph) (outs : Z) (l : list Z)
    (c : Z) (e : Z * Z) : Prop :=
  ∃ i u, i ∈ l ∧ index_map !! (i - outs) = Some u ∧ ty g !! u = Some c ∧
         (u = e.1 ∨ u = e.2).

Definition get_pw (index_map : gmap Z Z) (v : list Z) (g : Graph) : result PauliWeb :=
  let outs := Z.of_nat (length (inputs g)) + Z.of_nat (length (outputs g)) in
  let pw := mkWeb ∅ in
  st ← GetPw.edge_sets index_map v g outs;
  let '(red_edges, green_edges) := st in
  let pw := foldl (λ pw e, pw_add_edge pw e PauliZ) pw (elements red_edges) in
  let pw := foldl (λ pw e, pw_add_edge pw e PauliX) pw (elements green_edges) in
  Ok pw.

(** ** The pipeline *)

Section Pipeline.

(** The GF(2) collaborator: [Mat2(a).nullspace()] returns the basis as a
    list of column vectors, each again a matrix whose [data] is read as an
    array. *)
Variable nullspace : ndarray → list ndarray.

(** Lines 91-103 of [get_detection_webs]: from the ordering to the
    augmented matrix [md_no_output]. *)
Definition parity_matrix (g : Graph) (new_order : list Z) : result ndarray :=
  let ng := nx_Graph (edges g) in
  let outs := Z.of_nat (length (inputs g)) + Z.of_nat (length (outputs g)) in
  N ← to_numpy_array ng new_order;
  I_n ← np_eye outs;
  zeroblock ← np_zeros (ncols N - outs) outs;
  mdl ← np_vstack I_n zeroblock;
  md ← np_hstack [mdl; N];
  e2 ← np_eye (2 * outs);
  row0 ← match rows md with r :: _ => Ok r | [] => Raise IndexError end;
  z2 ← np_zeros (2 * outs) (Z.of_nat (length row0) - 2 * outs);
  no_output ← np_hstack [e2; z2];
  np_vstack md no_output.

Definition get_detection_webs (g : Graph) : result (list PauliWeb) :=
  g ← make_rg g;
  '(new_order, index_map) ← ordered_nodes g;
  md_no_output ← parity_matrix g new_order;
  mdnons ← np_hstack (nullspace md_no_output);
  for_each (rows (transpose mdnons))
    (λ pws v, pw ← get_pw index_map v g; Ok (pws ++ [pw])) [].

End Pipeline.

(** ** A concrete GF(2) collaborator *)

Module F2.

Definition bit (j : nat) (r : list Z) : bool := bool_decide (default 0 (r !! j) ≠ 0).

Definition xor_row (a b : list Z) : list Z := zip_with (λ x y, (x + y) `mod` 2) a b.

Fixpoint find_pivot (j : nat) (l : list (list Z)) : option (list Z * list (list Z)) :=
  match l with
  | [] => None
  | r :: l' =>
      if bit j r then Some (r, l')
      else '(p, rest) ← find_pivot j l'; Some (p, r :: rest)
  end.

(** Gauss-Jordan elimination, column by column: [used] holds the pivot
    rows found so far with their pivot columns. *)
Fixpoint eliminate (cols : list nat) (used : list (nat * list Z)) (unused : list (list Z))
  : list (nat * list Z) :=
  match cols with
  | [] => used
  | j :: cols' =>
      match find_pivot j unused with
      | None => eliminate cols' used unused
      | Some (r, rest) =>
          let clear x := if bit j x then xor_row x r else x in
          eliminate cols' ((j, r) :: (prod_map id clear <$> used)) (clear <$> rest)
      end
  end.

(** [m · v = 0] over GF(2). *)
Definition annihilates (m : ndarray) (v : list Z) : Prop :=
  Forall (λ r, foldr Z.add 0 (zip_with Z.mul r v) `mod` 2 = 0) (rows m).

(** Modelled from the spec: the nullspace-basis extraction of the GF(2)
    matrix collaborator, whose code is not part of the repository.  One
    basis vector per free column, returned as a column matrix. *)
Definition nullspace (m : ndarray) : list ndarray :=
  let c := Z.to_nat (ncols m) in
  let pivots := eliminate (seq 0 c) [] (rows m) in
  let free := filter (λ j, j ∉ pivots.*1) (seq 0 c) in
  (λ f, mkArray 1
     ((λ j, [if decide (j = f) then 1
             else match list_find (λ p, p.1 = j) pivots with
                  | Some (_, (_, r)) => default 0 (r !! f)
                  | None => 0
                  end]) <$> seq 0 c)) <$> free.

End F2.

(** ** Well-formed diagrams *)

Definition nbrs (g : Graph) (s : Z) : list Z := default [] (dict_get (graph g) s).

(** What the graph library maintains: the vertex dictionary has no
    repeated key, every vertex has a type and an identifier below the
    fresh-index counter, and adjacency is symmetric and loop-free. *)
Definition wf (g : Graph) : Prop :=
  NoDup (vertices g) ∧
  Forall (λ s, is_Some (ty g !! s) ∧ s < vindex g ∧ NoDup (nbrs g s) ∧
               Forall (λ t, t ≠ s ∧ s ∈ nbrs g t) (nbrs g s)) (vertices g).

#[global] Instance wf_dec g : Decision (wf g).
Proof. unfold wf. apply _. Defined.

(** No edge joins two vertices of one type, the boundary type included. *)
Definition alternating (g : Graph) : Prop :=
  Forall (λ e, ty g !! e.1 ≠ ty g !! e.2) (edges g).

(** The RG form of the specification: no edge joins two non-boundary
    vertices of equal colour. *)
Definition rg_form (g : Graph) : Prop :=
  Forall (λ e, ∀ cu cv, ty g !! e.1 = Some cu → ty g !! e.2 = Some cv →
                        cu ≠ 0 → cv ≠ 0 → cu ≠ cv) (edges g).

Definition degree_sum (g : Graph) : Z :=
  foldr (λ s n, Z.of_nat (length (nbrs g s)) + n) 0 (vertices g).

(** [g'] differs from [g] in its adjacency only. *)
Definition same_meta (g' g : Graph) : Prop :=
  ty g' = ty g ∧ vindex g' = vindex g ∧ inputs g' = inputs g ∧ outputs g' = outputs g.

(** Two vertices that are adjacent and have the same type. *)
Definition mono (g : Graph) (s t : Z) : Prop :=
  t ∈ nbrs g s ∧ ty g !! s = ty g !! t.

(** [g'] is [g] after some subdivisions: the old vertices are kept in
    place with their types and degrees, the new ones are numbered from the
    fresh-index counter. *)
Definition ext (g g' : Graph) : Prop :=
  (∃ k, 0 ≤ k ∧ vertices g' = vertices g ++ seqZ (vindex g) k ∧
        vindex g' = vindex g + k) ∧
  (∀ s, s < vindex g → ty g' !! s = ty g !! s) ∧
  (∀ s, s ∈ vertices g → length (nbrs g' s) = length (nbrs g s)) ∧
  inputs g' = inputs g ∧ outputs g' = outputs g.

(** The nonzero index [i] of a kernel vector resolves: the index map sends
    [i - outs] to a vertex, and that vertex has a type. *)
Definition resolves (index_map : gmap Z Z) (g : Graph) (outs i : Z) : Prop :=
  is_Some (index_map !! (i - outs) ≫= λ u, ty g !! u).

(** ** Loading a diagram ([graph_loader.py]) *)

(** A value as [json.load] returns it. *)
#[warnings="-register-all"]
Inductive json :=
| JNull
| JBool (b : bool)
| JInt (n : Z)
| JFloat (q : Qc)
| JNaN
| JInfinity (negative : bool)
| JString (s : string)
| JArray (l : list json)
| JObject (l : list (string * json)).

(** The document that [json.load] returns, as far as [load_graph] reads
    it: the wire vertices with their coordinates, the node vertices with
    their coordinates, the type of their data and its value where the data
    has one, and the undirected edges with the names of their two ends.
    Each of the three is a dictionary keyed by name, in the order of the
    file.  A coordinate is a finite number, integer or float, with its
    exact value: [sorted] orders such numbers by value, and a document
    with a coordinate that is no number, or that is a NaN or an infinity
    of the parser, is not a [Document].  The type of a node is a string. *)
Record Document := mkDocument {
  wire_vertices : list (string * (Qc * Qc));
  node_vertices : list (string * ((Qc * Qc) * (string * option json)));
  undir_edges : list (string * (string * string))
}.

Module Loader.

(** [zx.Graph()] *)
Definition empty_graph : Graph := mkGraph [] ∅ ∅ ∅ 0 [] [].

(** [{x: n for n, x in enumerate(sorted(cods))}] *)
Definition cood_map (cods : gset Qc) : gmap Qc Z :=
  let l := merge_sort Qcle (elements cods) in
  foldl (λ (m : gmap Qc Z) nx, <[nx.2 := nx.1]> m) ∅
        (zip (seqZ 0 (Z.of_nat (length l))) l).

(** The type of a node vertex: X, Z, and an H-box for anything else. *)
Definition v_type (t : string) : Z :=
  if decide (t = "X") then 2 else if decide (t = "Z") then 1 else 3.

(** The body of the two vertex loops; the state is the graph and [id_map].
    The row and the qubit are looked up before [add_vertex] is called;
    [phase] is what the library makes of the phase that [add_vertex] is
    given, which it may refuse.  The label that [set_vdata] stores is not
    part of the diagram of this development. *)
Definition add_named (x_cood_map y_cood_map : gmap Qc Z) (t : Z)
    (phase : result unit)
    (st : Graph * gmap string Z) (node : string) (coord : Qc * Qc)
  : result (Graph * gmap string Z) :=
  r ← subscript (x_cood_map !! coord.1);
  q ← subscript (y_cood_map !! coord.2);
  _ ← phase;
  let '(g, vid) := add_vertex st.1 t (inject_Z q) (inject_Z r) in
  Ok (g, <[node := vid]> st.2).

(** [v_val]: the value of the data of a node, and 0 when it has none. *)
Definition v_val (value : option json) : json := default (JInt 0) value.

(** A graph library that takes integers as phases and refuses every other
    value. *)
Definition int_phase (t : Z) (v : json) : result unit :=
  match v with JInt _ => Ok tt | _ => Raise TypeError end.

(** The body of the edge loop. *)
Definition add_named_edge (id_map : gmap string Z) (g : Graph)
    (item : string * (string * string)) : result Graph :=
  s ← subscript (id_map !! item.2.1);
  t ← subscript (id_map !! item.2.2);
  add_edge g (s, t).

(** The coordinates the first two loops read, wire vertices first. *)
Definition coords (data : Document) : list (Qc * Qc) :=
  (snd <$> wire_vertices data) ++ ((fst ∘ snd) <$> node_vertices data).

(** The sets [xcods] and [ycods] after the first two loops. *)
Definition xcods (data : Document) : gset Qc :=
  foldl (λ s c, {[c.1]} ∪ s) ∅ (coords data).
Definition ycods (data : Document) : gset Qc :=
  foldl (λ s c, {[c.2]} ∪ s) ∅ (coords data).

End Loader.

Section Loading.

(** What the graph library does with the phase that [add_vertex] is given
    for a vertex of the given type: it stores the phase, or refuses the
    value with an exception.  The diagram of this development carries no
    phase, so that the refusal is all that is kept of it.  A wire vertex
    is added without a phase. *)
Variable set_phase : Z → json → result unit.

(** [load_graph], from the parsed document on; the result keeps [id_map]
    beside the graph. *)
Definition load_graph_ids (data : Document) : result (Graph * gmap string Z) :=
  let graph_ := Loader.empty_graph in
  let x_cood_map := Loader.cood_map (Loader.xcods data) in
  let y_cood_map := Loader.cood_map (Loader.ycods data) in
  st ← for_each (wire_vertices data)
         (λ st item, Loader.add_named x_cood_map y_cood_map 0 (Ok tt) st item.1 item.2)
         (graph_, ∅);
  st ← for_each (node_vertices data)
         (λ st item, Loader.add_named x_cood_map y_cood_map
                       (Loader.v_type item.2.2.1)
                       (set_phase (Loader.v_type item.2.2.1) (Loader.v_val item.2.2.2))
                       st item.1 item.2.1)
         st;
  g ← for_each (undir_edges data) (Loader.add_named_edge st.2) st.1;
  Ok (g, st.2).

Definition load_graph (data : Document) : result Graph :=
  st ← load_graph_ids data; Ok st.1.

(** The library takes the phase of every node of the document. *)
Definition accepted (data : Document) : Prop :=
  Forall (λ item, set_phase (Loader.v_type item.2.2.1) (Loader.v_val item.2.2.2) = Ok tt)
         (node_vertices data).

End Loading.

#[global] Instance accepted_dec set_phase data : Decision (accepted set_phase data).
Proof. unfold accepted. apply _. Defined.

(** A document with two wires and a green and a red spider between them;
    the red spider has the value 1. *)
Definition doc : Document :=
  mkDocument [("b0", (Q2Qc 0, Q2Qc 1)); ("b1", (Q2Qc 3, Q2Qc 1))]
             [("v0", ((Q2Qc 1, Q2Qc 1), ("Z", None)));
              ("v1", ((Q2Qc (3#2), Q2Qc 1), ("X", Some (JInt 1))))]
             [("e0", ("b0", "v0")); ("e1", ("v0", "v1")); ("e2", ("v1", "b1"))].

(** [doc] with a float as the value of the green spider. *)
Definition float_doc : Document :=
  mkDocument [("b0", (Q2Qc 0, Q2Qc 1)); ("b1", (Q2Qc 3, Q2Qc 1))]
             [("v0", ((Q2Qc 1, Q2Qc 1), ("Z", Some (JFloat (Q2Qc (1#2))))));
              ("v1", ((Q2Qc (3#2), Q2Qc 1), ("X", Some (JInt 1))))]
             [("e0", ("b0", "v0")); ("e1", ("v0", "v1")); ("e2", ("v1", "b1"))].

(** The diagram of [doc]: the two wires are the vertices 0 and 1, the
    spiders 2 and 3; the four first coordinates 0, 3, 1 and 3/2 become the
    rows 0, 3, 1 and 2. *)
Definition doc_graph : Graph :=
  mkGraph [(0, [2]); (1, [3]); (2, [0; 3]); (3, [2; 1])]
          (list_to_map [(0, 0); (1, 0); (2, 1); (3, 2)])
          (list_to_map [(0, 0%Q); (1, 0%Q); (2, 0%Q); (3, 0%Q)])
          (list_to_map [(0, 0%Q); (1, 3%Q); (2, 1%Q); (3, 2%Q)]) 4 [] [].

(** The number of coordinates of [cods] below [x]. *)
Definition rank (cods : gset Qc) (x : Qc) : Z :=
  Z.of_nat (length (filter (λ z, Qclt z x) (elements cods))).

(** A graph whose vertices are numbered from 0 and carry no edge yet, with
    no input and no output named: the graph of [load_graph] while it adds
    the vertices. *)
Definition bare (g : Graph) : Prop :=
  vertices g = seqZ 0 (vindex g) ∧ 0 ≤ vindex g ∧ (∀ v, nbrs g v = []) ∧
  inputs g = [] ∧ outputs g = [] ∧
  (∀ v, 0 ≤ v < vindex g → is_Some (ty g !! v)).

(** The names of the vertices of a document and the types [load_graph]
    gives them, in the order in which it adds the vertices. *)
Definition names (data : Document) : list string :=
  (fst <$> wire_vertices data) ++ (fst <$> node_vertices data).

Definition types (data : Document) : list Z :=
  ((λ _, 0) <$> wire_vertices data)
  ++ ((λ item, Loader.v_type item.2.2.1) <$> node_vertices data).

(** The entry [item] of [undir_edges] joins the vertices named [a] and [b]. *)
Definition joins (item : string * (string * string)) (a b : string) : Prop :=
  item.2 = (a, b) ∨ item.2 = (b, a).

(** A document of a simple graph: no two vertices share a name, no edge
    entry joins a name to itself, and no two entries join the same pair of
    names. *)
Definition simple (data : Document) : Prop :=
  NoDup (names data) ∧
  Forall (λ item, item.2.1 ≠ item.2.2) (undir_edges data) ∧
  NoDup ((snd <$> undir_edges data)
         ++ ((λ item, (item.2.2, item.2.1)) <$> undir_edges data)).

#[global] Instance simple_dec data : Decision (simple data).
Proof. unfold simple. apply _. Defined.

(** Every end of every edge entry is the name of a vertex. *)
Definition named (data : Document) : Prop :=
  Forall (λ item, item.2.1 ∈ names data ∧ item.2.2 ∈ names data) (undir_edges data).

#[global] Instance named_dec data : Decision (named data).
Proof. unfold named. apply _. Defined.

(** A wire and a green spider, with a second edge to a vertex that the
    document does not have. *)
Definition dangling : Document :=
  mkDocument [("b0", (Q2Qc 0, Q2Qc 1))]
             [("v0", ((Q2Qc 1, Q2Qc 1), ("Z", None)))]
             [("e0", ("b0", "v0")); ("e1", ("v0", "v9"))].

(** ** Small diagrams *)

Definition no_pos : gmap Z Q := ∅.

(** Two boundary vertices 0 (input) and 1 (output) joined through one
    green spider 2. *)
Definition minimal : Graph :=
  mkGraph [(0, [2]); (1, [2]); (2, [0; 1])]
          (list_to_map [(0, 0); (1, 0); (2, 1)]) no_pos no_pos 3 [0] [1].

(** A bare wire between two boundary vertices. *)
Definition wire : Graph :=
  mkGraph [(0, [1]); (1, [0])] (list_to_map [(0, 0); (1, 0)]) no_pos no_pos 2 [0] [1].

(** A path of three green spiders. *)
Definition zzz : Graph :=
  mkGraph [(0, [1]); (1, [0; 2]); (2, [1])]
          (list_to_map [(0, 1); (1, 1); (2, 1)]) no_pos no_pos 3 [] [].

(** [zzz] after [make_rg]: a red spider on each of its two edges. *)
Definition zzz_rg : Graph :=
  mkGraph [(0, [3]); (1, [3; 4]); (2, [4]); (3, [0; 1]); (4, [1; 2])]
          (list_to_map [(0, 1); (1, 1); (2, 1); (3, 2); (4, 2)])
          (list_to_map [(3, (-2 # 2)%Q); (4, (-2 # 2)%Q)])
          (list_to_map [(3, (-2 # 2)%Q); (4, (-2 # 2)%Q)]) 5 [] [].

(** One vertex that has no type, which the graph library never builds. *)
Definition untyped : Graph := mkGraph [(0, [])] ∅ no_pos no_pos 1 [] [].

(** A green and a red spider joined by an edge, no boundary. *)
Definition zx : Graph :=
  mkGraph [(0, [1]); (1, [0])] (list_to_map [(0, 1); (1, 2)]) no_pos no_pos 2 [] [].

(** A red spider between two green ones, no boundary. *)
Definition zxz : Graph :=
  mkGraph [(0, [1]); (1, [0; 2]); (2, [1])]
          (list_to_map [(0, 1); (1, 2); (2, 1)]) no_pos no_pos 3 [] [].

(** A square of alternating green and red spiders. *)
Definition square : Graph :=
  mkGraph [(0, [1; 3]); (1, [0; 2]); (2, [1; 3]); (3, [2; 0])]
          (list_to_map [(0, 1); (1, 2); (2, 1); (3, 2)]) no_pos no_pos 4 [] [].

(** A boundary input 0 followed by a green and a red spider. *)
Definition in_zx : Graph :=
  mkGraph [(0, [1]); (1, [0; 2]); (2, [1])]
          (list_to_map [(0, 0); (1, 1); (2, 2)]) no_pos no_pos 3 [0] [].

(** A red spider 0, a green input spider 1 and a green spider 2 in a path. *)
Definition in_zx' : Graph :=
  mkGraph [(0, [1]); (1, [0; 2]); (2, [1])]
          (list_to_map [(0, 2); (1, 1); (2, 2)]) no_pos no_pos 3 [1] [].

(** The square with its last red spider named as input. *)
Definition square_in : Graph :=
  mkGraph [(0, [1; 3]); (1, [0; 2]); (2, [1; 3]); (3, [2; 0])]
          (list_to_map [(0, 1); (1, 2); (2, 1); (3, 2)]) no_pos no_pos 4 [3] [].

(** * Properties *)

(** ** Dictionaries *)

Section dict.
Context {V : Type}.
Implicit Types d : list (Z * V).

Lemma dict_get_set d k v k' :
  dict_get (dict_set d k v) k' = if decide (k = k') then Some v else dict_get d k'.
Proof.
  induction d as [|[a b] d IH]; simpl.
  - repeat case_decide; congruence.
  - repeat (case_decide; simpl); try congruence.
Qed.

Lemma dict_get_is_Some d k : is_Some (dict_get d k) ↔ k ∈ d.*1.
Proof.
  induction d as [|[a b] d IH]; simpl.
  - split; [intros [? [=]] | intros H; inversion H].
  - case_decide; subst.
    + split; [intros _; left | eauto].
    + rewrite IH. split; [by right | ].
      intros H'. apply elem_of_cons in H' as [->|]; [done | done].
Qed.

Lemma dict_get_None d k : dict_get d k = None ↔ k ∉ d.*1.
Proof. rewrite <- dict_get_is_Some, eq_None_not_Some. done. Qed.

Lemma dict_set_keys_in d k v : k ∈ d.*1 → (dict_set d k v).*1 = d.*1.
Proof.
  induction d as [|[a b] d IH]; simpl; intros H.
  - inversion H.
  - case_decide; simpl; [done | ].
    f_equal. apply IH. apply elem_of_cons in H as [->|]; done.
Qed.

Lemma dict_set_keys_notin d k v : k ∉ d.*1 → (dict_set d k v).*1 = d.*1 ++ [k].
Proof.
  induction d as [|[a b] d IH]; simpl; intros H; [done | ].
  apply not_elem_of_cons in H as [? ?].
  case_decide; [congruence | ]. simpl. f_equal. by apply IH.
Qed.

Lemma dict_get_elem d k v : dict_get d k = Some v → (k, v) ∈ d.
Proof.
  induction d as [|[a b] d IH]; simpl; [done | ].
  case_decide; subst.
  - intros [= ->]. left.
  - intros. right. auto.
Qed.

Lemma dict_elem_get d k v : NoDup d.*1 → (k, v) ∈ d → dict_get d k = Some v.
Proof.
  induction d as [|[a b] d IH]; simpl; intros Hnd H.
  - inversion H.
  - apply NoDup_cons in Hnd as [Hn Hnd].
    apply elem_of_cons in H as [[= -> ->] | H].
    + by rewrite decide_True.
    + rewrite decide_False; [auto | ].
      intros ->. apply Hn. apply list_elem_of_fmap. by exists (k, v).
Qed.

End dict.

(** ** The graph operations on well-formed diagrams *)

Lemma nbrs_vertices g s t : t ∈ nbrs g s → s ∈ vertices g.
Proof.
  unfold nbrs, vertices. destruct (dict_get (graph g) s) eqn:E; simpl.
  - intros _. apply dict_get_is_Some. eauto.
  - intros H. inversion H.
Qed.

Lemma vertices_nbrs g s : s ∈ vertices g → dict_get (graph g) s = Some (nbrs g s).
Proof.
  intros [a Ha]%dict_get_is_Some. unfold nbrs. by rewrite Ha.
Qed.

Lemma wf_facts g :
  wf g ↔
  NoDup (vertices g) ∧
  (∀ s, s ∈ vertices g → is_Some (ty g !! s) ∧ s < vindex g) ∧
  (∀ s, NoDup (nbrs g s)) ∧
  (∀ s t, t ∈ nbrs g s → t ≠ s ∧ s ∈ nbrs g t).
Proof.
  unfold wf. rewrite Forall_forall. split.
  - intros [Hnd H]. split; [done | ]. split; [ | split].
    + intros s Hs. destruct (H s Hs) as (? & ? & _). done.
    + intros s. destruct (decide (s ∈ vertices g)) as [Hs | Hs].
      * destruct (H s Hs) as (_ & _ & ? & _). done.
      * unfold nbrs. apply dict_get_None in Hs. unfold vertices in *.
        rewrite Hs. constructor.
    + intros s t Ht. pose proof (nbrs_vertices _ _ _ Ht) as Hs.
      destruct (H s Hs) as (_ & _ & _ & Hall).
      rewrite Forall_forall in Hall. auto.
  - intros (Hnd & Hty & Hn & Hsym). split; [done | ].
    intros s Hs. destruct (Hty s Hs). repeat split; auto.
    apply Forall_forall. auto.
Qed.

Lemma del_adj_spec d s t :
  t ∈ default [] (dict_get d s) →
  ∃ d', del_adj d s t = Ok d' ∧ d'.*1 = d.*1 ∧
    ∀ x, default [] (dict_get d' x) =
         if decide (x = s) then filter (λ y, y ≠ t) (default [] (dict_get d s))
         else default [] (dict_get d x).
Proof.
  intros Ht. destruct (dict_get d s) as [a|] eqn:E; simpl in Ht; [ | inversion Ht].
  unfold del_adj. rewrite E. simpl. rewrite decide_True by done.
  eexists. split; [done | ]. split.
  - apply dict_set_keys_in, dict_get_is_Some. eauto.
  - intros x. rewrite dict_get_set. repeat case_decide; subst; try done.
Qed.

Lemma put_adj_spec d s t :
  s ∈ d.*1 → t ∉ default [] (dict_get d s) →
  ∃ d', put_adj d s t = Ok d' ∧ d'.*1 = d.*1 ∧
    ∀ x, default [] (dict_get d' x) =
         if decide (x = s) then default [] (dict_get d s) ++ [t]
         else default [] (dict_get d x).
Proof.
  intros Hs Ht. pose proof Hs as [a E]%dict_get_is_Some.
  rewrite E in Ht. simpl in Ht.
  unfold put_adj. rewrite E. simpl. rewrite decide_False by done.
  eexists. split; [done | ]. split.
  - by apply dict_set_keys_in.
  - intros x. rewrite dict_get_set. repeat case_decide; subst; try done.
Qed.

Lemma remove_edge_spec g s t :
  t ∈ nbrs g s → s ∈ nbrs g t → s ≠ t →
  ∃ g', remove_edge g (s, t) = Ok g' ∧ vertices g' = vertices g ∧ same_meta g' g ∧
    ∀ x, nbrs g' x =
         if decide (x = s) then filter (λ y, y ≠ t) (nbrs g s)
         else if decide (x = t) then filter (λ y, y ≠ s) (nbrs g t)
         else nbrs g x.
Proof.
  intros Hst Hts Hne. unfold remove_edge, nbrs in *. simpl.
  destruct (del_adj_spec (graph g) s t Hst) as (d1 & -> & Hk1 & Hn1). simpl.
  destruct (del_adj_spec d1 t s) as (d2 & -> & Hk2 & Hn2).
  { rewrite Hn1. rewrite decide_False by done. done. }
  simpl. eexists. split; [done | ]. split; [ | split].
  - unfold vertices. simpl. congruence.
  - done.
  - intros x. simpl. rewrite Hn2, !Hn1.
    repeat case_decide; subst; try done.
Qed.

Lemma add_edge_spec g s t :
  s ≠ t → is_Some (ty g !! s) → is_Some (ty g !! t) →
  s ∈ vertices g → t ∈ vertices g → t ∉ nbrs g s → s ∉ nbrs g t →
  ∃ g', add_edge g (s, t) = Ok g' ∧ vertices g' = vertices g ∧ same_meta g' g ∧
    ∀ x, nbrs g' x =
         if decide (x = s) then nbrs g s ++ [t]
         else if decide (x = t) then nbrs g t ++ [s]
         else nbrs g x.
Proof.
  intros Hne [t1 E1] [t2 E2] Hs Ht Hst Hts.
  unfold add_edge, ty_at. simpl. rewrite E1, E2. simpl.
  rewrite decide_False by done.
  rewrite (vertices_nbrs _ _ Hs). simpl. rewrite decide_False by done.
  unfold nbrs, vertices in *.
  destruct (put_adj_spec (graph g) s t Hs Hst) as (d1 & -> & Hk1 & Hn1). simpl.
  destruct (put_adj_spec d1 t s) as (d2 & -> & Hk2 & Hn2).
  { by rewrite Hk1. }
  { rewrite Hn1. rewrite decide_False by done. done. }
  simpl. eexists. split; [done | ]. split; [ | split].
  - simpl. congruence.
  - done.
  - intros x. simpl. rewrite Hn2, !Hn1.
    repeat case_decide; subst; try done.
Qed.

Lemma add_vertex_spec g t q r :
  vindex g ∉ vertices g →
  let g' := (add_vertex g t q r).1 in
  (add_vertex g t q r).2 = vindex g ∧
  vertices g' = vertices g ++ [vindex g] ∧
  ty g' = <[vindex g := t]> (ty g) ∧ vindex g' = vindex g + 1 ∧
  inputs g' = inputs g ∧ outputs g' = outputs g ∧
  ∀ x, nbrs g' x = if decide (x = vindex g) then [] else nbrs g x.
Proof.
  intros Hv. simpl. repeat split.
  - by apply dict_set_keys_notin.
  - intros x. unfold nbrs. simpl. rewrite dict_get_set.
    repeat case_decide; subst; done.
Qed.

(** ** One subdivision *)

Lemma subdivide_spec g node c neighbor :
  wf g → neighbor ∈ nbrs g node →
  ty g !! node = Some c → ty g !! neighbor = Some c →
  ∃ g', MakeRg.subdivide node c neighbor (g, g) = Ok (g', g') ∧
    vertices g' = vertices g ++ [vindex g] ∧
    vindex g' = vindex g + 1 ∧
    ty g' = <[vindex g := c `mod` 2 + 1]> (ty g) ∧
    inputs g' = inputs g ∧ outputs g' = outputs g ∧
    ∀ x, nbrs g' x =
         if decide (x = node)
         then filter (λ y, y ≠ neighbor) (nbrs g node) ++ [vindex g]
         else if decide (x = neighbor)
         then filter (λ y, y ≠ node) (nbrs g neighbor) ++ [vindex g]
         else if decide (x = vindex g) then [node; neighbor]
         else nbrs g x.
Proof.
  intros (Hnd & Hty & Hn & Hsym)%wf_facts Hnb Ec En.
  destruct (Hsym _ _ Hnb) as [Hne Hbn].
  pose proof (nbrs_vertices _ _ _ Hnb) as Hvn.
  pose proof (nbrs_vertices _ _ _ Hbn) as Hvb.
  destruct (Hty _ Hvn) as [_ Hlt1]. destruct (Hty _ Hvb) as [_ Hlt2].
  assert (Hfresh : vindex g ∉ vertices g).
  { intros H. destruct (Hty _ H). lia. }
  unfold MakeRg.subdivide.
  destruct (remove_edge_spec g neighbor node Hbn Hnb Hne)
    as (g1 & -> & Hv1 & (Ht1 & Hi1 & Hin1 & Hout1) & Hn1).
  cbn [mbind result_bind].
  set (q := ((qubit g node + qubit g neighbor) / 2)%Q).
  set (r := ((row g node + row g neighbor) / 2)%Q).
  set (cw := c `mod` 2 + 1).
  destruct (add_vertex_spec g1 cw q r) as (Hw & Hv2 & Ht2 & Hi2 & Hin2 & Hout2 & Hn2).
  { by rewrite Hi1, Hv1. }
  destruct (add_vertex g1 cw q r) as [g2 w]. simpl in *. subst w.
  rewrite Hi1 in *. rewrite Hv1 in *. rewrite Ht1 in *.
  destruct (add_edge_spec g2 node (vindex g))
    as (g3 & -> & Hv3 & (Ht3 & Hi3 & Hin3 & Hout3) & Hn3).
  { lia. }
  { rewrite Ht2, lookup_insert_ne by lia. eauto. }
  { rewrite Ht2, lookup_insert_eq. eauto. }
  { rewrite Hv2. apply elem_of_app. by left. }
  { rewrite Hv2. apply elem_of_app. right. left. }
  { rewrite Hn2, decide_False by lia. rewrite Hn1.
    rewrite decide_False by done. rewrite decide_True by done.
    intros [_ H]%list_elem_of_filter. apply Hsym in H as [_ H].
    by apply nbrs_vertices in H. }
  { rewrite Hn2, decide_True by done. by intros ?%elem_of_nil. }
  cbn [mbind result_bind].
  destruct (add_edge_spec g3 (vindex g) neighbor)
    as (g4 & -> & Hv4 & (Ht4 & Hi4 & Hin4 & Hout4) & Hn4).
  { lia. }
  { rewrite Ht3, Ht2, lookup_insert_eq. eauto. }
  { rewrite Ht3, Ht2, lookup_insert_ne by lia. eauto. }
  { rewrite Hv3, Hv2. apply elem_of_app. right. left. }
  { rewrite Hv3, Hv2. apply elem_of_app. by left. }
  { rewrite Hn3, decide_False by lia. rewrite decide_True by done.
    rewrite Hn2, decide_True by done. simpl.
    intros ?%list_elem_of_singleton. congruence. }
  { rewrite Hn3, decide_False by done. rewrite decide_False by lia.
    rewrite Hn2, decide_False by lia. rewrite Hn1, decide_True by done.
    intros [_ H]%list_elem_of_filter. apply Hsym in H as [_ H].
    by apply nbrs_vertices in H. }
  cbn [mbind result_bind]. unfold clone.
  eexists. split; [done | ].
  repeat split; try congruence.
  intros x. rewrite Hn4, !Hn3, !Hn2, !Hn1.
  repeat case_decide; subst; simpl; try done; try lia.
Qed.

Lemma length_filter_ne (l : list Z) t :
  NoDup l → t ∈ l → S (length (filter (λ y, y ≠ t) l)) = length l.
Proof.
  induction l as [|a l IH]; intros Hnd Ht; [inversion Ht | ].
  apply NoDup_cons in Hnd as [Ha Hnd].
  rewrite filter_cons. destruct (decide (a = t)) as [-> | Hne].
  - rewrite decide_False by tauto. simpl. f_equal.
    clear IH Ht. induction l as [|b l IH]; [done | ].
    apply not_elem_of_cons in Ha as [? ?]. apply NoDup_cons in Hnd as [? ?].
    rewrite filter_cons, decide_True by congruence. simpl. f_equal. auto.
  - rewrite decide_True by done. simpl. f_equal. apply IH; [done | ].
    apply elem_of_cons in Ht as [-> | ?]; done.
Qed.

Lemma other_colour c : c `mod` 2 + 1 ≠ c.
Proof.
  destruct (decide (c = 1)) as [-> | ?]; [done | ].
  destruct (decide (c = 2)) as [-> | ?]; [done | ].
  pose proof (Z.mod_pos_bound c 2). lia.
Qed.

Lemma ext_refl g : ext g g.
Proof.
  repeat split; try done. exists 0. rewrite seqZ_nil, app_nil_r by lia.
  repeat split; [lia | lia].
Qed.

Lemma ext_trans g1 g2 g3 : ext g1 g2 → ext g2 g3 → ext g1 g3.
Proof.
  intros ((k1 & ? & Hv1 & Hi1) & Ht1 & Hl1 & ? & ?)
         ((k2 & ? & Hv2 & Hi2) & Ht2 & Hl2 & ? & ?).
  repeat split; try congruence.
  - exists (k1 + k2). rewrite Hv2, Hv1, Hi1, Hi2, <- app_assoc, <- seqZ_app by lia.
    repeat split; lia.
  - intros s Hs. rewrite Ht2 by lia. auto.
  - intros s Hs. rewrite Hl2; [auto | ]. rewrite Hv1. apply elem_of_app. by left.
Qed.

Lemma ext_vertices g g' s : ext g g' → s ∈ vertices g → s ∈ vertices g'.
Proof.
  intros ((k & _ & -> & _) & _) Hs. apply elem_of_app. by left.
Qed.

Lemma subdivide_step g node c neighbor :
  wf g → neighbor ∈ nbrs g node →
  ty g !! node = Some c → ty g !! neighbor = Some c →
  ∃ g', MakeRg.subdivide node c neighbor (g, g) = Ok (g', g') ∧
    wf g' ∧ ext g g' ∧ vindex g' = vindex g + 1 ∧
    nbrs g' node = filter (λ y, y ≠ neighbor) (nbrs g node) ++ [vindex g] ∧
    (∀ s t, mono g' s t → mono g s t ∧ ¬ (s = node ∧ t = neighbor)).
Proof.
  intros Hwf Hnb Ec En.
  destruct (subdivide_spec g node c neighbor Hwf Hnb Ec En)
    as (g' & Hrun & Hv & Hi & Ht & Hin & Hout & Hn).
  apply wf_facts in Hwf as (Hnd & Hty & Hnn & Hsym).
  destruct (Hsym _ _ Hnb) as [Hne Hbn].
  pose proof (nbrs_vertices _ _ _ Hnb) as Hvn.
  pose proof (nbrs_vertices _ _ _ Hbn) as Hvb.
  destruct (Hty _ Hvn) as [_ Hlt1]. destruct (Hty _ Hvb) as [_ Hlt2].
  assert (Hold : ∀ s t, t ∈ nbrs g s → s < vindex g ∧ t < vindex g).
  { intros s t Hst. destruct (Hsym _ _ Hst) as [_ Hts].
    apply nbrs_vertices in Hst, Hts. split; by apply Hty. }
  assert (Hadj : ∀ s t, t ∈ nbrs g' s ↔
            (t ∈ nbrs g s ∧ ¬ (s = node ∧ t = neighbor) ∧ ¬ (s = neighbor ∧ t = node))
            ∨ (s = node ∧ t = vindex g) ∨ (s = vindex g ∧ t = node)
            ∨ (s = neighbor ∧ t = vindex g) ∨ (s = vindex g ∧ t = neighbor)).
  { intros s t. rewrite Hn. repeat case_decide; subst;
      rewrite ?elem_of_app, ?list_elem_of_filter, ?list_elem_of_singleton,
        ?elem_of_cons, ?elem_of_nil.
    - split; [intros [[? ?] | ?]; [left | ]; naive_solver | naive_solver lia].
    - split; [intros [[? ?] | ?]; [left | ]; naive_solver | naive_solver lia].
    - split; [naive_solver | ].
      intros [(Hx & _) | ?]; [apply Hold in Hx; lia | naive_solver lia].
    - split; [naive_solver | naive_solver]. }
  exists g'. split; [done | ]. split; [ | split; [ | split; [done | split]]].
  - apply wf_facts. split; [ | split; [ | split]].
    + rewrite Hv. apply NoDup_app. split; [done | ]. split; [ | apply NoDup_singleton].
      intros x Hx ->%list_elem_of_singleton. apply Hty in Hx. lia.
    + intros s. rewrite Hv, Hi, Ht, elem_of_app, list_elem_of_singleton.
      intros [Hs | ->].
      * destruct (Hty _ Hs). rewrite lookup_insert_ne by lia. split; [done | lia].
      * rewrite lookup_insert_eq. split; [eauto | lia].
    + intros s. rewrite Hn. repeat case_decide; subst.
      * apply NoDup_app. split; [by apply NoDup_filter | ].
        split; [ | apply NoDup_singleton].
        intros x [_ Hx]%list_elem_of_filter ->%list_elem_of_singleton.
        apply Hold in Hx. lia.
      * apply NoDup_app. split; [by apply NoDup_filter | ].
        split; [ | apply NoDup_singleton].
        intros x [_ Hx]%list_elem_of_filter ->%list_elem_of_singleton.
        apply Hold in Hx. lia.
      * apply NoDup_cons. split; [ | apply NoDup_singleton].
        by intros ?%list_elem_of_singleton.
      * done.
    + intros s t. rewrite !Hadj. intros [(Hst & ? & ?) | Hnew].
      * destruct (Hsym _ _ Hst). split; [done | ]. left. naive_solver.
      * split; [naive_solver lia | naive_solver].
  - repeat split; try done.
    + exists 1. split; [lia | ]. by rewrite Hv, Hi.
    + intros s Hs. rewrite Ht, lookup_insert_ne by lia. done.
    + intros s Hs. rewrite Hn. repeat case_decide; subst.
      * rewrite length_app. simpl. rewrite <- (length_filter_ne (nbrs g node) neighbor); [lia | done | done].
      * rewrite length_app. simpl. rewrite <- (length_filter_ne (nbrs g neighbor) node); [lia | done | done].
      * apply Hty in Hs. lia.
      * done.
  - rewrite Hn, decide_True by done. done.
  - intros s t [Hst Hty']. apply Hadj in Hst.
    rewrite Ht in Hty'. pose proof (other_colour c) as Hc.
    destruct Hst as [(Hst & ? & ?) | Hnew].
    + pose proof (Hold _ _ Hst) as [? ?].
      rewrite !lookup_insert_ne in Hty' by lia. split; [by split | tauto].
    + exfalso. destruct Hnew as [[-> ->] | [[-> ->] | [[-> ->] | [-> ->]]]];
        rewrite lookup_insert_eq, lookup_insert_ne in Hty' by lia; congruence.
Qed.

(** ** The two loops of [make_rg] *)

Lemma wf_ty g s : wf g → s ∈ vertices g → ∃ c, ty g !! s = Some c ∧ s < vindex g.
Proof.
  intros (_ & Hty & _)%wf_facts Hs. destruct (Hty _ Hs) as [[c Hc] ?]. eauto.
Qed.

Lemma wf_nbr_vertex g s t : wf g → t ∈ nbrs g s → t ∈ vertices g.
Proof.
  intros (_ & _ & _ & Hsym)%wf_facts Ht.
  destruct (Hsym _ _ Ht) as [_ H]. by apply nbrs_vertices in H.
Qed.

(** The inner loop over a list [L] of neighbours that are still adjacent
    to [node]: it returns, adds at most [length L] vertices, and leaves no
    vertex of [L] adjacent to [node] with the type of [node]. *)
Lemma inner_loop node c (L : list Z) :
  ∀ g, wf g → ty g !! node = Some c → NoDup L →
    (∀ t, t ∈ L → t ∈ nbrs g node) →
    ∃ g', for_each L (MakeRg.inner node c) (g, g) = Ok (g', g') ∧
      wf g' ∧ ext g g' ∧ vindex g' - vindex g ≤ Z.of_nat (length L) ∧
      (∀ s t, mono g' s t → mono g s t ∧ ¬ (s = node ∧ t ∈ L)).
Proof.
  induction L as [|t L IH]; intros g Hwf Ec Hnd HL.
  - exists g. simpl. split; [done | ]. split; [done | ].
    split; [apply ext_refl | ]. split; [lia | ].
    intros s t Hmono. split; [done | ]. intros [_ []%elem_of_nil].
  - apply NoDup_cons in Hnd as [Ht Hnd].
    assert (Hadj : t ∈ nbrs g node) by (apply HL; left).
    pose proof (wf_nbr_vertex _ _ _ Hwf Hadj) as Hvt.
    pose proof (nbrs_vertices _ _ _ Hadj) as Hvn.
    destruct (wf_ty _ _ Hwf Hvt) as (ct & Ect & Hlt).
    destruct (wf_ty _ _ Hwf Hvn) as (? & ? & Hltn).
    cbn [for_each].
    destruct (decide (ct = c)) as [-> | Hc].
    + assert (MakeRg.inner node c (g, g) t = MakeRg.subdivide node c t (g, g)) as ->.
      { unfold MakeRg.inner, ty_at. cbn [snd]. rewrite Ect.
        cbn [subscript mbind result_bind]. by rewrite decide_True. }
      destruct (subdivide_step g node c t Hwf Hadj Ec Ect)
        as (g1 & -> & Hwf1 & Hext1 & Hi1 & Hn1 & Hm1).
      cbn [mbind result_bind].
      destruct (IH g1) as (g' & Hrun & Hwf' & Hext' & Hi' & Hm'); try done.
      { destruct Hext1 as (_ & Hty1 & _). by rewrite Hty1. }
      { intros t' Ht'. rewrite Hn1. apply elem_of_app. left.
        apply list_elem_of_filter. split; [ | apply HL; by right].
        intros ->. done. }
      exists g'. split; [done | ]. split; [done | ].
      split; [by eapply ext_trans | ]. split.
      { rewrite length_cons. lia. }
      intros s t' Hmono. destruct (Hm' _ _ Hmono) as [Hmono1 Hn'].
      destruct (Hm1 _ _ Hmono1) as [Hmono0 Hn0]. split; [done | ].
      intros [-> [-> | ?]%elem_of_cons]; tauto.
    + assert (MakeRg.inner node c (g, g) t = Ok (g, g)) as ->.
      { unfold MakeRg.inner, ty_at. cbn [snd]. rewrite Ect.
        cbn [subscript mbind result_bind]. by rewrite decide_False. }
      cbn [mbind result_bind].
      destruct (IH g) as (g' & Hrun & Hwf' & Hext' & Hi' & Hm'); try done.
      { intros t' Ht'. apply HL. by right. }
      exists g'. split; [done | ]. split; [done | ]. split; [done | ]. split.
      { rewrite length_cons. lia. }
      intros s t' Hmono. destruct (Hm' _ _ Hmono) as [Hmono0 Hn']. split; [done | ].
      intros [-> [-> | ?]%elem_of_cons]; [ | tauto].
      destruct Hmono0 as [_ Heq]. congruence.
Qed.

(** The outer loop over a list [V] of vertices of the diagram. *)
Lemma outer_loop (V : list Z) :
  ∀ g, wf g → (∀ s, s ∈ V → s ∈ vertices g) →
    ∃ g', for_each V MakeRg.outer (g, g) = Ok (g', g') ∧
      wf g' ∧ ext g g' ∧
      vindex g' - vindex g ≤ foldr (λ s n, Z.of_nat (length (nbrs g s)) + n) 0 V ∧
      (∀ s t, mono g' s t → mono g s t ∧ s ∉ V).
Proof.
  induction V as [|node V IH]; intros g Hwf HV.
  - exists g. simpl. split; [done | ]. split; [done | ].
    split; [apply ext_refl | ]. split; [lia | ].
    intros s t Hmono. split; [done | ]. intros []%elem_of_nil.
  - assert (Hvn : node ∈ vertices g) by (apply HV; left).
    destruct (wf_ty _ _ Hwf Hvn) as (c & Ec & Hlt).
    cbn [for_each].
    assert (MakeRg.outer (g, g) node
            = for_each (nbrs g node) (MakeRg.inner node c) (g, g)) as ->.
    { unfold MakeRg.outer, ty_at, neighbors. cbn [snd].
      by rewrite Ec, (vertices_nbrs _ _ Hvn). }
    destruct (inner_loop node c (nbrs g node) g) as (g1 & -> & Hwf1 & Hext1 & Hi1 & Hm1);
      try done.
    { by apply wf_facts in Hwf as (_ & _ & ? & _). }
    cbn [mbind result_bind].
    destruct (IH g1) as (g' & Hrun & Hwf' & Hext' & Hi' & Hm'); try done.
    { intros s Hs. eapply ext_vertices; [done | ]. apply HV. by right. }
    exists g'. split; [done | ]. split; [done | ].
    split; [by eapply ext_trans | ]. split.
    + cbn [foldr].
      assert (foldr (λ s n, Z.of_nat (length (nbrs g1 s)) + n) 0 V
              = foldr (λ s n, Z.of_nat (length (nbrs g s)) + n) 0 V) as Heq.
      { destruct Hext1 as (_ & _ & Hlen & _).
        assert (HV' : ∀ s, s ∈ V → s ∈ vertices g) by (intros; apply HV; by right).
        clear -Hlen HV'. induction V as [|a V IHV]; [done | ].
        cbn [foldr]. rewrite Hlen by (apply HV'; left).
        rewrite IHV; [done | ]. intros. apply HV'. by right. }
      lia.
    + intros s t Hmono. destruct (Hm' _ _ Hmono) as [Hmono1 Hn'].
      destruct (Hm1 _ _ Hmono1) as [Hmono0 Hn0]. split; [done | ].
      intros [-> | ?]%elem_of_cons; [ | done].
      apply Hn0. split; [done | ]. apply Hmono0.
Qed.

(** [make_rg] on a well-formed diagram: it returns, the result is well
    formed, extends the input, has no two adjacent vertices of one type, and
    has at most [degree_sum g] more vertices than the input. *)
Lemma make_rg_spec g :
  wf g →
  ∃ g', make_rg g = Ok g' ∧ wf g' ∧ ext g g' ∧
    vindex g' - vindex g ≤ degree_sum g ∧
    (∀ s t, ¬ mono g' s t).
Proof.
  intros Hwf. unfold make_rg, clone.
  destruct (outer_loop (vertices g) g Hwf) as (g' & -> & Hwf' & Hext & Hi & Hm);
    [done | ].
  exists g'. cbn [mbind result_bind fst]. split; [done | ]. split; [done | ].
  split; [done | ]. split; [done | ].
  intros s t Hmono. destruct (Hm _ _ Hmono) as [[Hst _] Hs].
  apply Hs. by apply nbrs_vertices in Hst.
Qed.

Lemma edges_nbrs g u v : wf g → (u, v) ∈ edges g ↔ v ∈ nbrs g u ∧ u < v.
Proof.
  intros (Hnd & _)%wf_facts. unfold edges.
  rewrite list_elem_of_In, in_flat_map. setoid_rewrite <- list_elem_of_In.
  split.
  - intros ([s a] & Hsa & Hin). simpl in Hin.
    apply list_elem_of_fmap in Hin as (v1 & [= -> ->] & [Hlt Hv1]%list_elem_of_filter).
    split; [ | done]. unfold nbrs. by rewrite (dict_elem_get _ _ _ Hnd Hsa).
  - intros [Hv Hlt]. pose proof (nbrs_vertices _ _ _ Hv) as Hu.
    apply vertices_nbrs in Hu. exists (u, nbrs g u). split.
    + by apply dict_get_elem.
    + simpl. apply list_elem_of_fmap. exists v. split; [done | ].
      by apply list_elem_of_filter.
Qed.

Lemma alternating_no_mono g : wf g → alternating g → ∀ s t, ¬ mono g s t.
Proof.
  intros Hwf Halt s t [Hst Hty]. unfold alternating in Halt.
  rewrite Forall_forall in Halt.
  pose proof Hwf as (_ & _ & _ & Hsym)%wf_facts.
  destruct (Hsym _ _ Hst) as [Hne Hts].
  destruct (decide (s < t)).
  - apply (Halt (s, t)); [ | done]. by apply edges_nbrs.
  - apply (Halt (t, s)); [ | done]. apply edges_nbrs; [done | ]. split; [done | lia].
Qed.

Lemma no_mono_alternating g : wf g → (∀ s t, ¬ mono g s t) → alternating g.
Proof.
  intros Hwf Hm. apply Forall_forall. intros [u v] [Huv _]%edges_nbrs; [ | done].
  simpl. intros Hty. by apply (Hm u v).
Qed.

Lemma inner_noop node c g (L : list Z) :
  (∀ t, t ∈ L → ∃ ct, ty g !! t = Some ct ∧ ct ≠ c) →
  for_each L (MakeRg.inner node c) (g, g) = Ok (g, g).
Proof.
  induction L as [|t L IH]; intros HL; [done | ].
  destruct (HL t) as (ct & Ect & Hne); [left | ].
  cbn [for_each].
  assert (MakeRg.inner node c (g, g) t = Ok (g, g)) as ->.
  { unfold MakeRg.inner, ty_at. cbn [snd]. rewrite Ect.
    cbn [subscript mbind result_bind]. by rewrite decide_False. }
  cbn [mbind result_bind]. apply IH. intros t' Ht'. apply HL. by right.
Qed.

Lemma outer_noop g (V : list Z) :
  wf g → (∀ s t, ¬ mono g s t) → (∀ s, s ∈ V → s ∈ vertices g) →
  for_each V MakeRg.outer (g, g) = Ok (g, g).
Proof.
  intros Hwf Hm. induction V as [|node V IH]; intros HV; [done | ].
  assert (Hvn : node ∈ vertices g) by (apply HV; left).
  destruct (wf_ty _ _ Hwf Hvn) as (c & Ec & _).
  cbn [for_each].
  assert (MakeRg.outer (g, g) node = Ok (g, g)) as ->.
  { unfold MakeRg.outer, ty_at, neighbors. cbn [snd].
    rewrite Ec, (vertices_nbrs _ _ Hvn). cbn [subscript mbind result_bind].
    apply inner_noop. intros t Ht.
    destruct (wf_ty g t Hwf) as (ct & Ect & _); [by eapply wf_nbr_vertex | ].
    exists ct. split; [done | ]. intros ->.
    apply (Hm node t). split; [done | congruence]. }
  cbn [mbind result_bind]. apply IH. intros s Hs. apply HV. by right.
Qed.

(** ** RG normalisation: the claims *)

(** C1: after [make_rg] returns, no edge of the resulting diagram joins two
    non-boundary vertices of equal colour.  On every well-formed diagram
    [make_rg] returns, and its result is in RG form. *)
Theorem make_rg_rg_form g :
  wf g → ∃ g', make_rg g = Ok g' ∧ rg_form g'.
Proof.
  intros Hwf. destruct (make_rg_spec g Hwf) as (g' & Hrun & Hwf' & _ & _ & Hm).
  exists g'. split; [done | ]. apply Forall_forall.
  intros [u v] [Huv _]%edges_nbrs; [ | done]. simpl.
  intros cu cv Hu Hv _ _ ->. apply (Hm u v). split; [done | congruence].
Qed.

Lemma make_rg_rg_form_witness :
  wf zzz ∧ ∃ g', make_rg zzz = Ok g' ∧ rg_form g'.
Proof.
  assert (Hwf : wf zzz) by (apply (bool_decide_unpack _); vm_compute; exact I).
  split; [exact Hwf | apply (make_rg_rg_form zzz Hwf)].
Defined.

(** C9, as stated, fails: the bare wire between two boundary vertices has
    no edge between non-boundary vertices at all, yet [make_rg] puts a new
    green spider on it. *)
Lemma make_rg_noop_counterexample :
  wf wire ∧ rg_form wire ∧
  ∃ g', make_rg wire = Ok g' ∧ vertices g' = [0; 1; 2] ∧ edges g' = [(0, 2); (1, 2)]
        ∧ vertices wire = [0; 1] ∧ edges wire = [(0, 1)].
Proof.
  split; [apply (bool_decide_unpack _); vm_compute; exact I | ].
  split.
  - apply Forall_forall. intros e He cu cv Hu Hv Hcu Hcv.
    apply list_elem_of_singleton in He as ->. vm_compute in Hu. congruence.
  - eexists. split; [vm_compute; reflexivity | ]. done.
Qed.

(** C9, amended: on a diagram in which no edge joins two vertices of one
    type, the boundary type included, [make_rg] changes nothing. *)
Theorem make_rg_noop g :
  wf g → alternating g → make_rg g = Ok g.
Proof.
  intros Hwf Halt. unfold make_rg, clone.
  rewrite (outer_noop g (vertices g) Hwf); [done | | done].
  by apply alternating_no_mono.
Qed.

Lemma make_rg_noop_witness :
  wf minimal ∧ alternating minimal ∧ make_rg minimal = Ok minimal.
Proof.
  assert (Hwf : wf minimal) by (apply (bool_decide_unpack _); vm_compute; exact I).
  assert (Halt : alternating minimal).
  { apply (bool_decide_unpack _). vm_compute. exact I. }
  split; [exact Hwf | ]. split; [exact Halt | ].
  apply (make_rg_noop minimal Hwf Halt).
Defined.

(** C10: [make_rg] terminates without an iteration cap.  Both loops run
    over lists fixed when they start, so on every well-formed diagram the
    function returns; the result keeps the vertices of the input and adds
    [k] new ones, one per subdivision, with [k] at most the sum of the
    degrees of the input. *)
Theorem make_rg_terminates g :
  wf g →
  ∃ g' k, make_rg g = Ok g' ∧ 0 ≤ k ≤ degree_sum g ∧
          vertices g' = vertices g ++ seqZ (vindex g) k.
Proof.
  intros Hwf.
  destruct (make_rg_spec g Hwf) as (g' & Hrun & _ & ((k & Hk & Hv & Hi) & _) & Hb & _).
  exists g', k. split; [done | ]. split; [lia | done].
Qed.

Lemma make_rg_terminates_witness :
  wf zzz ∧
  ∃ g' k, make_rg zzz = Ok g' ∧ 0 ≤ k ≤ degree_sum zzz ∧
          vertices g' = vertices zzz ++ seqZ (vindex zzz) k.
Proof.
  assert (Hwf : wf zzz) by (apply (bool_decide_unpack _); vm_compute; exact I).
  split; [exact Hwf | apply (make_rg_terminates zzz Hwf)].
Defined.

(** ** Vertex ordering *)

Lemma filterM_ok {A : Type} (p : A → result bool) (P : A → Prop)
    `{∀ x, Decision (P x)} (l : list A) :
  (∀ x, x ∈ l → p x = Ok (bool_decide (P x))) →
  filterM p l = Ok (filter P l).
Proof.
  induction l as [|x l IH]; intros Hp; [done | ].
  cbn [filterM]. rewrite Hp by left. cbn [mbind result_bind].
  rewrite IH by (intros; apply Hp; by right). cbn [mbind result_bind].
  rewrite filter_cons. destruct (decide (P x)).
  - by rewrite bool_decide_eq_true_2.
  - by rewrite bool_decide_eq_false_2.
Qed.

Lemma index_lookup (l : list Z) x n :
  NoDup l → l !! n = Some x → index l x = Ok (Z.of_nat n).
Proof.
  revert n. induction l as [|y l IH]; intros n Hnd Hn; [done | ].
  apply NoDup_cons in Hnd as [Hy Hnd]. cbn [index].
  destruct n as [|n]; simpl in Hn.
  - injection Hn as ->. by rewrite decide_True.
  - rewrite decide_False.
    + rewrite (IH n) by done. cbn [mbind result_bind]. f_equal. lia.
    + intros ->. apply Hy. by eapply list_elem_of_lookup_2.
Qed.

Lemma index_map_loop (vs l : list Z) :
  NoDup vs →
  ∀ m : gmap Z Z,
    (∀ i v, m !! i = Some v → 0 ≤ i ∧ vs !! Z.to_nat i = Some v) →
    ∃ m' : gmap Z Z, for_each l (index_entry vs) m = Ok m' ∧
      (∀ i v, m' !! i = Some v → 0 ≤ i ∧ vs !! Z.to_nat i = Some v) ∧
      (∀ n v, vs !! n = Some v → v ∈ l ∨ m !! Z.of_nat n = Some v →
              m' !! Z.of_nat n = Some v).
Proof.
  intros Hnd. induction l as [|x l IH]; intros m Hm.
  - exists m. split; [done | ]. split; [done | ].
    intros n v _ [[]%elem_of_nil | ?]. done.
  - cbn [for_each].
    destruct (decide (x ∈ vs)) as [Hx | Hx].
    + pose proof Hx as [k Hk]%list_elem_of_lookup.
      assert (index_entry vs m x = Ok (<[Z.of_nat k := x]> m)) as ->.
      { unfold index_entry. rewrite decide_True by done.
        by rewrite (index_lookup _ _ _ Hnd Hk). }
      cbn [mbind result_bind].
      destruct (IH (<[Z.of_nat k := x]> m)) as (m' & Hrun & Hsound & Hcov).
      { intros i v. rewrite lookup_insert. case_decide; subst.
        - intros [= <-]. rewrite Nat2Z.id. split; [lia | done].
        - apply Hm. }
      exists m'. split; [done | ]. split; [done | ].
      intros n v Hn [Hv | Hv].
      * apply elem_of_cons in Hv as [-> | Hv]; [ | apply Hcov; auto].
        apply Hcov; [done | ]. right.
        assert (n = k) as -> by (eapply NoDup_lookup; eauto).
        apply lookup_insert_eq.
      * apply Hcov; [done | ]. right. rewrite lookup_insert. case_decide; [ | done].
        assert (n = k) as -> by lia. congruence.
    + assert (index_entry vs m x = Ok m) as ->.
      { unfold index_entry. by rewrite decide_False. }
      cbn [mbind result_bind].
      destruct (IH m Hm) as (m' & Hrun & Hsound & Hcov).
      exists m'. split; [done | ]. split; [done | ].
      intros n v Hn [Hv | Hv]; [ | apply Hcov; auto].
      apply elem_of_cons in Hv as [-> | Hv]; [ | apply Hcov; auto].
      exfalso. apply Hx. by eapply list_elem_of_lookup_2.
Qed.

(** What [ordered_nodes] returns on a well-formed diagram. *)
Lemma ordered_nodes_ok g :
  wf g →
  let free := filter (λ v, (v ∉ inputs g) ∧ (v ∉ outputs g)) (vertices g) in
  let typed := filter (λ v, ty g !! v ≠ Some 0 ∧ v ∉ free) (vertices g) in
  ∃ im : gmap Z Z, ordered_nodes g = Ok (free ++ typed, im) ∧
    NoDup (free ++ typed) ∧
    (∀ i v, im !! i = Some v ↔ 0 ≤ i ∧ (free ++ typed) !! Z.to_nat i = Some v).
Proof.
  intros Hwf free typed.
  pose proof Hwf as (Hnd & _)%wf_facts.
  assert (Hvs : NoDup (free ++ typed)).
  { apply NoDup_app. split; [by apply NoDup_filter | ].
    split; [ | by apply NoDup_filter].
    intros x Hx [[_ Hn] _]%list_elem_of_filter. done. }
  unfold ordered_nodes. fold free.
  rewrite (filterM_ok _ (λ v, ty g !! v ≠ Some 0 ∧ v ∉ free)).
  2:{ intros v Hv. destruct (wf_ty _ _ Hwf Hv) as (c & Ec & _).
      unfold ty_at. rewrite Ec. cbn [subscript mbind result_bind]. f_equal.
      apply bool_decide_ext. split; intros [? ?]; (split; [congruence | done]). }
  fold typed. cbn [mbind result_bind].
  destruct (index_map_loop (free ++ typed) (vertices g) Hvs ∅) as (im & Hrun & Hsound & Hcov).
  { intros i v. by rewrite lookup_empty. }
  exists im. rewrite Hrun. cbn [mbind result_bind].
  split; [done | ]. split; [done | ].
  intros i v. split; [apply Hsound | ].
  intros [Hi Hv]. rewrite <- (Z2Nat.id i) by done. apply (Hcov _ _ Hv). left.
  apply list_elem_of_lookup_2 in Hv.
  apply elem_of_app in Hv as [[_ ?]%list_elem_of_filter | [_ ?]%list_elem_of_filter]; done.
Qed.

(** C5, as stated, fails: in the minimal diagram the two boundary vertices
    are the input and the output, and the ordered sequence holds the
    spider only. *)
Lemma ordered_nodes_counterexample :
  wf minimal ∧ vertices minimal = [0; 1; 2] ∧
  ∃ im, ordered_nodes minimal = Ok ([2], im) ∧ 0 ∉ [2].
Proof.
  split; [apply (bool_decide_unpack _); vm_compute; exact I | ].
  split; [done | ]. eexists. split; [vm_compute; reflexivity | ].
  by intros ?%list_elem_of_singleton.
Qed.

(** C5, amended: the ordered sequence lists exactly once every vertex
    except those of boundary type that are named in [inputs] or [outputs],
    which it omits; the index map sends exactly the positions of the
    sequence to the vertices found there. *)
Theorem ordered_nodes_spec g :
  wf g →
  ∃ vs (im : gmap Z Z), ordered_nodes g = Ok (vs, im) ∧
    NoDup vs ∧
    (∀ v, v ∈ vs ↔
          v ∈ vertices g ∧ ¬ (ty g !! v = Some 0 ∧ (v ∈ inputs g ∨ v ∈ outputs g))) ∧
    (∀ i v, im !! i = Some v ↔ 0 ≤ i ∧ vs !! Z.to_nat i = Some v).
Proof.
  intros Hwf. destruct (ordered_nodes_ok g Hwf) as (im & Hrun & Hnd & Him).
  eexists _, im. split; [exact Hrun | ]. split; [done | ]. split; [ | done].
  intros v. rewrite elem_of_app, !list_elem_of_filter.
  destruct (decide (v ∈ inputs g)); destruct (decide (v ∈ outputs g));
    destruct (decide (ty g !! v = Some 0)); tauto.
Qed.

Lemma ordered_nodes_spec_witness :
  wf minimal ∧
  ∃ vs (im : gmap Z Z), ordered_nodes minimal = Ok (vs, im) ∧
    NoDup vs ∧
    (∀ v, v ∈ vs ↔
          v ∈ vertices minimal ∧
          ¬ (ty minimal !! v = Some 0 ∧ (v ∈ inputs minimal ∨ v ∈ outputs minimal))) ∧
    (∀ i v, im !! i = Some v ↔ 0 ≤ i ∧ vs !! Z.to_nat i = Some v).
Proof.
  assert (Hwf : wf minimal) by (apply (bool_decide_unpack _); vm_compute; exact I).
  split; [exact Hwf | apply (ordered_nodes_spec minimal Hwf)].
Defined.

(** ** Arrays and the parity matrix *)

Lemma bind_Ok {A B : Type} (m : result A) (f : A → result B) (b : B) :
  m ≫= f = Ok b → ∃ a, m = Ok a ∧ f a = Ok b.
Proof. destruct m; simpl; [eauto | done]. Qed.

Lemma np_eye_Ok n a : np_eye n = Ok a → 0 ≤ n ∧ shaped a n n.
Proof.
  unfold np_eye. case_decide; [done | ]. intros [= <-].
  split; [lia | ]. unfold shaped, nrows. cbn [ncols rows].
  rewrite length_fmap, length_seqZ. split; [done | ]. split; [lia | ].
  apply Forall_fmap, Forall_forall. intros i _. simpl.
  rewrite length_fmap, length_seqZ. lia.
Qed.

Lemma np_zeros_Ok r c a : np_zeros r c = Ok a → 0 ≤ r ∧ 0 ≤ c ∧ shaped a r c.
Proof.
  unfold np_zeros. case_decide; [done | ]. intros [= <-].
  split; [lia | ]. split; [lia | ]. unfold shaped, nrows. cbn [ncols rows].
  rewrite length_replicate. split; [done | ]. split; [lia | ].
  apply Forall_replicate. rewrite length_replicate. lia.
Qed.

Lemma np_vstack_Ok a b m r1 r2 c1 c2 :
  shaped a r1 c1 → shaped b r2 c2 → np_vstack a b = Ok m →
  c1 = c2 ∧ shaped m (r1 + r2) c1.
Proof.
  intros (Ha & Hra & Hfa) (Hb & Hrb & Hfb). unfold np_vstack.
  case_decide; [ | done]. intros [= <-].
  split; [congruence | ]. unfold shaped, nrows in *. cbn [ncols rows].
  rewrite length_app. split; [done | ]. split; [lia | ].
  apply Forall_app. split; [done | ].
  eapply Forall_impl; [exact Hfb | ]. simpl. intros. congruence.
Qed.

Lemma hstack2_Ok a b m r1 r2 c1 c2 :
  shaped a r1 c1 → shaped b r2 c2 → hstack2 a b = Ok m →
  r1 = r2 ∧ shaped m r1 (c1 + c2).
Proof.
  intros (Ha & Hra & Hfa) (Hb & Hrb & Hfb). unfold hstack2.
  case_decide as Hr; [ | done]. intros [= <-].
  split; [congruence | ]. unfold shaped, nrows in *. cbn [ncols rows].
  split; [congruence | ].
  assert (Hlen : length (rows a) = length (rows b)) by lia.
  clear Hr Hrb Ha Hb. revert Hra Hfa Hfb Hlen. generalize (rows a) (rows b). clear.
  intros la. revert r1. induction la as [|x la IH]; intros r1 lb Hra Hfa Hfb Hlen.
  - destruct lb; [ | done]. simpl. split; [done | constructor].
  - destruct lb as [|y lb]; [done | ]. simpl in *.
    apply Forall_cons in Hfa as [Hx Hfa]. apply Forall_cons in Hfb as [Hy Hfb].
    destruct (IH (Z.of_nat (length la)) lb) as [Hl Hf]; try done; [lia | ].
    split; [lia | ]. constructor; [ | done]. rewrite length_app. lia.
Qed.

Lemma to_numpy_array_Ok G l N :
  to_numpy_array G l = Ok N →
  NoDup l ∧ Forall (λ v, v ∈ nx_nodes G) l ∧
  shaped N (Z.of_nat (length l)) (Z.of_nat (length l)).
Proof.
  unfold to_numpy_array. case_decide; [ | done]. case_decide; [ | done].
  intros [= <-]. split; [done | ]. split; [done | ].
  unfold shaped, nrows. cbn [ncols rows]. rewrite length_fmap.
  split; [done | ]. split; [done | ].
  apply Forall_fmap, Forall_forall. intros u _. simpl. by rewrite length_fmap.
Qed.

(** The shape of the augmented matrix, whenever it is built: with [n] the
    length of the ordering and [b] the number of inputs and outputs, it has
    [b + n] columns and [n + 2 b] rows; and it is built only when the
    ordering is not empty and at least as long as [b]. *)
Lemma parity_matrix_Ok g vs M :
  parity_matrix g vs = Ok M →
  let n := Z.of_nat (length vs) in
  let b := Z.of_nat (length (inputs g)) + Z.of_nat (length (outputs g)) in
  shaped M (n + 2 * b) (b + n) ∧ b ≤ n ∧ 1 ≤ n.
Proof.
  intros Hrun n b. unfold parity_matrix in Hrun. fold b in Hrun.
  apply bind_Ok in Hrun as (N & HN & Hrun).
  apply to_numpy_array_Ok in HN as (_ & _ & HN). fold n in HN.
  apply bind_Ok in Hrun as (I_n & HI & Hrun).
  apply np_eye_Ok in HI as [Hb HI].
  apply bind_Ok in Hrun as (zb & Hzb & Hrun).
  pose proof HN as (HNc & _). rewrite HNc in Hzb.
  apply np_zeros_Ok in Hzb as (Hnb & _ & Hzb).
  apply bind_Ok in Hrun as (mdl & Hmdl & Hrun).
  apply (np_vstack_Ok _ _ _ _ _ _ _ HI Hzb) in Hmdl as [_ Hmdl].
  apply bind_Ok in Hrun as (md & Hmd & Hrun).
  cbn [np_hstack for_each mbind result_bind] in Hmd.
  apply bind_Ok in Hmd as (md' & Hmd & [= ->]).
  apply (hstack2_Ok _ _ _ _ _ _ _ Hmdl HN) in Hmd as [Hbn Hmd].
  apply bind_Ok in Hrun as (e2 & He2 & Hrun).
  apply np_eye_Ok in He2 as [_ He2].
  apply bind_Ok in Hrun as (row0 & Hrow0 & Hrun).
  pose proof Hmd as (Hmdc & Hmdr & Hmdf).
  destruct (rows md) as [|r0 rest] eqn:Hrows; [done | ].
  injection Hrow0 as ->.
  apply Forall_cons in Hmdf as [Hr0 _].
  apply bind_Ok in Hrun as (z2 & Hz2 & Hrun).
  rewrite Hr0 in Hz2. apply np_zeros_Ok in Hz2 as (_ & _ & Hz2).
  apply bind_Ok in Hrun as (no & Hno & Hrun).
  cbn [np_hstack for_each mbind result_bind] in Hno.
  apply bind_Ok in Hno as (no' & Hno & [= ->]).
  apply (hstack2_Ok _ _ _ _ _ _ _ He2 Hz2) in Hno as [_ Hno].
  apply (np_vstack_Ok _ _ _ _ _ _ _ Hmd Hno) in Hrun as [_ Hrun].
  assert (1 ≤ n).
  { unfold nrows in Hmdr. rewrite Hrows in Hmdr. simpl in Hmdr. lia. }
  split; [ | lia].
  replace (n + 2 * b) with (b + (n - b) + 2 * b) by lia. done.
Qed.

Lemma nx_add_node_elem l v x : x ∈ nx_add_node l v ↔ x ∈ l ∨ x = v.
Proof.
  unfold nx_add_node. case_decide.
  - split; [auto | ]. intros [? | ->]; done.
  - rewrite elem_of_app, list_elem_of_singleton. done.
Qed.

Lemma nx_nodes_spec es v :
  v ∈ nx_nodes (nx_Graph es) ↔ ∃ e, e ∈ es ∧ (v = e.1 ∨ v = e.2).
Proof.
  unfold nx_Graph. cbn [nx_nodes].
  assert (∀ acc, v ∈ foldl (λ l e, nx_add_node (nx_add_node l e.1) e.2) acc es
                 ↔ v ∈ acc ∨ ∃ e, e ∈ es ∧ (v = e.1 ∨ v = e.2)) as H.
  { induction es as [|e es IH]; intros acc; simpl.
    - split; [auto | ]. intros [? | (e & []%elem_of_nil & _)]. done.
    - rewrite IH, !nx_add_node_elem. split.
      + intros [[[? | ?] | ?] | (e' & ? & ?)]; [by left | | | ].
        * right. exists e. split; [left | auto].
        * right. exists e. split; [left | auto].
        * right. exists e'. split; [by right | done].
      + intros [? | (e' & [-> | ?]%elem_of_cons & Hv)]; [auto | | ].
        * left. destruct Hv; auto.
        * right. eauto. }
  rewrite H. split; [ | auto]. intros [[]%elem_of_nil | ?]. done.
Qed.

Lemma has_edge_node g v :
  wf g → nbrs g v ≠ [] → v ∈ nx_nodes (nx_Graph (edges g)).
Proof.
  intros Hwf Hv. destruct (nbrs g v) as [|t a] eqn:E; [done | ].
  assert (Ht : t ∈ nbrs g v) by (rewrite E; left).
  pose proof Hwf as (_ & _ & _ & Hsym)%wf_facts.
  destruct (Hsym _ _ Ht) as [Hne Hvt].
  apply nx_nodes_spec. destruct (decide (v < t)).
  - exists (v, t). split; [by apply edges_nbrs | by left].
  - exists (t, v). split; [ | by right].
    apply edges_nbrs; [done | ]. split; [done | lia].
Qed.

(** The augmented matrix is built for every ordering without repetition
    whose vertices all have an edge, provided the ordering is not empty and
    at least as long as the number of inputs and outputs. *)
Lemma parity_matrix_total g vs :
  wf g → NoDup vs → Forall (λ v, nbrs g v ≠ []) vs →
  1 ≤ Z.of_nat (length vs) →
  Z.of_nat (length (inputs g)) + Z.of_nat (length (outputs g)) ≤ Z.of_nat (length vs) →
  ∃ M, parity_matrix g vs = Ok M.
Proof.
  intros Hwf Hnd Hadj Hn Hb. unfold parity_matrix.
  set (b := Z.of_nat (length (inputs g)) + Z.of_nat (length (outputs g))) in *.
  set (n := Z.of_nat (length vs)) in *.
  destruct (to_numpy_array (nx_Graph (edges g)) vs) as [N | ] eqn:HN.
  2:{ unfold to_numpy_array in HN. rewrite decide_True in HN.
      - by rewrite decide_True in HN.
      - eapply Forall_impl; [exact Hadj | ]. intros v. by apply has_edge_node. }
  pose proof HN as (_ & _ & HNs)%to_numpy_array_Ok. fold n in HNs.
  cbn [mbind result_bind].
  destruct (np_eye b) as [I_n | ] eqn:HI.
  2:{ unfold np_eye in HI. rewrite decide_False in HI by lia. done. }
  pose proof HI as [_ HIs]%np_eye_Ok. cbn [mbind result_bind].
  pose proof HNs as (HNc & _). rewrite HNc.
  destruct (np_zeros (n - b) b) as [zb | ] eqn:Hzb.
  2:{ unfold np_zeros in Hzb. rewrite decide_False in Hzb by lia. done. }
  pose proof Hzb as (_ & _ & Hzbs)%np_zeros_Ok. cbn [mbind result_bind].
  destruct (np_vstack I_n zb) as [mdl | ] eqn:Hmdl.
  2:{ unfold np_vstack in Hmdl. destruct HIs as (HIc & _). destruct Hzbs as (Hzc & _).
      rewrite decide_True in Hmdl by congruence. done. }
  pose proof (np_vstack_Ok _ _ _ _ _ _ _ HIs Hzbs Hmdl) as [_ Hmdls].
  cbn [mbind result_bind np_hstack for_each].
  destruct (hstack2 mdl N) as [md | ] eqn:Hmd.
  2:{ unfold hstack2 in Hmd. destruct Hmdls as (_ & Hr1 & _). destruct HNs as (_ & Hr2 & _).
      rewrite decide_True in Hmd by lia. done. }
  pose proof (hstack2_Ok _ _ _ _ _ _ _ Hmdls HNs Hmd) as [_ Hmds].
  cbn [mbind result_bind].
  destruct (np_eye (2 * b)) as [e2 | ] eqn:He2.
  2:{ unfold np_eye in He2. rewrite decide_False in He2 by lia. done. }
  pose proof He2 as [_ He2s]%np_eye_Ok. cbn [mbind result_bind].
  pose proof Hmds as (Hmdc & Hmdr & Hmdf).
  destruct (rows md) as [|r0 rest] eqn:Hrows.
  { unfold nrows in Hmdr. rewrite Hrows in Hmdr. simpl in Hmdr. lia. }
  apply Forall_cons in Hmdf as [Hr0 _]. cbn [mbind result_bind]. rewrite Hr0.
  destruct (np_zeros (2 * b) (b + n - 2 * b)) as [z2 | ] eqn:Hz2.
  2:{ unfold np_zeros in Hz2. rewrite decide_False in Hz2 by lia. done. }
  pose proof Hz2 as (_ & _ & Hz2s)%np_zeros_Ok. cbn [mbind result_bind].
  destruct (hstack2 e2 z2) as [no | ] eqn:Hno.
  2:{ unfold hstack2 in Hno. destruct He2s as (_ & Hr1 & _). destruct Hz2s as (_ & Hr2 & _).
      rewrite decide_True in Hno by congruence. done. }
  pose proof (hstack2_Ok _ _ _ _ _ _ _ He2s Hz2s Hno) as [_ Hnos].
  cbn [mbind result_bind].
  unfold np_vstack. destruct Hnos as (Hnoc & _).
  rewrite decide_True by lia. eauto.
Qed.

(** ** The parity matrix: the claims *)

(** C4, as stated, fails: [in_zx] has three vertices and one input, so the
    claim promises four columns and five rows; the ordering leaves the
    boundary input out and the matrix has three columns and four rows. *)
Lemma parity_matrix_shape_counterexample :
  wf in_zx ∧ length (vertices in_zx) = 3%nat ∧
  length (inputs in_zx) = 1%nat ∧ length (outputs in_zx) = 0%nat ∧
  ∃ vs im M, ordered_nodes in_zx = Ok (vs, im) ∧ parity_matrix in_zx vs = Ok M ∧
             ncols M = 3 ∧ nrows M = 4.
Proof.
  split; [apply (bool_decide_unpack _); vm_compute; exact I | ].
  split; [done | ]. split; [done | ]. split; [done | ].
  eexists _, _, _. split; [vm_compute; reflexivity | ].
  split; [vm_compute; reflexivity | ]. done.
Qed.

(** C4, amended: with [n] the length of the ordered sequence, not the
    number of vertices of the diagram, and [b] the number of inputs and
    outputs, the augmented matrix has [b + n] columns and [n + 2 b] rows
    whenever it is built. *)
Theorem parity_matrix_shape g vs (im : gmap Z Z) M :
  ordered_nodes g = Ok (vs, im) → parity_matrix g vs = Ok M →
  let n := Z.of_nat (length vs) in
  let b := Z.of_nat (length (inputs g)) + Z.of_nat (length (outputs g)) in
  ncols M = b + n ∧ nrows M = n + 2 * b.
Proof.
  intros _ HM n b. destruct (parity_matrix_Ok g vs M HM) as ((Hc & Hr & _) & _).
  done.
Qed.

Lemma parity_matrix_shape_witness :
  let M := mkArray 3 [[1; 0; 1]; [0; 1; 0]; [1; 0; 0]; [0; 1; 0]] in
  ncols M = 1 + 2 ∧ nrows M = 2 + 2 * 1.
Proof.
  intros M.
  apply (parity_matrix_shape in_zx [1; 2] (list_to_map [(0, 1); (1, 2)]) M).
  - vm_compute. reflexivity.
  - vm_compute. reflexivity.
Defined.

(** C7, as stated, fails: [zxz] has neither inputs nor outputs and the
    matrix is built all the same. *)
Lemma parity_matrix_no_boundary_counterexample :
  inputs zxz = [] ∧ outputs zxz = [] ∧
  ∃ vs im M, ordered_nodes zxz = Ok (vs, im) ∧ parity_matrix zxz vs = Ok M ∧
             M = mkArray 3 [[0; 1; 0]; [1; 0; 1]; [0; 1; 0]].
Proof.
  split; [done | ]. split; [done | ].
  eexists _, _, _. split; [vm_compute; reflexivity | ].
  split; [vm_compute; reflexivity | ]. done.
Qed.

(** C7, amended: a diagram without inputs and outputs is not rejected.
    The boundary blocks are empty, and for a non-empty ordering the
    augmented matrix is the adjacency array itself. *)
Theorem parity_matrix_no_boundary g vs N :
  inputs g = [] → outputs g = [] → vs ≠ [] →
  to_numpy_array (nx_Graph (edges g)) vs = Ok N →
  parity_matrix g vs = Ok N.
Proof.
  intros Hin Hout Hvs HN. unfold parity_matrix. rewrite Hin, Hout, HN.
  pose proof HN as (_ & _ & Hc & Hr & Hf)%to_numpy_array_Ok.
  change (Z.of_nat (length []) + Z.of_nat (length [])) with 0.
  change (2 * 0) with 0.
  destruct N as [c rs]. cbn [ncols rows] in *. unfold nrows in Hr. cbn [rows] in Hr.
  assert (Hlen : length rs = length vs) by lia.
  destruct rs as [|r0 rs'] eqn:Ers; [destruct vs; [done | simpl in Hlen; lia] | ].
  rewrite <- Ers in *.
  assert (E1 : np_eye 0 = Ok (mkArray 0 [])) by reflexivity.
  assert (E2 : np_zeros (c - 0) 0 = Ok (mkArray 0 (replicate (length rs) []))).
  { unfold np_zeros. rewrite decide_False by lia.
    replace (Z.to_nat (c - 0)) with (length rs) by lia. done. }
  assert (E3 : hstack2 (mkArray 0 (replicate (length rs) [])) (mkArray c rs)
               = Ok (mkArray c rs)).
  { unfold hstack2, nrows. cbn [ncols rows].
    rewrite length_replicate, decide_True by done. cbn [Z.add]. do 2 f_equal.
    clear. induction rs as [|r rs IH]; [done | ]. simpl. by rewrite IH. }
  assert (E4 : np_zeros 0 (Z.of_nat (length r0) - 0) = Ok (mkArray c [])).
  { unfold np_zeros. rewrite decide_False by lia.
    rewrite Ers in Hf. apply Forall_cons in Hf as [Hr0 _]. do 2 f_equal. lia. }
  assert (E5 : np_vstack (mkArray c rs) (mkArray c []) = Ok (mkArray c rs)).
  { unfold np_vstack. cbn [ncols rows]. rewrite decide_True by done.
    by rewrite app_nil_r. }
  assert (E6 : np_vstack (mkArray 0 []) (mkArray 0 (replicate (length rs) []))
               = Ok (mkArray 0 (replicate (length rs) []))) by reflexivity.
  assert (E7 : hstack2 (mkArray 0 []) (mkArray c []) = Ok (mkArray c []))
    by reflexivity.
  cbn [mbind result_bind]. rewrite E1. cbn [mbind result_bind ncols]. rewrite E2.
  cbn [mbind result_bind]. rewrite E6.
  cbn [mbind result_bind np_hstack for_each]. rewrite E3.
  cbn [mbind result_bind rows]. rewrite Ers at 1. cbn [mbind result_bind].
  rewrite E4. cbn [mbind result_bind]. rewrite E7. cbn [mbind result_bind].
  exact E5.
Qed.

Lemma parity_matrix_no_boundary_witness :
  parity_matrix zxz [0; 1; 2] = Ok (mkArray 3 [[0; 1; 0]; [1; 0; 1]; [0; 1; 0]]).
Proof.
  apply (parity_matrix_no_boundary zxz [0; 1; 2]).
  - reflexivity.
  - reflexivity.
  - discriminate.
  - vm_compute. reflexivity.
Defined.

(** ** The pipeline on small diagrams *)

(** On the minimal diagram the ordering holds the spider alone, one vertex
    against two boundary columns, and the zero block of the matrix would
    need a negative number of rows. *)
Lemma minimal_raises ns : get_detection_webs ns minimal = Raise ValueError.
Proof. vm_compute. reflexivity. Qed.

(** C3, as stated, fails: on the minimal diagram the pipeline produces no
    web at all, whatever the nullspace collaborator. *)
Lemma minimal_webs_counterexample :
  ¬ ∃ ns pws, get_detection_webs ns minimal = Ok pws.
Proof. intros (ns & pws & H). by rewrite minimal_raises in H. Qed.

(** C3, amended: normalisation leaves the minimal diagram as it is, with
    its one typed vertex; the ordering holds that vertex alone, and the
    construction of the matrix stops with a [ValueError], so that the
    pipeline returns no web. *)
Theorem minimal_pipeline :
  make_rg minimal = Ok minimal ∧
  filter (λ v, ty minimal !! v ≠ Some 0) (vertices minimal) = [2] ∧
  ordered_nodes minimal = Ok ([2], {[0 := 2]}) ∧
  parity_matrix minimal [2] = Raise ValueError ∧
  ∀ ns, get_detection_webs ns minimal = Raise ValueError.
Proof.
  split; [vm_compute; reflexivity | ].
  split; [vm_compute; reflexivity | ].
  split; [vm_compute; reflexivity | ].
  split; [vm_compute; reflexivity | ].
  intros ns. vm_compute. reflexivity.
Qed.

(** C6: an empty nullspace basis should give an empty list of webs.  The
    code stacks the basis vectors with [np.hstack] before it looks at them,
    and [np.hstack] of an empty sequence raises [ValueError]. *)
Theorem empty_basis_raises ns g g' vs (im : gmap Z Z) M :
  make_rg g = Ok g' → ordered_nodes g' = Ok (vs, im) →
  parity_matrix g' vs = Ok M → ns M = [] →
  get_detection_webs ns g = Raise ValueError.
Proof.
  intros Hrg Hord HM Hns. unfold get_detection_webs.
  rewrite Hrg. cbn [mbind result_bind]. rewrite Hord. cbn [mbind result_bind].
  rewrite HM. cbn [mbind result_bind]. by rewrite Hns.
Qed.

Lemma empty_basis_raises_witness :
  get_detection_webs F2.nullspace zx = Raise ValueError.
Proof.
  apply (empty_basis_raises F2.nullspace zx zx [0; 1] (list_to_map [(0, 0); (1, 1)])
           (mkArray 2 [[0; 1]; [1; 0]])).
  - vm_compute. reflexivity.
  - vm_compute. reflexivity.
  - vm_compute. reflexivity.
  - vm_compute. reflexivity.
Defined.

(** ** Pauli webs *)

Lemma mark_loop im i outs c u (l : list (Z * Z)) :
  im !! (i - outs) = Some u →
  ∀ st, ∃ st', for_each l (GetPw.mark im i outs c) st = Ok st' ∧
    (∀ e, e ∈ st'.1 ↔ e ∈ st.1 ∨ (c = 2 ∧ e ∈ l ∧ (u = e.1 ∨ u = e.2))) ∧
    (∀ e, e ∈ st'.2 ↔ e ∈ st.2 ∨ (c = 1 ∧ e ∈ l ∧ (u = e.1 ∨ u = e.2))).
Proof.
  intros Hu. induction l as [|x l IH]; intros st.
  - exists st. split; [done | ].
    split; intros e; (split; [auto | ]); intros [? | (_ & []%elem_of_nil & _)]; done.
  - cbn [for_each].
    assert (∃ st1, GetPw.mark im i outs c st x = Ok st1 ∧
              (∀ e, e ∈ st1.1 ↔ e ∈ st.1 ∨ (c = 2 ∧ e = x ∧ (u = e.1 ∨ u = e.2))) ∧
              (∀ e, e ∈ st1.2 ↔ e ∈ st.2 ∨ (c = 1 ∧ e = x ∧ (u = e.1 ∨ u = e.2))))
      as (st1 & -> & H1 & H2).
    { unfold GetPw.mark. rewrite Hu. cbn [subscript mbind result_bind].
      repeat case_decide; eexists; (split; [done | ]); cbn [fst snd];
        split; intros e; rewrite ?elem_of_union, ?elem_of_singleton;
        naive_solver lia. }
    cbn [mbind result_bind]. destruct (IH st1) as (st' & Hrun & H1' & H2').
    exists st'. split; [done | ].
    split; intros e; rewrite ?H1', ?H2', ?H1, ?H2, elem_of_cons; naive_solver.
Qed.

Lemma fire_loop im g outs (l : list Z) :
  ∀ st st', for_each l (GetPw.fire im g outs) st = Ok st' →
    (∀ e, e ∈ st'.1 ↔ e ∈ st.1 ∨ (e ∈ edges g ∧ fires im g outs l 2 e)) ∧
    (∀ e, e ∈ st'.2 ↔ e ∈ st.2 ∨ (e ∈ edges g ∧ fires im g outs l 1 e)).
Proof.
  induction l as [|i l IH]; intros st st' Hrun.
  - injection Hrun as <-.
    split; intros e; (split; [auto | ]);
      intros [? | (_ & ? & ? & []%elem_of_nil & _)]; done.
  - cbn [for_each] in Hrun. apply bind_Ok in Hrun as (st1 & Hfire & Hrun).
    unfold GetPw.fire in Hfire.
    apply bind_Ok in Hfire as (u & Hu & Hfire).
    apply bind_Ok in Hfire as (c & Hc & Hfire).
    destruct (im !! (i - outs)) as [u' | ] eqn:Eu; [ | done]. injection Hu as ->.
    unfold ty_at in Hc. destruct (ty g !! u) as [c' | ] eqn:Ec; [ | done].
    injection Hc as ->.
    destruct (mark_loop im i outs c u (edges g) Eu st) as (st1' & Hrun1 & H1 & H2).
    rewrite Hrun1 in Hfire. injection Hfire as ->.
    destruct (IH _ _ Hrun) as [H1' H2'].
    split; intros e; rewrite ?H1', ?H2', ?H1, ?H2; unfold fires;
      setoid_rewrite elem_of_cons; split.
    + intros [[? | (-> & ? & ?)] | (? & i' & u' & ? & ?)]; [by left | | ].
      * right. split; [done | ]. exists i, u. auto.
      * right. split; [done | ]. exists i', u'. auto.
    + intros [? | (? & i' & u' & [-> | ?] & Hi & Ht & ?)]; [by left; left | | ].
      * left. right. rewrite Eu in Hi. injection Hi as <-.
        rewrite Ec in Ht. injection Ht as ->. done.
      * right. split; [done | ]. exists i', u'. auto.
    + intros [[? | (-> & ? & ?)] | (? & i' & u' & ? & ?)]; [by left | | ].
      * right. split; [done | ]. exists i, u. auto.
      * right. split; [done | ]. exists i', u'. auto.
    + intros [? | (? & i' & u' & [-> | ?] & Hi & Ht & ?)]; [by left; left | | ].
      * left. right. rewrite Eu in Hi. injection Hi as <-.
        rewrite Ec in Ht. injection Ht as ->. done.
      * right. split; [done | ]. exists i', u'. auto.
Qed.

(** The two edge sets, whenever the first loop of [get_pw] returns. *)
Lemma edge_sets_spec im v g outs red green :
  GetPw.edge_sets im v g outs = Ok (red, green) →
  (∀ e, e ∈ red ↔ e ∈ edges g ∧ fires im g outs (nonzero v) 2 e) ∧
  (∀ e, e ∈ green ↔ e ∈ edges g ∧ fires im g outs (nonzero v) 1 e).
Proof.
  intros [H1 H2]%fire_loop. cbn [fst snd] in *.
  split; intros e; rewrite ?H1, ?H2, elem_of_empty; tauto.
Qed.

Lemma edges_lt g u v : (u, v) ∈ edges g → u < v.
Proof.
  unfold edges. rewrite list_elem_of_In, in_flat_map.
  intros ([s a] & _ & Hin). apply list_elem_of_In in Hin. simpl in Hin.
  apply list_elem_of_fmap in Hin as (v1 & [= -> ->] & [Hlt _]%list_elem_of_filter).
  done.
Qed.

Lemma add_half_edge_lookup pw e p k :
  es (add_half_edge pw e p) !! k =
  if decide (k = e) then relabel (es pw !! e) p else es pw !! k.
Proof.
  unfold add_half_edge, relabel. cbn [es].
  destruct (decide (k = e)) as [-> | Hne].
  - case_decide; [apply lookup_delete_eq | apply lookup_insert_eq].
  - case_decide; [by rewrite lookup_delete_ne | by rewrite lookup_insert_ne].
Qed.

Lemma pw_add_edge_lookup pw (e : Z * Z) p (k : Z * Z) :
  e.1 ≠ e.2 →
  es (pw_add_edge pw e p) !! k =
  if decide (k = e ∨ (k.2, k.1) = e) then relabel (es pw !! k) p else es pw !! k.
Proof.
  intros Hne. unfold pw_add_edge. rewrite !add_half_edge_lookup.
  destruct e as [a b], k as [x y]. cbn [fst snd] in *.
  repeat case_decide; try done; try naive_solver.
Qed.

Lemma add_edges_lookup p (l : list (Z * Z)) :
  NoDup l → (∀ e, e ∈ l → e.1 < e.2) →
  ∀ pw (k : Z * Z),
    es (foldl (λ pw e, pw_add_edge pw e p) pw l) !! k =
    if decide (k ∈ l ∨ (k.2, k.1) ∈ l) then relabel (es pw !! k) p else es pw !! k.
Proof.
  induction l as [|e l IH]; intros Hnd Hlt pw k.
  - cbn [foldl]. rewrite decide_False; [done | ].
    intros [[]%elem_of_nil | []%elem_of_nil].
  - apply NoDup_cons in Hnd as [He Hnd]. cbn [foldl].
    rewrite IH by (try done; intros; apply Hlt; by right).
    assert (He' : e.1 < e.2) by (apply Hlt; left).
    rewrite pw_add_edge_lookup by lia.
    destruct (decide (k ∈ l ∨ (k.2, k.1) ∈ l)) as [Hin | Hin].
    + rewrite decide_False.
      * rewrite decide_True; [done | ]. destruct Hin; [left | right]; by right.
      * intros [-> | <-]; destruct Hin as [Hk | Hk]; try done.
        -- assert ((e.2, e.1).1 < (e.2, e.1).2) by (apply Hlt; by right).
           simpl in *. lia.
        -- assert (k.1 < k.2) by (apply (Hlt k); by right). simpl in *. lia.
    + destruct (decide (k = e ∨ (k.2, k.1) = e)) as [Hk | Hk].
      * rewrite decide_True; [done | ]. destruct Hk as [-> | <-]; [left | right]; left.
      * rewrite decide_False; [done | ].
        intros [[-> | ?]%elem_of_cons | [<- | ?]%elem_of_cons]; tauto.
Qed.

(** The web of [get_pw] in terms of the two edge sets. *)
Lemma get_pw_lookup im v g pw :
  get_pw im v g = Ok pw →
  ∃ red green : gset (Z * Z),
    GetPw.edge_sets im v g
      (Z.of_nat (length (inputs g)) + Z.of_nat (length (outputs g))) = Ok (red, green) ∧
    ∀ k : Z * Z,
      es pw !! k =
      if decide (k ∈ green ∨ (k.2, k.1) ∈ green)
      then (if decide (k ∈ red ∨ (k.2, k.1) ∈ red) then Some PauliY else Some PauliX)
      else (if decide (k ∈ red ∨ (k.2, k.1) ∈ red) then Some PauliZ else None).
Proof.
  unfold get_pw. intros ([red green] & Hsets & Hpw)%bind_Ok.
  exists red, green. split; [done | ]. injection Hpw as <-. intros k.
  destruct (edge_sets_spec _ _ _ _ _ _ Hsets) as [Hred Hgreen].
  rewrite add_edges_lookup.
  2:{ apply NoDup_elements. }
  2:{ intros [a b] He. apply elem_of_elements in He. apply Hgreen in He as [He _].
      by apply edges_lt in He. }
  rewrite add_edges_lookup.
  2:{ apply NoDup_elements. }
  2:{ intros [a b] He. apply elem_of_elements in He. apply Hred in He as [He _].
      by apply edges_lt in He. }
  cbn [es]. rewrite lookup_empty.
  repeat case_decide; rewrite ?elem_of_elements in *; try reflexivity; tauto.
Qed.

(** ** Pauli webs: the claims *)

(** C2, as stated, fails: in the square of alternating spiders the vector
    that fires all four vertices lies in the nullspace of the parity
    matrix, every edge joins a firing green and a firing red spider, is put
    into both edge sets, and ends up with both labels, stored as [PauliY]. *)
Lemma get_pw_labels_counterexample :
  wf square ∧ alternating square ∧
  let all : gset (Z * Z) := list_to_set [(0, 1); (0, 3); (1, 2); (2, 3)] in
  ∃ vs im M pw,
    ordered_nodes square = Ok (vs, im) ∧ parity_matrix square vs = Ok M ∧
    F2.annihilates M [1; 1; 1; 1] ∧
    GetPw.edge_sets im [1; 1; 1; 1] square 0 = Ok (all, all) ∧
    (0, 1) ∈ all ∧
    get_pw im [1; 1; 1; 1] square = Ok pw ∧ es pw !! (0, 1) = Some PauliY.
Proof.
  split; [apply (bool_decide_unpack _); vm_compute; exact I | ].
  split; [apply (bool_decide_unpack _); vm_compute; exact I | ].
  intros all. eexists _, _, _, _.
  split; [vm_compute; reflexivity | ].
  split; [vm_compute; reflexivity | ].
  split; [apply (bool_decide_unpack _); vm_compute; exact I | ].
  split; [vm_compute; reflexivity | ].
  split; [apply (bool_decide_unpack _); vm_compute; exact I | ].
  split; [vm_compute; reflexivity | ].
  vm_compute. reflexivity.
Qed.

(** C2, amended: every labelled half-edge belongs to an edge of the
    diagram, and both half-edges of an edge carry the same label.  An edge
    is labelled [PauliX] when [v] fires a green endpoint and no red one,
    [PauliZ] when it fires a red endpoint and no green one, and carries both
    labels, stored as their product [PauliY], when it fires one of each;
    otherwise it is not labelled. *)
Theorem get_pw_labels im v g pw :
  get_pw im v g = Ok pw →
  let outs := Z.of_nat (length (inputs g)) + Z.of_nat (length (outputs g)) in
  let fired c e := fires im g outs (nonzero v) c e in
  (∀ s t, is_Some (es pw !! (s, t)) → (s, t) ∈ edges g ∨ (t, s) ∈ edges g) ∧
  (∀ e, e ∈ edges g →
     es pw !! (e.2, e.1) = es pw !! e ∧
     (es pw !! e = Some PauliX ↔ fired 1 e ∧ ¬ fired 2 e) ∧
     (es pw !! e = Some PauliZ ↔ fired 2 e ∧ ¬ fired 1 e) ∧
     (es pw !! e = Some PauliY ↔ fired 1 e ∧ fired 2 e) ∧
     (es pw !! e = None ↔ ¬ fired 1 e ∧ ¬ fired 2 e)).
Proof.
  intros Hpw outs fired.
  destruct (get_pw_lookup _ _ _ _ Hpw) as (red & green & Hsets & Hes).
  destruct (edge_sets_spec _ _ _ _ _ _ Hsets) as [Hred Hgreen].
  fold outs in Hred, Hgreen.
  split.
  - intros s t [p Hp]. rewrite Hes in Hp. cbn [fst snd] in Hp.
    repeat case_decide; try done;
      match goal with
      | H : _ ∈ _ ∨ _ ∈ _ |- _ =>
          destruct H as [H | H]; [apply Hred in H || apply Hgreen in H
                                 | apply Hred in H || apply Hgreen in H]; tauto
      end.
  - intros [a b] He. pose proof (edges_lt _ _ _ He) as Hlt. cbn [fst snd].
    assert (Hr : ∀ S : gset (Z * Z), (∀ e, e ∈ S → e ∈ edges g) →
                 ((a, b) ∈ S ∨ (b, a) ∈ S) ↔ (a, b) ∈ S).
    { intros S HS. split; [ | auto]. intros [? | Hba]; [done | ].
      apply HS, edges_lt in Hba. lia. }
    assert (Hr' : ∀ S : gset (Z * Z), ((b, a) ∈ S ∨ (a, b) ∈ S) ↔ ((a, b) ∈ S ∨ (b, a) ∈ S))
      by (intros; tauto).
    assert (HredS : ∀ e, e ∈ red → e ∈ edges g) by (intros e' ?%Hred; tauto).
    assert (HgreenS : ∀ e, e ∈ green → e ∈ edges g) by (intros e' ?%Hgreen; tauto).
    assert (Hfr : (a, b) ∈ red ↔ fired 2 (a, b)) by (rewrite Hred; tauto).
    assert (Hfg : (a, b) ∈ green ↔ fired 1 (a, b)) by (rewrite Hgreen; tauto).
    rewrite !Hes. cbn [fst snd].
    repeat case_decide;
      rewrite ?Hr', ?Hr in * by done;
      (split; [try reflexivity; tauto | ]);
      repeat split; try done; try tauto; intros; tauto.
Qed.

Lemma get_pw_labels_witness :
  let im : gmap Z Z := list_to_map [(0, 0); (1, 1); (2, 2)] in
  let pw := mkWeb (list_to_map [((0, 1), PauliX); ((1, 0), PauliX);
                                ((1, 2), PauliX); ((2, 1), PauliX)]) in
  get_pw im [1; 0; 1] zxz = Ok pw ∧
  fires im zxz 0 (nonzero [1; 0; 1]) 1 (0, 1) ∧
  ¬ fires im zxz 0 (nonzero [1; 0; 1]) 2 (0, 1).
Proof.
  intros im pw.
  assert (Hpw : get_pw im [1; 0; 1] zxz = Ok pw) by (vm_compute; reflexivity).
  split; [exact Hpw | ].
  destruct (get_pw_labels im [1; 0; 1] zxz pw Hpw) as [_ H].
  destruct (H (0, 1)) as (_ & HX & _).
  - apply (bool_decide_unpack _). vm_compute. exact I.
  - apply HX. vm_compute. reflexivity.
Defined.

Lemma filter_seqZ_head (P : Z → Prop) `{∀ x, Decision (P x)} i :
  ∀ (k : nat) m n, Z.to_nat n = k → i ∈ filter P (seqZ m n) →
    ∃ i0 rest, filter P (seqZ m n) = i0 :: rest ∧ m ≤ i0 ≤ i.
Proof.
  induction k as [|k IH]; intros m n Hk Hi.
  - rewrite seqZ_nil in Hi by lia. by apply elem_of_nil in Hi.
  - rewrite seqZ_cons in Hi |- * by lia. rewrite filter_cons in Hi |- *.
    destruct (decide (P m)).
    + eexists _, _. split; [done | ]. split; [lia | ].
      apply elem_of_cons in Hi as [-> | [_ Hi]%list_elem_of_filter]; [lia | ].
      apply elem_of_seqZ in Hi. lia.
    + destruct (IH (Z.succ m) (Z.pred n)) as (i0 & rest & Heq & Hle); [lia | done | ].
      exists i0, rest. split; [done | lia].
Qed.

Lemma nonzero_elem (v : list Z) i x :
  0 ≤ i → v !! Z.to_nat i = Some x → x ≠ 0 → i ∈ nonzero v.
Proof.
  intros Hi Hv Hx. unfold nonzero. apply list_elem_of_filter. split.
  - by rewrite Hv.
  - apply elem_of_seqZ. apply lookup_lt_Some in Hv. lia.
Qed.

(** The index maps of [ordered_nodes] have no negative key. *)
Lemma ordered_nodes_keys g vs (im : gmap Z Z) :
  wf g → ordered_nodes g = Ok (vs, im) → map_Forall (λ k _, 0 ≤ k) im.
Proof.
  intros Hwf Hrun. destruct (ordered_nodes_ok g Hwf) as (im' & Hrun' & _ & Him).
  rewrite Hrun in Hrun'. injection Hrun' as _ <-.
  intros k u Hk. by apply Him in Hk as [? _].
Qed.

(** X21: [get_pw] itself has no test for indices below [outs]: on a vector
    of any kind with a nonzero entry at an index [i < outs], and with an
    index map without negative keys, as [ordered_nodes] returns them, the
    lookup [index_map[i - outs]] fails and [get_pw] raises [KeyError]. *)
Theorem get_pw_boundary_index (im : gmap Z Z) v g i x :
  map_Forall (λ k _, 0 ≤ k) im →
  0 ≤ i < Z.of_nat (length (inputs g)) + Z.of_nat (length (outputs g)) →
  v !! Z.to_nat i = Some x → x ≠ 0 →
  get_pw im v g = Raise KeyError.
Proof.
  intros Him [Hi0 Hi] Hv Hx.
  pose proof (nonzero_elem v i x Hi0 Hv Hx) as Hnz. unfold nonzero in Hnz.
  destruct (filter_seqZ_head _ i _ 0 _ eq_refl Hnz) as (i0 & rest & Heq & Hle).
  unfold get_pw, GetPw.edge_sets, nonzero. rewrite Heq. cbn [for_each].
  set (outs := Z.of_nat (length (inputs g)) + Z.of_nat (length (outputs g))) in *.
  assert (GetPw.fire im g outs (∅, ∅) i0 = Raise KeyError) as ->; [ | done].
  unfold GetPw.fire. destruct (im !! (i0 - outs)) as [u | ] eqn:E; [ | done].
  apply Him in E. lia.
Qed.

Lemma get_pw_boundary_index_witness :
  get_pw (list_to_map [(0, 1); (1, 2)]) [1; 0; 0] in_zx = Raise KeyError.
Proof.
  apply (get_pw_boundary_index (list_to_map [(0, 1); (1, 2)]) [1; 0; 0] in_zx 0 1).
  - apply (bool_decide_unpack _). vm_compute. exact I.
  - simpl. lia.
  - reflexivity.
  - discriminate.
Defined.

(** * Further properties of the code *)

(** ** [make_rg]: what is kept *)

(** An invariant of the diagram that every subdivision keeps is kept by
    [make_rg]. *)
Section make_rg_invariant.

Variable Inv : Graph → Prop.
Hypothesis Inv_step : ∀ g node c neighbor g',
  wf g → neighbor ∈ nbrs g node →
  ty g !! node = Some c → ty g !! neighbor = Some c →
  MakeRg.subdivide node c neighbor (g, g) = Ok (g', g') →
  Inv g → Inv g'.

Lemma inner_loop_inv node c (L : list Z) :
  ∀ g g', wf g → ty g !! node = Some c → NoDup L →
    (∀ t, t ∈ L → t ∈ nbrs g node) → Inv g →
    for_each L (MakeRg.inner node c) (g, g) = Ok (g', g') → Inv g'.
Proof.
  induction L as [|t L IH]; intros g g' Hwf Ec Hnd HL HI Hrun.
  - by injection Hrun as <-.
  - apply NoDup_cons in Hnd as [Ht Hnd].
    assert (Hadj : t ∈ nbrs g node) by (apply HL; left).
    pose proof (wf_nbr_vertex _ _ _ Hwf Hadj) as Hvt.
    destruct (wf_ty _ _ Hwf Hvt) as (ct & Ect & Hlt).
    cbn [for_each] in Hrun.
    destruct (decide (ct = c)) as [-> | Hc].
    + assert (MakeRg.inner node c (g, g) t = MakeRg.subdivide node c t (g, g)) as Heq.
      { unfold MakeRg.inner, ty_at. cbn [snd]. rewrite Ect.
        cbn [subscript mbind result_bind]. by rewrite decide_True. }
      rewrite Heq in Hrun.
      destruct (subdivide_step g node c t Hwf Hadj Ec Ect)
        as (g1 & Hsub & Hwf1 & Hext1 & Hi1 & Hn1 & Hm1).
      rewrite Hsub in Hrun. cbn [mbind result_bind] in Hrun.
      apply (IH g1 g'); try done.
      * destruct Hext1 as (_ & Hty1 & _). rewrite Hty1; [done | ].
        pose proof (nbrs_vertices _ _ _ Hadj) as Hvn.
        by destruct (wf_ty _ _ Hwf Hvn) as (? & ? & ?).
      * intros t' Ht'. rewrite Hn1. apply elem_of_app. left.
        apply list_elem_of_filter. split; [ | apply HL; by right].
        intros ->. done.
      * by apply (Inv_step g node c t g1).
    + assert (MakeRg.inner node c (g, g) t = Ok (g, g)) as Heq.
      { unfold MakeRg.inner, ty_at. cbn [snd]. rewrite Ect.
        cbn [subscript mbind result_bind]. by rewrite decide_False. }
      rewrite Heq in Hrun. cbn [mbind result_bind] in Hrun.
      apply (IH g g'); try done. intros t' Ht'. apply HL. by right.
Qed.

Lemma outer_loop_inv (V : list Z) :
  ∀ g g', wf g → (∀ s, s ∈ V → s ∈ vertices g) → Inv g →
    for_each V MakeRg.outer (g, g) = Ok (g', g') → Inv g'.
Proof.
  induction V as [|node V IH]; intros g g' Hwf HV HI Hrun.
  - by injection Hrun as <-.
  - assert (Hvn : node ∈ vertices g) by (apply HV; left).
    destruct (wf_ty _ _ Hwf Hvn) as (c & Ec & Hlt).
    cbn [for_each] in Hrun.
    assert (MakeRg.outer (g, g) node
            = for_each (nbrs g node) (MakeRg.inner node c) (g, g)) as Heq.
    { unfold MakeRg.outer, ty_at, neighbors. cbn [snd].
      by rewrite Ec, (vertices_nbrs _ _ Hvn). }
    rewrite Heq in Hrun.
    assert (Hndn : NoDup (nbrs g node)) by (by apply wf_facts in Hwf as (_ & _ & ? & _)).
    destruct (inner_loop node c (nbrs g node) g) as (g1 & Hin & Hwf1 & Hext1 & _);
      try done.
    rewrite Hin in Hrun. cbn [mbind result_bind] in Hrun.
    apply (IH g1 g'); try done.
    + intros s Hs. eapply ext_vertices; [done | ]. apply HV. by right.
    + by apply (inner_loop_inv node c (nbrs g node) g g1).
Qed.

Lemma make_rg_inv g g' : wf g → Inv g → make_rg g = Ok g' → Inv g'.
Proof.
  intros Hwf HI Hrun. unfold make_rg, clone in Hrun.
  destruct (outer_loop (vertices g) g Hwf) as (g1 & Hout & _); [done | ].
  pose proof Hout as Hout'. rewrite Hout in Hrun. injection Hrun as <-.
  by apply (outer_loop_inv (vertices g) g g1).
Qed.

End make_rg_invariant.

(** X1: [make_rg] leaves the boundary designation alone and keeps every vertex
    of the input, with its position in the vertex order, its type and its
    degree. *)
Theorem make_rg_frame g g' :
  wf g → make_rg g = Ok g' →
  inputs g' = inputs g ∧ outputs g' = outputs g ∧
  vertices g `prefix_of` vertices g' ∧
  ∀ v, v ∈ vertices g →
       ty g' !! v = ty g !! v ∧ length (nbrs g' v) = length (nbrs g v).
Proof.
  intros Hwf Hrun.
  destruct (make_rg_spec g Hwf) as (g1 & Hrun1 & _ & Hext & _).
  rewrite Hrun in Hrun1. injection Hrun1 as <-.
  destruct Hext as ((k & _ & Hv & _) & Hty & Hlen & Hin & Hout).
  split; [done | ]. split; [done | ]. split.
  - rewrite Hv. by eexists.
  - intros v Hv'. split; [ | by apply Hlen].
    apply Hty. by destruct (wf_ty _ _ Hwf Hv') as (? & ? & ?).
Qed.

Lemma make_rg_frame_witness :
  ∃ g', make_rg zzz = Ok g' ∧
        inputs g' = inputs zzz ∧ outputs g' = outputs zzz ∧
        vertices zzz `prefix_of` vertices g' ∧
        ∀ v, v ∈ vertices zzz →
             ty g' !! v = ty zzz !! v ∧ length (nbrs g' v) = length (nbrs zzz v).
Proof.
  assert (Hwf : wf zzz) by (apply (bool_decide_unpack _); vm_compute; exact I).
  assert (Hrun : make_rg zzz = Ok zzz_rg) by (vm_compute; reflexivity).
  exists zzz_rg. split; [exact Hrun | ]. exact (make_rg_frame zzz zzz_rg Hwf Hrun).
Defined.

(** X2: [make_rg] keeps the diagram well formed, and running it a second time
    changes nothing. *)
Theorem make_rg_idempotent g g' :
  wf g → make_rg g = Ok g' → wf g' ∧ make_rg g' = Ok g'.
Proof.
  intros Hwf Hrun.
  destruct (make_rg_spec g Hwf) as (g1 & Hrun1 & Hwf1 & _ & _ & Hm).
  rewrite Hrun in Hrun1. injection Hrun1 as <-.
  split; [done | ]. unfold make_rg, clone.
  by rewrite (outer_noop g' (vertices g') Hwf1 Hm).
Qed.

Lemma make_rg_idempotent_witness :
  ∃ g', make_rg zzz = Ok g' ∧ wf g' ∧ make_rg g' = Ok g'.
Proof.
  assert (Hwf : wf zzz) by (apply (bool_decide_unpack _); vm_compute; exact I).
  assert (Hrun : make_rg zzz = Ok zzz_rg) by (vm_compute; reflexivity).
  exists zzz_rg. split; [exact Hrun | ]. exact (make_rg_idempotent zzz zzz_rg Hwf Hrun).
Defined.

(** ** [make_rg]: what is added *)

Lemma other_colour_spider c : c `mod` 2 + 1 = 1 ∨ c `mod` 2 + 1 = 2.
Proof. pose proof (Z.mod_pos_bound c 2). lia. Qed.

(** X3: Every vertex that [make_rg] adds is a green or red spider with exactly
    two neighbours. *)
Theorem make_rg_new_vertices g g' :
  wf g → make_rg g = Ok g' →
  ∀ w, w ∈ vertices g' → w ∉ vertices g →
       (ty g' !! w = Some 1 ∨ ty g' !! w = Some 2) ∧ length (nbrs g' w) = 2%nat.
Proof.
  intros Hwf Hrun.
  set (Inv := λ cur : Graph,
         vindex g ≤ vindex cur ∧
         ∀ w, vindex g ≤ w → w ∈ vertices cur →
              (ty cur !! w = Some 1 ∨ ty cur !! w = Some 2)
              ∧ length (nbrs cur w) = 2%nat).
  assert (HI : Inv g').
  { apply (make_rg_inv Inv) with (g := g); [ | done | | done].
    - intros cur node c nb cur' Hwfc Hnb Ec En Hsub [Hle Hnew].
      destruct (subdivide_step cur node c nb Hwfc Hnb Ec En)
        as (g1 & Hsub1 & _ & Hext & Hi & _).
      destruct (subdivide_spec cur node c nb Hwfc Hnb Ec En)
        as (g2 & Hsub2 & Hv & _ & Ht & _ & _ & Hn).
      rewrite Hsub in Hsub1, Hsub2. injection Hsub1 as <-. injection Hsub2 as <-.
      split; [lia | ]. intros w Hw Hin. rewrite Hv in Hin.
      apply elem_of_app in Hin as [Hin | ->%list_elem_of_singleton].
      + destruct Hext as (_ & Hty & Hlen & _).
        destruct (wf_ty _ _ Hwfc Hin) as (? & _ & Hlt).
        rewrite Hty, Hlen by done. by apply Hnew.
      + pose proof (nbrs_vertices _ _ _ Hnb) as Hvn.
        pose proof (wf_nbr_vertex _ _ _ Hwfc Hnb) as Hvb.
        destruct (wf_ty _ _ Hwfc Hvn) as (? & _ & Hlt1).
        destruct (wf_ty _ _ Hwfc Hvb) as (? & _ & Hlt2).
        rewrite Ht, lookup_insert_eq, Hn.
        rewrite !decide_False, decide_True by lia.
        split; [ | done]. destruct (other_colour_spider c) as [-> | ->]; auto.
    - split; [lia | ]. intros w Hw Hin.
      destruct (wf_ty _ _ Hwf Hin) as (? & _ & Hlt). lia. }
  intros w Hw Hnot. destruct HI as [_ HI]. apply HI; [ | done].
  destruct (make_rg_spec g Hwf) as (g1 & Hrun1 & _ & ((k & _ & Hv & _) & _) & _).
  rewrite Hrun in Hrun1. injection Hrun1 as <-.
  rewrite Hv in Hw. apply elem_of_app in Hw as [? | Hw]; [done | ].
  apply elem_of_seqZ in Hw. lia.
Qed.

Lemma make_rg_new_vertices_witness :
  ∃ g', make_rg zzz = Ok g' ∧
    ∀ w, w ∈ vertices g' → w ∉ vertices zzz →
         (ty g' !! w = Some 1 ∨ ty g' !! w = Some 2) ∧ length (nbrs g' w) = 2%nat.
Proof.
  assert (Hwf : wf zzz) by (apply (bool_decide_unpack _); vm_compute; exact I).
  assert (Hrun : make_rg zzz = Ok zzz_rg) by (vm_compute; reflexivity).
  exists zzz_rg. split; [exact Hrun | ]. exact (make_rg_new_vertices zzz zzz_rg Hwf Hrun).
Defined.

(** X4: [make_rg] keeps every edge between vertices of different types, and
    replaces every edge between vertices of one type by a path of two edges
    through a vertex it has added. *)
Theorem make_rg_edges g g' :
  wf g → make_rg g = Ok g' →
  ∀ s t, t ∈ nbrs g s →
    (ty g !! s ≠ ty g !! t → t ∈ nbrs g' s) ∧
    (ty g !! s = ty g !! t →
       (t ∉ nbrs g' s) ∧
       ∃ w, (w ∉ vertices g) ∧ w ∈ nbrs g' s ∧ w ∈ nbrs g' t).
Proof.
  intros Hwf Hrun.
  assert (Hold : ∀ s t, t ∈ nbrs g s → s < vindex g ∧ t < vindex g).
  { intros s t Hst. pose proof (wf_nbr_vertex _ _ _ Hwf Hst) as Ht.
    apply nbrs_vertices in Hst.
    destruct (wf_ty _ _ Hwf Hst) as (? & _ & ?).
    destruct (wf_ty _ _ Hwf Ht) as (? & _ & ?). done. }
  set (Inv := λ cur : Graph,
         vindex g ≤ vindex cur ∧
         (∀ s, s < vindex g → ty cur !! s = ty g !! s) ∧
         (∀ s t, mono cur s t → mono g s t) ∧
         ∀ s t, t ∈ nbrs g s →
           t ∈ nbrs cur s ∨
           (ty g !! s = ty g !! t ∧
            ∃ w, vindex g ≤ w ∧ w ∈ nbrs cur s ∧ w ∈ nbrs cur t)).
  assert (HI : Inv g').
  { apply (make_rg_inv Inv) with (g := g); [ | done | | done].
    - intros cur node c nb cur' Hwfc Hnb Ec En Hsub (Hle & Hty & Hmono & Hadj).
      destruct (subdivide_step cur node c nb Hwfc Hnb Ec En)
        as (g1 & Hsub1 & _ & Hext & Hi & _ & Hm).
      destruct (subdivide_spec cur node c nb Hwfc Hnb Ec En)
        as (g2 & Hsub2 & Hv & _ & Ht & _ & _ & Hn).
      rewrite Hsub in Hsub1, Hsub2. injection Hsub1 as <-. injection Hsub2 as <-.
      pose proof Hwfc as (_ & _ & _ & Hsymc)%wf_facts.
      destruct (Hsymc _ _ Hnb) as [Hne Hbn].
      assert (Hw1 : vindex cur ∈ nbrs cur' node).
      { rewrite Hn, decide_True by done. apply elem_of_app. right. left. }
      assert (Hw2 : vindex cur ∈ nbrs cur' nb).
      { rewrite Hn, decide_False, decide_True by done. apply elem_of_app. right. left. }
      assert (Hkeep : ∀ s t, t ∈ nbrs cur s →
                ¬ (s = node ∧ t = nb) → ¬ (s = nb ∧ t = node) → t ∈ nbrs cur' s).
      { intros s t Hst H1 H2. rewrite Hn.
        pose proof (wf_nbr_vertex _ _ _ Hwfc Hst) as Hvt.
        pose proof (nbrs_vertices _ _ _ Hst) as Hvs.
        destruct (wf_ty _ _ Hwfc Hvs) as (? & _ & ?).
        repeat case_decide; subst.
        - apply elem_of_app. left. apply list_elem_of_filter. split; [ | done].
          intros ->. tauto.
        - apply elem_of_app. left. apply list_elem_of_filter. split; [ | done].
          intros ->. tauto.
        - lia.
        - done. }
      split; [lia | ]. split; [ | split].
      + intros s Hs. destruct Hext as (_ & Hty' & _). rewrite Hty' by lia. auto.
      + intros s t Hst. apply Hmono. by apply Hm.
      + intros s t Hst. destruct (Hadj s t Hst) as [Hcur | (Heq & w & Hw & Hws & Hwt)].
        * destruct (decide (s = node ∧ t = nb)) as [[-> ->] | H1].
          { right. destruct (Hold _ _ Hst).
            split; [rewrite <- !Hty by done; congruence | ].
            exists (vindex cur). split; [lia | done]. }
          destruct (decide (s = nb ∧ t = node)) as [[-> ->] | H2].
          { right. destruct (Hold _ _ Hst).
            split; [rewrite <- !Hty by done; congruence | ].
            exists (vindex cur). split; [lia | done]. }
          left. by apply Hkeep.
        * right. split; [done | ]. exists w. split; [done | ].
          assert (Hnm : ∀ x, w ∈ nbrs cur x → ¬ mono cur x w).
          { intros x _ Hmx. apply Hmono in Hmx as [Hgx _].
            apply Hold in Hgx. lia. }
          assert (Hnm' : ∀ x, w ∈ nbrs cur x → ¬ mono cur w x).
          { intros x _ Hmx. apply Hmono in Hmx as [Hgx _].
            apply Hold in Hgx. lia. }
          assert (Hmn : mono cur node nb) by (split; [done | congruence]).
          assert (Hmb : mono cur nb node) by (split; [done | congruence]).
          split; apply Hkeep; try done.
          -- intros [-> ->]. by apply (Hnm node).
          -- intros [-> ->]. by apply (Hnm nb).
          -- intros [-> ->]. by apply (Hnm node).
          -- intros [-> ->]. by apply (Hnm nb).
    - split; [lia | ]. split; [done | ]. split; [done | ]. auto. }
  destruct HI as (_ & Hty & _ & Hadj).
  destruct (make_rg_spec g Hwf) as (g1 & Hrun1 & _ & _ & _ & Hm).
  rewrite Hrun in Hrun1. injection Hrun1 as <-.
  intros s t Hst. destruct (Hold _ _ Hst) as [Hs Ht].
  destruct (Hadj s t Hst) as [Hcur | (Heq & w & Hw & Hws & Hwt)].
  - split; [done | ]. intros Heq. exfalso. apply (Hm s t).
    split; [done | ]. rewrite !Hty by done. done.
  - split; [done | ]. intros _. split.
    + intros Hcur. apply (Hm s t). split; [done | ]. rewrite !Hty by done. done.
    + exists w. split; [ | done]. intros Hin.
      destruct (wf_ty _ _ Hwf Hin) as (? & _ & ?). lia.
Qed.

Lemma make_rg_edges_witness :
  ∃ g', make_rg zzz = Ok g' ∧
    ∀ s t, t ∈ nbrs zzz s →
      (ty zzz !! s ≠ ty zzz !! t → t ∈ nbrs g' s) ∧
      (ty zzz !! s = ty zzz !! t →
         (t ∉ nbrs g' s) ∧
         ∃ w, (w ∉ vertices zzz) ∧ w ∈ nbrs g' s ∧ w ∈ nbrs g' t).
Proof.
  assert (Hwf : wf zzz) by (apply (bool_decide_unpack _); vm_compute; exact I).
  assert (Hrun : make_rg zzz = Ok zzz_rg) by (vm_compute; reflexivity).
  exists zzz_rg. split; [exact Hrun | ]. exact (make_rg_edges zzz zzz_rg Hwf Hrun).
Defined.

(** ** [ordered_nodes]: errors and order *)

Lemma filterM_raise {A : Type} (p : A → result bool) e (l : list A) :
  (∀ x, x ∈ l → (∃ b, p x = Ok b) ∨ p x = Raise e) →
  (∃ x, x ∈ l ∧ p x = Raise e) →
  filterM p l = Raise e.
Proof.
  induction l as [|y l IH]; intros Hall (x & Hx & Hp).
  - by apply elem_of_nil in Hx.
  - cbn [filterM]. assert (Hy : y ∈ y :: l) by left.
    destruct (Hall y Hy) as [[b Hb] | Hb]; [ | by rewrite Hb].
    rewrite Hb. cbn [mbind result_bind].
    rewrite IH; [done | intros; apply Hall; by right | ].
    apply elem_of_cons in Hx as [-> | Hx]; [congruence | eauto].
Qed.

Lemma index_total (l : list Z) x : x ∈ l → ∃ i, index l x = Ok i.
Proof.
  induction l as [|y l IH]; intros Hx; [by apply elem_of_nil in Hx | ].
  cbn [index]. case_decide; [eauto | ].
  apply elem_of_cons in Hx as [-> | Hx]; [done | ].
  destruct (IH Hx) as [i ->]. cbn [mbind result_bind]. eauto.
Qed.

Lemma index_entries_total (vs l : list Z) :
  ∀ m : gmap Z Z, ∃ m' : gmap Z Z, for_each l (index_entry vs) m = Ok m'.
Proof.
  induction l as [|x l IH]; intros m; [by exists m | ].
  cbn [for_each].
  assert (∃ m1, index_entry vs m x = Ok m1) as [m1 ->].
  { unfold index_entry. case_decide as Hx; [ | eauto].
    destruct (index_total _ _ Hx) as [i ->]. cbn [mbind result_bind]. eauto. }
  cbn [mbind result_bind]. apply IH.
Qed.

(** X5: [ordered_nodes] reads the type of every vertex: it returns when every
    vertex has one, and raises [KeyError] otherwise. *)
Theorem ordered_nodes_returns g :
  (Forall (λ v, is_Some (ty g !! v)) (vertices g) → ∃ r, ordered_nodes g = Ok r) ∧
  (¬ Forall (λ v, is_Some (ty g !! v)) (vertices g) → ordered_nodes g = Raise KeyError).
Proof.
  set (free := filter (λ v, (v ∉ inputs g) ∧ (v ∉ outputs g)) (vertices g)).
  split.
  - intros Hall. rewrite Forall_forall in Hall. unfold ordered_nodes. fold free.
    rewrite (filterM_ok _ (λ v, ty g !! v ≠ Some 0 ∧ v ∉ free)).
    2:{ intros v Hv. destruct (Hall v Hv) as [c Ec].
        unfold ty_at. rewrite Ec. cbn [subscript mbind result_bind]. f_equal.
        apply bool_decide_ext. split; intros [? ?]; (split; [congruence | done]). }
    cbn [mbind result_bind].
    destruct (index_entries_total
                (free ++ filter (λ v, ty g !! v ≠ Some 0 ∧ v ∉ free) (vertices g))
                (vertices g) ∅) as [m ->].
    cbn [mbind result_bind]. eauto.
  - intros Hnot. apply not_Forall_Exists in Hnot; [ | apply _].
    apply Exists_exists in Hnot as (x & Hx & Hn).
    unfold ordered_nodes. fold free. rewrite (filterM_raise _ KeyError); [done | | ].
    + intros v _. unfold ty_at. destruct (ty g !! v); [left | right]; eauto.
    + exists x. split; [done | ]. unfold ty_at.
      destruct (ty g !! x) eqn:E; [ | done]. exfalso. apply Hn. eauto.
Qed.

Lemma ordered_nodes_returns_witness :
  (∃ r, ordered_nodes zxz = Ok r) ∧ ordered_nodes untyped = Raise KeyError.
Proof.
  split.
  - apply (ordered_nodes_returns zxz).
    apply (bool_decide_unpack _). vm_compute. exact I.
  - apply (ordered_nodes_returns untyped).
    apply (bool_decide_unpack _). vm_compute. exact I.
Defined.

(** X6: In the ordered sequence every vertex named neither in the inputs nor in
    the outputs comes before every vertex that is named there. *)
Theorem ordered_nodes_free_first g vs (im : gmap Z Z) (i j : nat) u w :
  wf g → ordered_nodes g = Ok (vs, im) →
  vs !! i = Some u → vs !! j = Some w →
  u ∉ inputs g → u ∉ outputs g → w ∈ inputs g ∨ w ∈ outputs g →
  (i < j)%nat.
Proof.
  intros Hwf Hrun Hi Hj Hu1 Hu2 Hw.
  destruct (ordered_nodes_ok g Hwf) as (im' & Hrun' & _).
  rewrite Hrun in Hrun'. injection Hrun' as -> _.
  set (free := filter (λ v, (v ∉ inputs g) ∧ (v ∉ outputs g)) (vertices g)) in *.
  set (typed := filter (λ v, ty g !! v ≠ Some 0 ∧ v ∉ free) (vertices g)) in *.
  assert (Hil : (i < length free)%nat).
  { destruct (decide (i < length free)%nat); [done | ].
    rewrite lookup_app_r in Hi by lia.
    apply list_elem_of_lookup_2, list_elem_of_filter in Hi as [[_ Hn] Hv].
    exfalso. apply Hn. by apply list_elem_of_filter. }
  assert (Hjl : (length free ≤ j)%nat).
  { destruct (decide (length free ≤ j)%nat); [done | ].
    rewrite lookup_app_l in Hj by lia.
    apply list_elem_of_lookup_2, list_elem_of_filter in Hj as [[? ?] _]. tauto. }
  lia.
Qed.

Lemma ordered_nodes_free_first_witness :
  ordered_nodes in_zx' = Ok ([0; 2; 1], list_to_map [(0, 0); (1, 2); (2, 1)]) ∧
  (0 < 2)%nat.
Proof.
  assert (Hwf : wf in_zx') by (apply (bool_decide_unpack _); vm_compute; exact I).
  split; [vm_compute; reflexivity | ].
  apply (ordered_nodes_free_first in_zx' [0; 2; 1] (list_to_map [(0, 0); (1, 2); (2, 1)])
           0 2 0 1 Hwf).
  - vm_compute. reflexivity.
  - reflexivity.
  - reflexivity.
  - apply (bool_decide_unpack _). vm_compute. exact I.
  - apply (bool_decide_unpack _). vm_compute. exact I.
  - left. apply (bool_decide_unpack _). vm_compute. exact I.
Defined.

(** X7: Without inputs and outputs the ordered sequence is the vertex sequence
    of the diagram, and the index map is its enumeration. *)
Theorem ordered_nodes_no_boundary g :
  wf g → inputs g = [] → outputs g = [] →
  ∃ im : gmap Z Z, ordered_nodes g = Ok (vertices g, im) ∧
    ∀ i v, im !! i = Some v ↔ 0 ≤ i ∧ vertices g !! Z.to_nat i = Some v.
Proof.
  intros Hwf Hin Hout.
  destruct (ordered_nodes_ok g Hwf) as (im & Hrun & _ & Him).
  cbv zeta in Hrun, Him. rewrite Hin, Hout in Hrun, Him.
  assert (Hfree : filter (λ v : Z, (v ∉ @nil Z) ∧ (v ∉ @nil Z)) (vertices g) = vertices g).
  { clear. induction (vertices g) as [|a l IH]; [done | ].
    rewrite filter_cons, decide_True, IH; [done | ].
    split; by intros ?%elem_of_nil. }
  rewrite Hfree in Hrun, Him.
  assert (Htyped : filter (λ v, ty g !! v ≠ Some 0 ∧ v ∉ vertices g) (vertices g) = []).
  { assert (∀ l, (∀ x, x ∈ l → x ∈ vertices g) →
                 filter (λ v, ty g !! v ≠ Some 0 ∧ v ∉ vertices g) l = []) as H.
    { induction l as [|a l IH]; intros Hl; [done | ].
      rewrite filter_cons, decide_False, IH; [done | | ].
      - intros; apply Hl; by right.
      - intros [_ Hn]. apply Hn, Hl. left. }
    by apply H. }
  rewrite Htyped, app_nil_r in Hrun, Him. eauto.
Qed.

Lemma ordered_nodes_no_boundary_witness :
  ∃ im : gmap Z Z, ordered_nodes zxz = Ok (vertices zxz, im) ∧
    ∀ i v, im !! i = Some v ↔ 0 ≤ i ∧ vertices zxz !! Z.to_nat i = Some v.
Proof.
  apply (ordered_nodes_no_boundary zxz).
  - apply (bool_decide_unpack _). vm_compute. exact I.
  - reflexivity.
  - reflexivity.
Defined.

(** ** [get_pw]: errors and the empty web *)

Lemma fire_resolves im g outs i st :
  resolves im g outs i → ∃ st', GetPw.fire im g outs st i = Ok st'.
Proof.
  unfold resolves, GetPw.fire, ty_at. intros [c Hc].
  destruct (im !! (i - outs)) as [u | ] eqn:Eu; [ | done]. simpl in Hc.
  cbn [subscript mbind result_bind]. rewrite Hc. cbn [subscript mbind result_bind].
  destruct (mark_loop im i outs c u (edges g) Eu st) as (st' & -> & _). eauto.
Qed.

Lemma fire_unresolved im g outs i st :
  ¬ resolves im g outs i → GetPw.fire im g outs st i = Raise KeyError.
Proof.
  unfold resolves, GetPw.fire, ty_at. intros Hn.
  destruct (im !! (i - outs)) as [u | ] eqn:Eu; [ | done].
  cbn [subscript mbind result_bind]. simpl in Hn.
  destruct (ty g !! u) eqn:Et; [ | done]. exfalso. apply Hn. eauto.
Qed.

Lemma fire_loop_returns im g outs (l : list Z) :
  ∀ st,
    (Forall (resolves im g outs) l → ∃ st', for_each l (GetPw.fire im g outs) st = Ok st') ∧
    (¬ Forall (resolves im g outs) l →
     for_each l (GetPw.fire im g outs) st = Raise KeyError).
Proof.
  induction l as [|i l IH]; intros st.
  - split; [eauto | ]. intros H. exfalso. apply H. constructor.
  - cbn [for_each]. destruct (decide (resolves im g outs i)) as [Hi | Hi].
    + destruct (fire_resolves im g outs i st Hi) as [st1 ->].
      cbn [mbind result_bind]. destruct (IH st1) as [IH1 IH2]. split.
      * intros [_ Hl]%Forall_cons. by apply IH1.
      * intros Hn. apply IH2. intros Hl. apply Hn. by constructor.
    + rewrite (fire_unresolved im g outs i st Hi). split; [ | done].
      intros [? _]%Forall_cons. done.
Qed.

(** X8: [get_pw] returns a web when every nonzero index of the vector resolves
    to a typed vertex, and raises [KeyError] otherwise. *)
Theorem get_pw_returns im v g :
  let outs := Z.of_nat (length (inputs g)) + Z.of_nat (length (outputs g)) in
  (Forall (resolves im g outs) (nonzero v) → ∃ pw, get_pw im v g = Ok pw) ∧
  (¬ Forall (resolves im g outs) (nonzero v) → get_pw im v g = Raise KeyError).
Proof.
  intros outs. unfold get_pw, GetPw.edge_sets. fold outs.
  destruct (fire_loop_returns im g outs (nonzero v) (∅, ∅)) as [H1 H2]. split.
  - intros Hall. destruct (H1 Hall) as [[red green] ->].
    cbn [mbind result_bind]. eauto.
  - intros Hn. by rewrite (H2 Hn).
Qed.

Lemma get_pw_returns_witness :
  (∃ pw, get_pw (list_to_map [(0, 0); (1, 1); (2, 2)]) [0; 1; 0] zxz = Ok pw) ∧
  get_pw ∅ [0; 1; 0] zxz = Raise KeyError.
Proof.
  split.
  - apply (get_pw_returns (list_to_map [(0, 0); (1, 1); (2, 2)]) [0; 1; 0] zxz).
    apply (bool_decide_unpack _). vm_compute. exact I.
  - apply (get_pw_returns ∅ [0; 1; 0] zxz).
    apply (bool_decide_unpack _). vm_compute. exact I.
Defined.

Lemma nonzero_zeros (v : list Z) : Forall (λ x, x = 0) v → nonzero v = [].
Proof.
  intros Hv. unfold nonzero.
  destruct (filter _ _) as [|i l] eqn:E; [done | ].
  assert (Hi : i ∈ i :: l) by left. rewrite <- E in Hi.
  apply list_elem_of_filter in Hi as [Hne Hi]. apply elem_of_seqZ in Hi.
  destruct (v !! Z.to_nat i) as [x | ] eqn:Ex; [ | done].
  rewrite Forall_forall in Hv. simpl in Hne.
  exfalso. apply Hne, Hv. by eapply list_elem_of_lookup_2.
Qed.

(** X9: A vector without a nonzero entry gives the empty web, whatever the
    index map and the diagram. *)
Theorem get_pw_zero im v g :
  Forall (λ x, x = 0) v → get_pw im v g = Ok (mkWeb ∅).
Proof.
  intros Hv. unfold get_pw, GetPw.edge_sets. rewrite (nonzero_zeros v Hv).
  cbn [for_each mbind result_bind]. by rewrite elements_empty.
Qed.

Lemma get_pw_zero_witness : get_pw ∅ [0; 0; 0] zxz = Ok (mkWeb ∅).
Proof.
  apply (get_pw_zero ∅ [0; 0; 0] zxz).
  apply (bool_decide_unpack _). vm_compute. exact I.
Defined.

(** ** The parity matrix: the rows that pin the boundary *)

Lemma dot_zeros m (v : list Z) : dot (replicate m 0) v = 0.
Proof.
  unfold dot. revert v. induction m as [|m IH]; intros v; [done | ].
  destruct v as [|x v]; [done | ]. simpl. by rewrite IH.
Qed.

Lemma dot_off_unit (i : Z) (k : nat) :
  ∀ a m (v : list Z), i < a →
    dot (((λ j, if decide (i = j) then 1 else 0) <$> seqZ a (Z.of_nat k))
           ++ replicate m 0) v = 0.
Proof.
  induction k as [|k IH]; intros a m v Hi.
  - rewrite seqZ_nil by lia. apply dot_zeros.
  - rewrite seqZ_cons by lia. replace (Z.pred (Z.of_nat (S k))) with (Z.of_nat k) by lia.
    destruct v as [|x v]; [done | ].
    cbn [fmap list_fmap app]. unfold dot. cbn [zip_with foldr].
    rewrite decide_False by lia. fold (dot
      (((λ j, if decide (i = j) then 1 else 0) <$> seqZ (Z.succ a) (Z.of_nat k))
         ++ replicate m 0) v).
    rewrite IH by lia. lia.
Qed.

Lemma dot_unit (i : Z) (k : nat) :
  ∀ a m (v : list Z), a ≤ i < a + Z.of_nat k →
    dot (((λ j, if decide (i = j) then 1 else 0) <$> seqZ a (Z.of_nat k))
           ++ replicate m 0) v = default 0 (v !! Z.to_nat (i - a)).
Proof.
  induction k as [|k IH]; intros a m v Hi; [lia | ].
  rewrite seqZ_cons by lia. replace (Z.pred (Z.of_nat (S k))) with (Z.of_nat k) by lia.
  destruct v as [|x v]; [done | ].
  cbn [fmap list_fmap app]. unfold dot. cbn [zip_with foldr].
  fold (dot (((λ j, if decide (i = j) then 1 else 0) <$> seqZ (Z.succ a) (Z.of_nat k))
               ++ replicate m 0) v).
  destruct (decide (i = a)) as [-> | Hne].
  - rewrite dot_off_unit by lia. rewrite Z.sub_diag. simpl. lia.
  - rewrite IH by lia.
    replace (Z.to_nat (i - a)) with (S (Z.to_nat (i - Z.succ a))) by lia.
    simpl. lia.
Qed.

(** The rows of the augmented matrix end with the [2 b] rows of
    [no_output]: row [i] of the identity, filled up with zeros. *)
Lemma parity_matrix_unit_rows g vs M i :
  parity_matrix g vs = Ok M →
  let n := Z.of_nat (length vs) in
  let b := Z.of_nat (length (inputs g)) + Z.of_nat (length (outputs g)) in
  0 ≤ i < 2 * b →
  unit_row (2 * b) i ++ replicate (Z.to_nat (n - b)) 0 ∈ rows M.
Proof.
  intros Hrun n b Hi. unfold parity_matrix in Hrun. fold b in Hrun.
  apply bind_Ok in Hrun as (N & HN & Hrun).
  apply to_numpy_array_Ok in HN as (_ & _ & HN). fold n in HN.
  apply bind_Ok in Hrun as (I_n & HI & Hrun).
  apply np_eye_Ok in HI as [Hb HI].
  apply bind_Ok in Hrun as (zb & Hzb & Hrun).
  pose proof HN as (HNc & _). rewrite HNc in Hzb.
  apply np_zeros_Ok in Hzb as (Hnb & _ & Hzb).
  apply bind_Ok in Hrun as (mdl & Hmdl & Hrun).
  apply (np_vstack_Ok _ _ _ _ _ _ _ HI Hzb) in Hmdl as [_ Hmdl].
  apply bind_Ok in Hrun as (md & Hmd & Hrun).
  cbn [np_hstack for_each mbind result_bind] in Hmd.
  apply bind_Ok in Hmd as (md' & Hmd & [= ->]).
  apply (hstack2_Ok _ _ _ _ _ _ _ Hmdl HN) in Hmd as [Hbn Hmd].
  apply bind_Ok in Hrun as (e2 & He2 & Hrun).
  apply bind_Ok in Hrun as (row0 & Hrow0 & Hrun).
  pose proof Hmd as (Hmdc & Hmdr & Hmdf).
  destruct (rows md) as [|r0 rest] eqn:Hrows; [done | ].
  injection Hrow0 as ->.
  apply Forall_cons in Hmdf as [Hr0 _].
  apply bind_Ok in Hrun as (z2 & Hz2 & Hrun).
  rewrite Hr0 in Hz2.
  apply bind_Ok in Hrun as (no & Hno & Hrun).
  cbn [np_hstack for_each mbind result_bind] in Hno.
  apply bind_Ok in Hno as (no' & Hno & [= ->]).
  unfold np_eye in He2. rewrite decide_False in He2 by lia. injection He2 as <-.
  unfold np_zeros in Hz2. rewrite decide_False in Hz2 by lia. injection Hz2 as <-.
  unfold hstack2 in Hno. case_decide; [ | done]. injection Hno as <-.
  unfold np_vstack in Hrun. case_decide; [ | done]. injection Hrun as <-.
  cbn [rows]. rewrite Hrows. apply elem_of_app. right.
  apply list_elem_of_lookup. exists (Z.to_nat i).
  rewrite lookup_zip_with, list_lookup_fmap, lookup_seqZ_lt by lia.
  cbn [fmap option_fmap option_map mbind option_bind].
  rewrite lookup_replicate_2 by lia. cbn [fmap option_fmap option_map].
  replace (0 + Z.of_nat (Z.to_nat i)) with i by lia.
  replace (b + n - 2 * b) with (n - b) by lia. done.
Qed.

(** X10: The rows of [no_output] do what the comment in the source says: a
    vector that the augmented matrix annihilates over GF(2) is even in
    each of its first [2 * outs] entries, and a vector of bits is zero
    there. *)
Theorem kernel_boundary_zero g vs M (v : list Z) i x :
  parity_matrix g vs = Ok M → F2.annihilates M v →
  0 ≤ i < 2 * (Z.of_nat (length (inputs g)) + Z.of_nat (length (outputs g))) →
  v !! Z.to_nat i = Some x →
  x `mod` 2 = 0 ∧ (x = 0 ∨ x = 1 → x = 0).
Proof.
  intros HM Hv Hi Hx.
  pose proof (parity_matrix_unit_rows g vs M i HM Hi) as Hrow.
  unfold F2.annihilates in Hv. rewrite Forall_forall in Hv.
  apply Hv in Hrow. unfold unit_row in Hrow.
  set (b := Z.of_nat (length (inputs g)) + Z.of_nat (length (outputs g))) in *.
  fold (dot (((λ j, if decide (i = j) then 1 else 0) <$> seqZ 0 (2 * b))
               ++ replicate (Z.to_nat (Z.of_nat (length vs) - b)) 0) v) in Hrow.
  replace (2 * b) with (Z.of_nat (Z.to_nat (2 * b))) in Hrow by lia.
  rewrite dot_unit in Hrow by lia.
  rewrite Z.sub_0_r, Hx in Hrow. simpl in Hrow.
  split; [done | ]. intros [-> | ->]; [done | ]. done.
Qed.


Lemma kernel_boundary_zero_witness :
  let M := mkArray 5 [[1; 0; 1; 0; 1]; [0; 1; 0; 1; 0]; [0; 0; 1; 0; 1];
                      [0; 1; 0; 1; 0]; [1; 0; 0; 0; 0]; [0; 1; 0; 0; 0]] in
  parity_matrix square_in [0; 1; 2; 3] = Ok M ∧
  F2.annihilates M [0; 0; 1; 0; 1] ∧
  0 `mod` 2 = 0 ∧ (0 = 0 ∨ 0 = 1 → 0 = 0).
Proof.
  intros M.
  assert (HM : parity_matrix square_in [0; 1; 2; 3] = Ok M) by (vm_compute; reflexivity).
  assert (Hv : F2.annihilates M [0; 0; 1; 0; 1]).
  { apply (bool_decide_unpack _). vm_compute. exact I. }
  split; [exact HM | ]. split; [exact Hv | ].
  apply (kernel_boundary_zero square_in [0; 1; 2; 3] M [0; 0; 1; 0; 1] 1 0 HM Hv).
  - simpl. lia.
  - reflexivity.
Defined.

(** ** The pipeline as a whole *)

Lemma fmap_default_seq (v : list Z) :
  (λ i, default 0 (v !! i)) <$> seq 0 (length v) = v.
Proof.
  apply list_eq. intros i. rewrite list_lookup_fmap.
  destruct (decide (i < length v)%nat) as [Hi | Hi].
  - rewrite lookup_seq_lt by done. simpl.
    destruct (lookup_lt_is_Some_2 v i Hi) as [x Hx]. by rewrite Hx.
  - rewrite lookup_seq_ge by lia. simpl. symmetry. apply lookup_ge_None. lia.
Qed.

(** Row [i] of the array whose columns are the vectors of [l]. *)
Lemma hstack2_column (l : list (list Z)) (m : nat) (v : list Z) :
  length v = m →
  hstack2 (mkArray (Z.of_nat (length l))
             ((λ i, (λ u, default 0 (u !! i)) <$> l) <$> seq 0 m))
          (column v)
  = Ok (mkArray (Z.of_nat (length (l ++ [v])))
          ((λ i, (λ u, default 0 (u !! i)) <$> (l ++ [v])) <$> seq 0 m)).
Proof.
  intros Hv. unfold hstack2, column, nrows. cbn [ncols rows].
  rewrite !length_fmap, length_seq, decide_True by (f_equal; lia).
  f_equal. f_equal.
  - rewrite length_app. simpl. lia.
  - apply list_eq. intros i.
    rewrite lookup_zip_with, !list_lookup_fmap.
    destruct (decide (i < m)%nat) as [Hi | Hi].
    + destruct (lookup_lt_is_Some_2 v i) as [x Hx]; [lia | ].
      rewrite lookup_seq_lt by done.
      cbn [fmap option_fmap option_map mbind option_bind].
      rewrite Hx. cbn [fmap option_fmap option_map mbind option_bind].
      rewrite fmap_app. cbn [fmap list_fmap Nat.add]. by rewrite Hx.
    + rewrite lookup_seq_ge by lia. done.
Qed.

Lemma hstack_columns_from (m : nat) (rest : list (list Z)) :
  ∀ l : list (list Z),
    Forall (λ v, length v = m) rest →
    for_each (column <$> rest) hstack2
      (mkArray (Z.of_nat (length l))
         ((λ i, (λ u, default 0 (u !! i)) <$> l) <$> seq 0 m))
    = Ok (mkArray (Z.of_nat (length (l ++ rest)))
            ((λ i, (λ u, default 0 (u !! i)) <$> (l ++ rest)) <$> seq 0 m)).
Proof.
  induction rest as [|v rest IH]; intros l Hall.
  - by rewrite app_nil_r.
  - apply Forall_cons in Hall as [Hv Hall]. cbn [fmap list_fmap for_each].
    rewrite hstack2_column by done. cbn [mbind result_bind].
    rewrite IH by done. by rewrite <- app_assoc.
Qed.

(** Stacking column vectors side by side and reading the rows of the
    transpose gives the vectors back. *)
Lemma hstack_columns (m : nat) (basis : list (list Z)) :
  basis ≠ [] → Forall (λ v, length v = m) basis →
  ∃ a, np_hstack (column <$> basis) = Ok a ∧ rows (transpose a) = basis.
Proof.
  intros Hne Hall. destruct basis as [|v0 rest]; [done | ].
  pose proof Hall as [Hv0 Hrest]%Forall_cons.
  cbn [fmap list_fmap np_hstack].
  assert (column v0 = mkArray (Z.of_nat (length [v0]))
            ((λ i, (λ u, default 0 (u !! i)) <$> [v0]) <$> seq 0 m)) as ->.
  { unfold column. f_equal. rewrite <- (fmap_default_seq v0) at 1.
    rewrite Hv0, <- list_fmap_compose. done. }
  rewrite hstack_columns_from by done. eexists. split; [done | ].
  unfold transpose, nrows. cbn [ncols rows app].
  set (l := v0 :: rest) in *.
  apply list_eq. intros j. rewrite list_lookup_fmap.
  destruct (decide (j < length l)%nat) as [Hj | Hj].
  - rewrite lookup_seqZ_lt by lia. cbn [fmap option_fmap option_map].
    destruct (lookup_lt_is_Some_2 l j Hj) as [u Hu]. rewrite Hu. f_equal.
    replace (Z.to_nat (0 + Z.of_nat j)) with j by lia.
    rewrite <- list_fmap_compose.
    assert (length u = m) as <-.
    { rewrite Forall_forall in Hall. apply Hall. by eapply list_elem_of_lookup_2. }
    rewrite <- (fmap_default_seq u) at 2. apply list_fmap_ext. intros i k _.
    unfold compose. by rewrite list_lookup_fmap, Hu.
  - rewrite lookup_seqZ_ge by lia. cbn [fmap option_fmap option_map].
    symmetry. apply lookup_ge_None. lia.
Qed.

Lemma get_pw_total im v g :
  Forall (resolves im g
            (Z.of_nat (length (inputs g)) + Z.of_nat (length (outputs g)))) (nonzero v) →
  ∃ pw, get_pw im v g = Ok pw.
Proof.
  intros Hall. unfold get_pw, GetPw.edge_sets.
  set (outs := Z.of_nat (length (inputs g)) + Z.of_nat (length (outputs g))) in *.
  destruct (fire_loop_returns im g outs (nonzero v) (∅, ∅)) as [H1 _].
  destruct (H1 Hall) as [[red green] ->]. cbn [mbind result_bind]. eauto.
Qed.

Lemma webs_loop im g (l : list (list Z)) :
  Forall (λ v, ∃ pw, get_pw im v g = Ok pw) l →
  ∀ acc, ∃ pws,
    for_each l (λ pws v, pw ← get_pw im v g; Ok (pws ++ [pw])) acc = Ok (acc ++ pws) ∧
    Forall2 (λ v pw, get_pw im v g = Ok pw) l pws.
Proof.
  induction l as [|v l IH]; intros Hall acc.
  - exists []. split; [by rewrite app_nil_r | constructor].
  - apply Forall_cons in Hall as [[pw Hpw] Hall]. cbn [for_each].
    rewrite Hpw. cbn [mbind result_bind].
    destruct (IH Hall (acc ++ [pw])) as (pws & -> & HF).
    exists (pw :: pws). split; [by rewrite <- app_assoc | by constructor].
Qed.

(** A bit vector in the kernel of the augmented matrix fires only indices
    that the index map of [ordered_nodes] resolves to typed vertices. *)
Lemma kernel_vector_resolves g vs (im : gmap Z Z) M (v : list Z) :
  wf g → ordered_nodes g = Ok (vs, im) → parity_matrix g vs = Ok M →
  Z.of_nat (length v) = ncols M → Forall (λ x, x = 0 ∨ x = 1) v →
  F2.annihilates M v →
  Forall (resolves im g
            (Z.of_nat (length (inputs g)) + Z.of_nat (length (outputs g)))) (nonzero v).
Proof.
  intros Hwf Hord HM Hlen Hbits Hker.
  set (b := Z.of_nat (length (inputs g)) + Z.of_nat (length (outputs g))).
  destruct (parity_matrix_Ok g vs M HM) as ((Hc & _) & Hbn & _). fold b in Hc, Hbn.
  destruct (ordered_nodes_ok g Hwf) as (im' & Hord' & _ & Him).
  rewrite Hord in Hord'. injection Hord' as Hvs <-.
  apply Forall_forall. intros i Hi. unfold nonzero in Hi.
  apply list_elem_of_filter in Hi as [Hnz Hi]. apply elem_of_seqZ in Hi.
  destruct (v !! Z.to_nat i) as [x | ] eqn:Ex; [ | done]. simpl in Hnz.
  assert (Hx : x = 0 ∨ x = 1).
  { rewrite Forall_forall in Hbits. apply Hbits. by eapply list_elem_of_lookup_2. }
  assert (Hge : 2 * b ≤ i).
  { destruct (decide (2 * b ≤ i)); [done | ]. exfalso.
    pose proof (parity_matrix_unit_rows g vs M i HM) as Hrow.
    cbv zeta in Hrow. fold b in Hrow. specialize (Hrow ltac:(lia)).
    unfold F2.annihilates in Hker. rewrite Forall_forall in Hker.
    apply Hker in Hrow. unfold unit_row in Hrow.
    fold (dot (((λ j, if decide (i = j) then 1 else 0) <$> seqZ 0 (2 * b))
                 ++ replicate (Z.to_nat (Z.of_nat (length vs) - b)) 0) v) in Hrow.
    replace (2 * b) with (Z.of_nat (Z.to_nat (2 * b))) in Hrow by lia.
    rewrite dot_unit in Hrow by lia.
    rewrite Z.sub_0_r, Ex in Hrow. simpl in Hrow.
    destruct Hx as [-> | ->]; done. }
  assert (Hk : (Z.to_nat (i - b) < length vs)%nat) by lia.
  destruct (lookup_lt_is_Some_2 _ _ Hk) as [u Hu].
  cbv zeta in Him. rewrite <- Hvs in Him.
  assert (Hiu : im !! (i - b) = Some u) by (apply Him; split; [lia | done]).
  unfold resolves. fold b. rewrite Hiu. simpl.
  apply list_elem_of_lookup_2 in Hu. rewrite Hvs in Hu.
  assert (u ∈ vertices g).
  { apply elem_of_app in Hu as [[_ ?]%list_elem_of_filter | [_ ?]%list_elem_of_filter];
      done. }
  destruct (wf_ty g u Hwf) as (c & -> & _); eauto.
Qed.

(** ** Kernel vectors and the indices of the boundary: claim C8 *)




(** X11: The pipeline returns one web for each vector of the basis, in order,
    whenever the matrix is built and the collaborator returns a non-empty
    basis of bit vectors, as columns of the width of the matrix, that the
    matrix annihilates. *)
Theorem get_detection_webs_returns ns g g' vs (im : gmap Z Z) M (basis : list (list Z)) :
  wf g → make_rg g = Ok g' → ordered_nodes g' = Ok (vs, im) →
  parity_matrix g' vs = Ok M →
  ns M = column <$> basis → basis ≠ [] →
  Forall (λ v, Z.of_nat (length v) = ncols M ∧ Forall (λ x, x = 0 ∨ x = 1) v
               ∧ F2.annihilates M v) basis →
  ∃ pws, get_detection_webs ns g = Ok pws ∧
         Forall2 (λ v pw, get_pw im v g' = Ok pw) basis pws.
Proof.
  intros Hwf Hrg Hord HM Hns Hne Hbasis.
  destruct (make_rg_spec g Hwf) as (g1 & Hrg1 & Hwf' & _).
  rewrite Hrg in Hrg1. injection Hrg1 as <-.
  unfold get_detection_webs. rewrite Hrg. cbn [mbind result_bind].
  rewrite Hord. cbn [mbind result_bind]. rewrite HM. cbn [mbind result_bind].
  rewrite Hns.
  destruct (hstack_columns (Z.to_nat (ncols M)) basis Hne) as (a & Ha & Hrows).
  { eapply Forall_impl; [exact Hbasis | ]. intros v (Hl & _). simpl. lia. }
  rewrite Ha. cbn [mbind result_bind]. rewrite Hrows.
  destruct (webs_loop im g' basis) with (acc := @nil PauliWeb) as (pws & Hrun & HF).
  { eapply Forall_impl; [exact Hbasis | ]. intros v (Hl & Hb & Hk). simpl.
    apply get_pw_total. by eapply kernel_vector_resolves. }
  exists pws. split; [exact Hrun | exact HF].
Qed.

Lemma get_detection_webs_returns_witness :
  ∃ pws, get_detection_webs F2.nullspace square_in = Ok pws ∧
         Forall2 (λ v pw, get_pw (list_to_map [(0, 0); (1, 1); (2, 2); (3, 3)]) v square_in
                          = Ok pw) [[0; 0; 1; 0; 1]] pws.
Proof.
  apply (get_detection_webs_returns F2.nullspace square_in square_in [0; 1; 2; 3]
           (list_to_map [(0, 0); (1, 1); (2, 2); (3, 3)])
           (mkArray 5 [[1; 0; 1; 0; 1]; [0; 1; 0; 1; 0]; [0; 0; 1; 0; 1];
                       [0; 1; 0; 1; 0]; [1; 0; 0; 0; 0]; [0; 1; 0; 0; 0]])
           [[0; 0; 1; 0; 1]]).
  - apply (bool_decide_unpack _). vm_compute. exact I.
  - vm_compute. reflexivity.
  - vm_compute. reflexivity.
  - vm_compute. reflexivity.
  - vm_compute. reflexivity.
  - discriminate.
  - apply (bool_decide_unpack _). vm_compute. exact I.
Defined.


(** ** Loading a diagram *)

Lemma del_adj_Ok d s t d' :
  del_adj d s t = Ok d' → t ∈ default [] (dict_get d s).
Proof.
  unfold del_adj. destruct (dict_get d s) as [a | ]; [ | done].
  cbn [subscript mbind result_bind default]. by case_decide.
Qed.

Lemma remove_edge_wf g s t g' :
  wf g → remove_edge g (s, t) = Ok g' →
  wf g' ∧ vertices g' = vertices g ∧ same_meta g' g ∧
  ∀ x y, y ∈ nbrs g' x → y ∈ nbrs g x.
Proof.
  intros Hwf Hrun.
  assert (Hst : t ∈ nbrs g s).
  { unfold remove_edge in Hrun. apply bind_Ok in Hrun as (d1 & Hd1 & _).
    by apply del_adj_Ok in Hd1. }
  pose proof Hwf as (Hnd & Hty & Hn & Hsym)%wf_facts.
  destruct (Hsym _ _ Hst) as [Hne Hts].
  destruct (remove_edge_spec g s t Hst Hts) as (g1 & Hrun1 & Hv & Hmeta & Hnb);
    [done | ].
  rewrite Hrun in Hrun1. injection Hrun1 as <-.
  assert (Hadj : ∀ x y, y ∈ nbrs g' x ↔
            y ∈ nbrs g x ∧ ¬ (x = s ∧ y = t) ∧ ¬ (x = t ∧ y = s)).
  { intros x y. rewrite Hnb. repeat case_decide; subst;
      rewrite ?list_elem_of_filter; naive_solver. }
  split; [ | split; [done | split; [done | ]]].
  - destruct Hmeta as (Ht & Hi & _). apply wf_facts. split; [by rewrite Hv | ].
    split; [ | split].
    + intros x Hx. rewrite Ht, Hi. apply Hty. by rewrite <- Hv.
    + intros x. rewrite Hnb. repeat case_decide; try apply NoDup_filter; done.
    + intros x y Hxy. apply Hadj in Hxy as (Hxy & ? & ?).
      destruct (Hsym _ _ Hxy). split; [done | ]. apply Hadj. naive_solver.
  - intros x y Hxy. by apply Hadj in Hxy as (? & _).
Qed.

Lemma add_edge_wf g e g' :
  wf g → add_edge g e = Ok g' →
  wf g' ∧ vertices g' = vertices g ∧ same_meta g' g ∧
  ∀ x y, y ∈ nbrs g' x →
         y ∈ nbrs g x ∨ (x = e.1 ∧ y = e.2) ∨ (x = e.2 ∧ y = e.1).
Proof.
  intros Hwf Hrun. destruct e as [s t]. cbn [fst snd].
  assert (Hsame : wf g ∧ vertices g = vertices g ∧ same_meta g g ∧
            ∀ x y, y ∈ nbrs g x → y ∈ nbrs g x ∨ (x = s ∧ y = t) ∨ (x = t ∧ y = s)).
  { split; [done | ]. split; [done | ]. split; [done | ]. auto. }
  unfold add_edge in Hrun. cbn [fst snd] in Hrun.
  apply bind_Ok in Hrun as (t1 & Ht1 & Hrun).
  apply bind_Ok in Hrun as (t2 & Ht2 & Hrun).
  unfold ty_at in Ht1, Ht2.
  destruct (ty g !! s) as [c1 | ] eqn:E1; [ | done].
  destruct (ty g !! t) as [c2 | ] eqn:E2; [ | done].
  case_decide as Hne.
  { case_decide; [ | done]. by injection Hrun as <-. }
  apply bind_Ok in Hrun as (a & Ha & Hrun).
  destruct (dict_get (graph g) s) as [a' | ] eqn:Es; [ | done]. injection Ha as ->.
  assert (Hvs : s ∈ vertices g) by (apply dict_get_is_Some; eauto).
  assert (Hns : nbrs g s = a) by (unfold nbrs; by rewrite Es).
  case_decide as Hta.
  { case_decide; [by injection Hrun as <- | ].
    case_decide; cycle 1.
    { case_decide; [by injection Hrun as <- | done]. }
    destruct (remove_edge_wf g s t g' Hwf Hrun) as (? & ? & ? & Hsub).
    split; [done | ]. split; [done | ]. split; [done | ]. auto. }
  apply bind_Ok in Hrun as (d1 & Hd1 & Hrun).
  apply bind_Ok in Hrun as (d2 & Hd2 & Hrun).
  pose proof Hwf as (Hnd & Hty & Hn & Hsym)%wf_facts.
  assert (Hvt : t ∈ vertices g).
  { unfold put_adj in Hd1. rewrite Es in Hd1. injection Hd1 as <-.
    unfold put_adj in Hd2. apply bind_Ok in Hd2 as (b & Hb & _).
    rewrite dict_get_set, decide_False in Hb by done.
    destruct (dict_get (graph g) t) eqn:Et; [ | done].
    apply dict_get_is_Some. eauto. }
  assert (Hnst : t ∉ nbrs g s) by (by rewrite Hns).
  assert (Hnts : s ∉ nbrs g t) by (intros H'; by apply Hsym in H' as [_ ?]).
  destruct (add_edge_spec g s t Hne) as (g1 & Hrun1 & Hv & Hmeta & Hnb); eauto.
  assert (add_edge g (s, t) = Ok g') as Hrun'.
  { unfold add_edge, ty_at. cbn [fst snd]. rewrite E1, E2.
    cbn [subscript mbind result_bind]. rewrite decide_False by done.
    rewrite Es. cbn [subscript mbind result_bind]. rewrite decide_False by done.
    rewrite Hd1. cbn [mbind result_bind]. rewrite Hd2. done. }
  rewrite Hrun' in Hrun1. injection Hrun1 as <-.
  assert (Hadj : ∀ x y, y ∈ nbrs g' x ↔
            y ∈ nbrs g x ∨ (x = s ∧ y = t) ∨ (x = t ∧ y = s)).
  { intros x y. rewrite Hnb. repeat case_decide; subst;
      rewrite ?elem_of_app, ?list_elem_of_singleton; naive_solver. }
  split; [ | split; [done | split; [done | ]]].
  - destruct Hmeta as (Ht & Hi & _). apply wf_facts. split; [by rewrite Hv | ].
    split; [ | split].
    + intros x Hx. rewrite Ht, Hi. apply Hty. by rewrite <- Hv.
    + intros x. rewrite Hnb. repeat case_decide; subst; try done.
      * apply NoDup_app. split; [done | ]. split; [ | apply NoDup_singleton].
        intros y Hy ->%list_elem_of_singleton. done.
      * apply NoDup_app. split; [done | ]. split; [ | apply NoDup_singleton].
        intros y Hy ->%list_elem_of_singleton. done.
    + intros x y Hxy. apply Hadj in Hxy as [Hxy | [[-> ->] | [-> ->]]].
      * destruct (Hsym _ _ Hxy). split; [done | ]. apply Hadj. auto.
      * split; [done | ]. apply Hadj. auto.
      * split; [done | ]. apply Hadj. auto.
  - intros x y Hxy. by apply Hadj.
Qed.

Lemma enumerate_lookup (x : Qc) (l : list Qc) :
  ∀ base (m0 : gmap Qc Z), NoDup l →
    let m := foldl (λ (m : gmap Qc Z) nx, <[nx.2 := nx.1]> m) m0
                   (zip (seqZ base (Z.of_nat (length l))) l) in
    (∀ i, l !! i = Some x → m !! x = Some (base + Z.of_nat i)) ∧
    (x ∉ l → m !! x = m0 !! x).
Proof.
  induction l as [|y l IH]; intros base m0 Hnd m.
  - split; [intros i Hi; by rewrite lookup_nil in Hi | done].
  - apply NoDup_cons in Hnd as [Hy Hnd]. unfold m.
    rewrite seqZ_cons by (simpl; lia).
    replace (Z.pred (Z.of_nat (length (y :: l)))) with (Z.of_nat (length l))
      by (simpl; lia).
    cbn [zip zip_with foldl fst snd].
    destruct (IH (Z.succ base) (<[y := base]> m0) Hnd) as [IH1 IH2].
    split.
    + intros [|i] Hi; simpl in Hi.
      * injection Hi as ->. rewrite IH2 by done.
        rewrite lookup_insert_eq. f_equal. lia.
      * rewrite (IH1 i Hi). f_equal. lia.
    + intros [Hne Hx]%not_elem_of_cons. rewrite IH2 by done.
      by rewrite lookup_insert_ne.
Qed.

Lemma filter_none {A : Type} (P : A → Prop) `{∀ x, Decision (P x)} (l : list A) :
  Forall (λ x, ¬ P x) l → filter P l = [].
Proof.
  induction 1 as [|x l Hx Hl IH]; [done | ].
  by rewrite filter_cons, decide_False.
Qed.

Lemma sorted_rank (x : Qc) (l : list Qc) :
  ∀ i, StronglySorted Qcle l → NoDup l → l !! i = Some x →
       length (filter (λ z, Qclt z x) l) = i.
Proof.
  induction l as [|y l IH]; intros i Hs Hnd Hi; [by rewrite lookup_nil in Hi | ].
  apply StronglySorted_inv in Hs as [Hs Hall].
  apply NoDup_cons in Hnd as [Hy Hnd]. rewrite filter_cons.
  destruct i as [|i]; simpl in Hi.
  - injection Hi as ->. rewrite decide_False by apply (irreflexivity Qclt).
    rewrite filter_none; [done | ].
    eapply Forall_impl; [exact Hall | ]. intros z Hz. simpl.
    by apply Qcle_not_lt.
  - assert (Hx : x ∈ l) by (by eapply list_elem_of_lookup_2).
    rewrite Forall_forall in Hall. pose proof (Hall x Hx) as Hle.
    rewrite decide_True.
    + simpl. f_equal. by apply IH.
    + apply Qcle_lt_or_eq in Hle as [? | ->]; [done | done].
Qed.

(** The coordinate dictionary of [load_graph] sends every coordinate of the
    file to the number of coordinates below it. *)
Lemma cood_map_lookup (cods : gset Qc) (x : Qc) :
  Loader.cood_map cods !! x = if decide (x ∈ cods) then Some (rank cods x) else None.
Proof.
  unfold Loader.cood_map.
  set (l := merge_sort Qcle (elements cods)).
  assert (Hperm : l ≡ₚ elements cods) by apply merge_sort_Permutation.
  assert (Hnd : NoDup l) by (rewrite Hperm; apply NoDup_elements).
  assert (Hs : StronglySorted Qcle l) by apply (StronglySorted_merge_sort _).
  destruct (enumerate_lookup x l 0 ∅ Hnd) as [H1 H2].
  case_decide as Hx.
  - assert (Hxl : x ∈ l) by (rewrite Hperm; by apply elem_of_elements).
    apply list_elem_of_lookup in Hxl as [i Hi].
    rewrite (H1 i Hi). f_equal. unfold rank.
    rewrite <- Hperm. rewrite (sorted_rank x l i Hs Hnd Hi). lia.
  - rewrite H2; [apply lookup_empty | ].
    rewrite Hperm. by rewrite elem_of_elements.
Qed.

Lemma seqZ_snoc (k : Z) : 0 ≤ k → seqZ 0 (k + 1) = seqZ 0 k ++ [k].
Proof.
  intros Hk. rewrite seqZ_app by lia. reflexivity.
Qed.

(** One of the two vertex loops of [load_graph], over items with a name, a
    coordinate pair and a type. *)
Section vertex_loop.

Context {A : Type} (nm : A → string) (cd : A → Qc * Qc) (tf : A → Z)
        (ph : A → result unit).
Variables xm ym : gmap Qc Z.

Lemma add_named_Ok g (ids : gmap string Z) item g' (ids' : gmap string Z) :
  bare g →
  Loader.add_named xm ym (tf item) (ph item) (g, ids) (nm item) (cd item)
  = Ok (g', ids') →
  bare g' ∧ vindex g' = vindex g + 1 ∧ ids' = <[nm item := vindex g]> ids ∧
  ty g' = <[vindex g := tf item]> (ty g) ∧ ph item = Ok tt ∧
  ∃ r q, xm !! (cd item).1 = Some r ∧ ym !! (cd item).2 = Some q ∧
         rindex g' = <[vindex g := inject_Z r]> (rindex g) ∧
         qindex g' = <[vindex g := inject_Z q]> (qindex g).
Proof.
  intros (Hv & Hk & Hn & Hin & Hout & Hty) Hrun. unfold Loader.add_named in Hrun.
  apply bind_Ok in Hrun as (r & Hr & Hrun).
  apply bind_Ok in Hrun as (q & Hq & Hrun).
  apply bind_Ok in Hrun as ([] & Hph & Hrun).
  destruct (xm !! (cd item).1) as [r' | ] eqn:Er; [ | done]. injection Hr as ->.
  destruct (ym !! (cd item).2) as [q' | ] eqn:Eq; [ | done]. injection Hq as ->.
  cbn [fst add_vertex] in Hrun. injection Hrun as <- <-.
  split; [ | split; [done | split; [done | split; [done | split; [done | eauto 10]]]]].
  unfold bare. cbn [vindex inputs outputs ty].
  assert (Hfresh : vindex g ∉ (graph g).*1).
  { fold (vertices g). rewrite Hv. intros ?%elem_of_seqZ. lia. }
  split; [ | split; [lia | split; [ | split; [done | split; [done | ]]]]].
  - unfold vertices. cbn [graph]. rewrite dict_set_keys_notin by done.
    fold (vertices g). rewrite Hv. by rewrite seqZ_snoc.
  - intros v. unfold nbrs. cbn [graph]. rewrite dict_get_set.
    case_decide; [done | apply Hn].
  - intros v Hv'. destruct (decide (v = vindex g)) as [-> | ?].
    + rewrite lookup_insert_eq. eauto.
    + rewrite lookup_insert_ne by done. apply Hty. lia.
Qed.

Lemma add_named_loop (l : list A) :
  ∀ g (ids : gmap string Z) g' (ids' : gmap string Z),
    bare g →
    for_each l (λ st item, Loader.add_named xm ym (tf item) (ph item) st (nm item)
                             (cd item))
      (g, ids) = Ok (g', ids') →
    bare g' ∧ vindex g' = vindex g + Z.of_nat (length l) ∧
    Forall (λ item, ph item = Ok tt) l ∧
    (∀ v, v < vindex g →
          ty g' !! v = ty g !! v ∧ rindex g' !! v = rindex g !! v
          ∧ qindex g' !! v = qindex g !! v) ∧
    (∀ k item, l !! k = Some item →
       ty g' !! (vindex g + Z.of_nat k) = Some (tf item) ∧
       ∃ r q, xm !! (cd item).1 = Some r ∧ ym !! (cd item).2 = Some q ∧
              rindex g' !! (vindex g + Z.of_nat k) = Some (inject_Z r) ∧
              qindex g' !! (vindex g + Z.of_nat k) = Some (inject_Z q)) ∧
    (∀ name v, ids' !! name = Some v →
       ids !! name = Some v ∨
       ∃ k item, l !! k = Some item ∧ nm item = name ∧ v = vindex g + Z.of_nat k) ∧
    (NoDup (nm <$> l) → ∀ k item, l !! k = Some item →
       ids' !! nm item = Some (vindex g + Z.of_nat k)) ∧
    (∀ name, name ∉ nm <$> l → ids' !! name = ids !! name).
Proof.
  induction l as [|a l IH]; intros g ids g' ids' Hb Hrun.
  - injection Hrun as <- <-. split; [done | ]. split; [simpl; lia | ].
    split; [constructor | ].
    split; [done | ]. split; [intros k item Hk; by rewrite lookup_nil in Hk | ].
    split; [auto | ]. split; [ | done].
    intros _ k item Hk. by rewrite lookup_nil in Hk.
  - cbn [for_each] in Hrun. apply bind_Ok in Hrun as ([g1 ids1] & Hstep & Hrun).
    destruct (add_named_Ok g ids a g1 ids1 Hb Hstep)
      as (Hb1 & Hi1 & -> & Ht1 & Hph1 & r & q & Hr & Hq & Hr1 & Hq1).
    destruct (IH g1 _ g' ids' Hb1 Hrun)
      as (Hb' & Hi' & Hph & Hold & Hnew & Hids & Hnd & Hout).
    destruct Hb as (_ & Hk0 & _).
    split; [done | ]. split; [rewrite Hi', Hi1, length_cons; lia | ].
    split; [by constructor | ].
    split; [ | split; [ | split; [ | split]]].
    + intros v Hv. destruct (Hold v) as (-> & -> & ->); [lia | ].
      rewrite Ht1, Hr1, Hq1, !lookup_insert_ne by lia. done.
    + intros [|k] item Hk; simpl in Hk.
      * injection Hk as ->.
        replace (vindex g + Z.of_nat 0) with (vindex g) by lia.
        destruct (Hold (vindex g)) as (-> & -> & ->); [lia | ].
        rewrite Ht1, Hr1, Hq1, !lookup_insert_eq. eauto 10.
      * destruct (Hnew k item Hk) as (Ht & r' & q' & ? & ? & Hr' & Hq').
        rewrite Hi1 in Ht, Hr', Hq'.
        replace (vindex g + Z.of_nat (S k)) with (vindex g + 1 + Z.of_nat k) by lia.
        eauto 10.
    + intros name v Hv. destruct (Hids name v Hv) as [Hv1 | (k & item & Hk & Hn & ->)].
      * destruct (decide (nm a = name)) as [<- | Hne].
        -- rewrite lookup_insert_eq in Hv1. injection Hv1 as <-.
           right. exists 0%nat, a. split; [done | ]. split; [done | lia].
        -- rewrite lookup_insert_ne in Hv1 by done. by left.
      * right. exists (S k), item. split; [done | ]. split; [done | lia].
    + intros Hnd' [|k] item Hk; simpl in Hk.
      * injection Hk as ->. rewrite fmap_cons in Hnd'.
        apply NoDup_cons in Hnd' as [Hna _].
        rewrite Hout by done. rewrite lookup_insert_eq. f_equal. lia.
      * rewrite fmap_cons in Hnd'. apply NoDup_cons in Hnd' as [_ Hnd'].
        rewrite (Hnd Hnd' k item Hk). f_equal. lia.
    + intros name Hn. rewrite fmap_cons in Hn. apply not_elem_of_cons in Hn as [Hne Hn].
      rewrite Hout by done. by rewrite lookup_insert_ne.
Qed.

End vertex_loop.

(** The edge loop keeps the graph well formed, keeps its vertices and
    types, and adds edges between vertices that an entry names only. *)
Lemma add_named_edge_loop (ids : gmap string Z) (l : list (string * (string * string))) :
  ∀ g g', wf g → for_each l (Loader.add_named_edge ids) g = Ok g' →
    wf g' ∧ vertices g' = vertices g ∧ same_meta g' g ∧
    Forall (λ item, is_Some (ids !! item.2.1) ∧ is_Some (ids !! item.2.2)) l ∧
    ∀ x y, y ∈ nbrs g' x →
      y ∈ nbrs g x ∨
      ∃ item, item ∈ l ∧
        ((ids !! item.2.1 = Some x ∧ ids !! item.2.2 = Some y) ∨
         (ids !! item.2.1 = Some y ∧ ids !! item.2.2 = Some x)).
Proof.
  induction l as [|e l IH]; intros g g' Hwf Hrun.
  - injection Hrun as <-. split; [done | ]. split; [done | ].
    split; [by repeat split | ]. split; [constructor | auto].
  - cbn [for_each] in Hrun. apply bind_Ok in Hrun as (g1 & Hstep & Hrun).
    unfold Loader.add_named_edge in Hstep.
    apply bind_Ok in Hstep as (s & Hs & Hstep).
    apply bind_Ok in Hstep as (t & Ht & Hstep).
    destruct (ids !! e.2.1) as [s' | ] eqn:Es; [ | done]. injection Hs as ->.
    destruct (ids !! e.2.2) as [t' | ] eqn:Et; [ | done]. injection Ht as ->.
    destruct (add_edge_wf g (s, t) g1 Hwf Hstep) as (Hwf1 & Hv1 & Hm1 & Hadj1).
    destruct (IH g1 g' Hwf1 Hrun) as (Hwf' & Hv' & Hm' & Hall & Hadj').
    split; [done | ]. split; [congruence | ]. split.
    { destruct Hm1 as (? & ? & ? & ?), Hm' as (? & ? & ? & ?).
      repeat split; congruence. }
    split; [constructor; [rewrite Es, Et; eauto | done] | ].
    intros x y Hxy. destruct (Hadj' x y Hxy) as [Hxy1 | (item & Hin & Hitem)].
    + destruct (Hadj1 x y Hxy1) as [? | [[-> ->] | [-> ->]]]; [by left | | ];
        right; exists e; (split; [left | ]); cbn [fst snd]; auto.
    + right. exists item. split; [by right | done].
Qed.


Lemma cods_elem {B : Type} (f : B → Qc) (l : list B) :
  ∀ (s : gset Qc) x,
    x ∈ foldl (λ s c, {[f c]} ∪ s) s l ↔ x ∈ s ∨ ∃ c, c ∈ l ∧ f c = x.
Proof.
  induction l as [|a l IH]; intros s x; simpl.
  - split; [auto | ]. intros [? | (c & Hc & _)]; [done | inversion Hc].
  - rewrite IH. split.
    + intros [[->%elem_of_singleton | ?]%elem_of_union | (c & Hc & <-)].
      * right. exists a. split; [left | done].
      * by left.
      * right. exists c. split; [by right | done].
    + intros [? | (c & Hc & <-)].
      * left. set_solver.
      * apply elem_of_cons in Hc as [-> | Hc]; [left; set_solver | right; eauto].
Qed.

Lemma add_named_step {A : Type} (nm : A → string) (cd : A → Qc * Qc)
    (tf : A → Z) (ph : A → result unit) (xm ym : gmap Qc Z) (a : A) st r q :
  xm !! (cd a).1 = Some r → ym !! (cd a).2 = Some q →
  Loader.add_named xm ym (tf a) (ph a) st (nm a) (cd a)
  = match ph a with
    | Ok _ => Ok ((add_vertex st.1 (tf a) (inject_Z q) (inject_Z r)).1,
                  <[nm a := vindex st.1]> st.2)
    | Raise e => Raise e
    end.
Proof.
  intros Hr Hq. unfold Loader.add_named. rewrite Hr, Hq.
  by destruct (ph a).
Qed.

Lemma add_named_loop_total {A : Type} (nm : A → string) (cd : A → Qc * Qc)
    (tf : A → Z) (ph : A → result unit) (xm ym : gmap Qc Z) (l : list A) :
  Forall (λ item, is_Some (xm !! (cd item).1) ∧ is_Some (ym !! (cd item).2)) l →
  Forall (λ item, ph item = Ok tt) l →
  ∀ st, ∃ st',
    for_each l (λ st item, Loader.add_named xm ym (tf item) (ph item) st (nm item)
                             (cd item)) st
    = Ok st'.
Proof.
  induction 1 as [|a l [[r Hr] [q Hq]] _ IH]; intros Hph st.
  - by eexists.
  - apply Forall_cons in Hph as [Ha Hph].
    cbn [for_each]. rewrite (add_named_step nm cd tf ph xm ym a st r q Hr Hq), Ha.
    by apply IH.
Qed.

(** The vertex loop stops at the first item whose phase the library
    refuses, with the exception of the library. *)
Lemma add_named_loop_refused {A : Type} (nm : A → string) (cd : A → Qc * Qc)
    (tf : A → Z) (ph : A → result unit) (xm ym : gmap Qc Z) (l1 l2 : list A) a e :
  Forall (λ item, is_Some (xm !! (cd item).1) ∧ is_Some (ym !! (cd item).2))
         (l1 ++ a :: l2) →
  Forall (λ item, ph item = Ok tt) l1 → ph a = Raise e →
  ∀ st,
    for_each (l1 ++ a :: l2)
      (λ st item, Loader.add_named xm ym (tf item) (ph item) st (nm item) (cd item)) st
    = Raise e.
Proof.
  intros Hc Hph Ha. induction l1 as [|b l1 IH]; intros st.
  - apply Forall_cons in Hc as [[[r Hr] [q Hq]] _].
    cbn [app for_each]. by rewrite (add_named_step nm cd tf ph xm ym a st r q Hr Hq), Ha.
  - apply Forall_cons in Hc as [[[r Hr] [q Hq]] Hc].
    apply Forall_cons in Hph as [Hb Hph].
    cbn [app for_each]. rewrite (add_named_step nm cd tf ph xm ym b st r q Hr Hq), Hb.
    by apply IH.
Qed.

Lemma bare_empty : bare Loader.empty_graph.
Proof.
  unfold bare. cbn. split; [done | ]. split; [done | ]. split; [done | ].
  split; [done | ]. split; [done | ]. intros v ?. lia.
Qed.

Lemma bare_wf g : bare g → wf g.
Proof.
  intros (Hv & Hk & Hn & _ & _ & Hty). apply wf_facts.
  split; [rewrite Hv; apply NoDup_seqZ | ]. split; [ | split].
  - intros s Hs. rewrite Hv in Hs. apply elem_of_seqZ in Hs.
    split; [apply Hty; lia | lia].
  - intros s. rewrite Hn. constructor.
  - intros s t Ht. rewrite Hn in Ht. inversion Ht.
Qed.

Lemma coords_lookup data c :
  c ∈ Loader.coords data →
  Loader.cood_map (Loader.xcods data) !! c.1 = Some (rank (Loader.xcods data) c.1) ∧
  Loader.cood_map (Loader.ycods data) !! c.2 = Some (rank (Loader.ycods data) c.2).
Proof.
  intros Hc. rewrite !cood_map_lookup.
  rewrite !decide_True; [done | | ].
  - apply cods_elem. right. by exists c.
  - apply cods_elem. right. by exists c.
Qed.

Lemma load_vertices set_phase data :
  accepted set_phase data →
  ∃ g0 ids,
    load_graph_ids set_phase data
    = (g ← for_each (undir_edges data) (Loader.add_named_edge ids) g0; Ok (g, ids)) ∧
    bare g0 ∧ vindex g0 = Z.of_nat (length (names data)) ∧
    (∀ k t, types data !! k = Some t → ty g0 !! Z.of_nat k = Some t) ∧
    (∀ k c, Loader.coords data !! k = Some c →
       rindex g0 !! Z.of_nat k = Some (inject_Z (rank (Loader.xcods data) c.1)) ∧
       qindex g0 !! Z.of_nat k = Some (inject_Z (rank (Loader.ycods data) c.2))) ∧
    (∀ name v, ids !! name = Some v →
       0 ≤ v ∧ names data !! Z.to_nat v = Some name) ∧
    (NoDup (names data) → ∀ k name, names data !! k = Some name →
       ids !! name = Some (Z.of_nat k)).
Proof.
  intros Hacc.
  set (xm := Loader.cood_map (Loader.xcods data)).
  set (ym := Loader.cood_map (Loader.ycods data)).
  assert (Hin : ∀ c, c ∈ Loader.coords data →
            xm !! c.1 = Some (rank (Loader.xcods data) c.1) ∧
            ym !! c.2 = Some (rank (Loader.ycods data) c.2)).
  { intros c Hc. by apply coords_lookup. }
  assert (Hval : ∀ c, c ∈ Loader.coords data → ∀ r q,
            xm !! c.1 = Some r → ym !! c.2 = Some q →
            r = rank (Loader.xcods data) c.1 ∧ q = rank (Loader.ycods data) c.2).
  { intros c Hc r q Hr Hq. destruct (Hin c Hc) as [Hr' Hq']. split; congruence. }
  assert (Hw : ∀ item, item ∈ wire_vertices data → item.2 ∈ Loader.coords data).
  { intros item Hi. unfold Loader.coords. apply elem_of_app. left.
    apply list_elem_of_fmap. by exists item. }
  assert (Hn : ∀ item, item ∈ node_vertices data → item.2.1 ∈ Loader.coords data).
  { intros item Hi. unfold Loader.coords. apply elem_of_app. right.
    apply list_elem_of_fmap. by exists item. }
  set (ph := λ item : string * ((Qc * Qc) * (string * option json)),
               set_phase (Loader.v_type item.2.2.1) (Loader.v_val item.2.2.2)).
  destruct (add_named_loop_total fst snd (λ _, 0) (λ _, Ok tt) xm ym (wire_vertices data))
    with (st := (Loader.empty_graph, (∅ : gmap string Z))) as [[g1 ids1] H1].
  { apply Forall_forall. intros item Hi. destruct (Hin _ (Hw item Hi)) as [-> ->]. eauto. }
  { by apply Forall_forall. }
  destruct (add_named_loop_total fst (λ item, item.2.1) (λ item, Loader.v_type item.2.2.1)
              ph xm ym (node_vertices data)) with (st := (g1, ids1)) as [[g2 ids2] H2].
  { apply Forall_forall. intros item Hi. destruct (Hin _ (Hn item Hi)) as [-> ->]. eauto. }
  { exact Hacc. }
  destruct (add_named_loop fst snd (λ _, 0) (λ _, Ok tt) xm ym (wire_vertices data)
              Loader.empty_graph ∅ g1 ids1 bare_empty H1)
    as (Hb1 & Hi1 & _ & _ & Hnew1 & Hids1 & Hnd1 & Hout1).
  destruct (add_named_loop fst (λ item, item.2.1) (λ item, Loader.v_type item.2.2.1)
              ph xm ym (node_vertices data) g1 ids1 g2 ids2 Hb1 H2)
    as (Hb2 & Hi2 & _ & Hold2 & Hnew2 & Hids2 & Hnd2 & Hout2).
  cbn [vindex Loader.empty_graph] in *.
  exists g2, ids2. split.
  { unfold load_graph_ids. cbn zeta. fold xm ym. rewrite H1. cbn [mbind result_bind].
    unfold ph in H2. rewrite H2. reflexivity. }
  split; [done | ]. split.
  { rewrite Hi2, Hi1. unfold names. rewrite length_app, !length_fmap. lia. }
  split; [ | split; [ | split]].
  - intros k t Hk. unfold types in Hk. apply lookup_app_Some in Hk as [Hk | [Hle Hk]].
    + apply list_lookup_fmap_Some in Hk as (item & -> & Hk).
      destruct (Hnew1 k item Hk) as [Ht _].
      destruct (Hold2 (Z.of_nat k)) as (-> & _).
      { apply lookup_lt_Some in Hk. lia. }
      by rewrite Z.add_0_l in Ht.
    + rewrite length_fmap in Hle, Hk.
      apply list_lookup_fmap_Some in Hk as (item & -> & Hk).
      destruct (Hnew2 _ item Hk) as [Ht _].
      replace (vindex g1 + Z.of_nat (k - length (wire_vertices data))) with (Z.of_nat k)
        in Ht by lia. done.
  - intros k c Hk. unfold Loader.coords in Hk.
    apply lookup_app_Some in Hk as [Hk | [Hle Hk]].
    + apply list_lookup_fmap_Some in Hk as (item & -> & Hk).
      destruct (Hnew1 k item Hk) as (_ & r & q & Hr & Hq & Hrow & Hqub).
      destruct (Hval item.2 (Hw _ (list_elem_of_lookup_2 _ _ _ Hk)) r q Hr Hq) as [-> ->].
      destruct (Hold2 (Z.of_nat k)) as (_ & -> & ->).
      { apply lookup_lt_Some in Hk. lia. }
      by rewrite Z.add_0_l in Hrow, Hqub.
    + rewrite length_fmap in Hle, Hk.
      apply list_lookup_fmap_Some in Hk as (item & -> & Hk).
      destruct (Hnew2 _ item Hk) as (_ & r & q & Hr & Hq & Hrow & Hqub).
      cbn [compose] in *.
      destruct (Hval item.2.1 (Hn _ (list_elem_of_lookup_2 _ _ _ Hk)) r q Hr Hq) as [-> ->].
      replace (vindex g1 + Z.of_nat (k - length (wire_vertices data))) with (Z.of_nat k)
        in Hrow, Hqub by lia. done.
  - intros name v Hv. unfold names.
    destruct (Hids2 name v Hv) as [Hv1 | (k & item & Hk & <- & ->)].
    + destruct (Hids1 name v Hv1) as [Hv0 | (k & item & Hk & <- & ->)].
      * by rewrite lookup_empty in Hv0.
      * split; [lia | ]. rewrite Z.add_0_l, Nat2Z.id.
        apply lookup_app_Some. left. by rewrite list_lookup_fmap, Hk.
    + split; [lia | ]. rewrite Hi1, Z.add_0_l.
      replace (Z.to_nat (Z.of_nat (length (wire_vertices data)) + Z.of_nat k))
        with (length (fst <$> wire_vertices data) + k)%nat
        by (rewrite length_fmap; lia).
      rewrite lookup_app_r by lia.
      replace (length (fst <$> wire_vertices data) + k - length (fst <$> wire_vertices data))%nat
        with k by lia.
      by rewrite list_lookup_fmap, Hk.
  - intros Hnd k name Hk. unfold names in Hnd, Hk.
    apply NoDup_app in Hnd as (Hndw & Hdisj & Hndn).
    apply lookup_app_Some in Hk as [Hk | [Hle Hk]].
    + apply list_lookup_fmap_Some in Hk as (item & -> & Hk).
      rewrite Hout2.
      * by rewrite (Hnd1 Hndw k item Hk).
      * apply Hdisj. apply list_elem_of_fmap. exists item.
        split; [done | by eapply list_elem_of_lookup_2].
    + rewrite length_fmap in Hle, Hk.
      apply list_lookup_fmap_Some in Hk as (item & -> & Hk).
      rewrite (Hnd2 Hndn _ item Hk). f_equal. lia.
Qed.


Lemma remove_edge_pos g e g' :
  remove_edge g e = Ok g' → rindex g' = rindex g ∧ qindex g' = qindex g.
Proof.
  unfold remove_edge. intros Hrun.
  apply bind_Ok in Hrun as (d1 & _ & Hrun).
  apply bind_Ok in Hrun as (d2 & _ & Hrun).
  by injection Hrun as <-.
Qed.

Lemma add_edge_pos g e g' :
  add_edge g e = Ok g' → rindex g' = rindex g ∧ qindex g' = qindex g.
Proof.
  unfold add_edge. intros Hrun.
  apply bind_Ok in Hrun as (t1 & _ & Hrun).
  apply bind_Ok in Hrun as (t2 & _ & Hrun).
  case_decide.
  { case_decide; [ | done]. by injection Hrun as <-. }
  apply bind_Ok in Hrun as (a & _ & Hrun).
  case_decide.
  { case_decide; [by injection Hrun as <- | ].
    case_decide; [by apply remove_edge_pos in Hrun | ].
    case_decide; [by injection Hrun as <- | done]. }
  apply bind_Ok in Hrun as (d1 & _ & Hrun).
  apply bind_Ok in Hrun as (d2 & _ & Hrun).
  by injection Hrun as <-.
Qed.

Lemma add_named_edge_loop_pos (ids : gmap string Z) l :
  ∀ g g', for_each l (Loader.add_named_edge ids) g = Ok g' →
          rindex g' = rindex g ∧ qindex g' = qindex g.
Proof.
  induction l as [|e l IH]; intros g g' Hrun.
  - by injection Hrun as <-.
  - cbn [for_each] in Hrun. apply bind_Ok in Hrun as (g1 & Hstep & Hrun).
    unfold Loader.add_named_edge in Hstep.
    apply bind_Ok in Hstep as (s & _ & Hstep).
    apply bind_Ok in Hstep as (t & _ & Hstep).
    apply add_edge_pos in Hstep as [<- <-]. by apply IH.
Qed.

Lemma filter_length_le {A : Type} (P Q : A → Prop)
    `{!∀ x, Decision (P x), !∀ x, Decision (Q x)} (l : list A) :
  (∀ x, P x → Q x) → (length (filter P l) ≤ length (filter Q l))%nat.
Proof.
  intros HPQ. induction l as [|a l IH]; [done | ].
  rewrite !filter_cons. repeat case_decide; simpl; try lia.
  exfalso; auto.
Qed.

Lemma filter_length_lt {A : Type} (P Q : A → Prop)
    `{!∀ x, Decision (P x), !∀ x, Decision (Q x)} (l : list A) (a : A) :
  (∀ x, P x → Q x) → a ∈ l → Q a → ¬ P a →
  (length (filter P l) < length (filter Q l))%nat.
Proof.
  intros HPQ Ha HQ HP. induction l as [|b l IH]; [inversion Ha | ].
  rewrite !filter_cons. apply elem_of_cons in Ha as [<- | Ha].
  - rewrite decide_False, decide_True by done. simpl.
    pose proof (filter_length_le P Q l HPQ). lia.
  - specialize (IH Ha). repeat case_decide; simpl; try lia.
    exfalso; auto.
Qed.

(** The rank is an order embedding of the coordinates of the set. *)
Lemma rank_lt (cods : gset Qc) (x x' : Qc) :
  x ∈ cods → (Qclt x x' ↔ rank cods x < rank cods x').
Proof.
  intros Hx. unfold rank. split.
  - intros Hlt. apply inj_lt.
    apply (filter_length_lt _ _ _ x).
    + intros z Hz. by apply (Qclt_trans _ x).
    + by apply elem_of_elements.
    + done.
    + apply (irreflexivity Qclt).
  - intros Hlt. destruct (decide (Qclt x x')) as [ | Hn]; [done | ].
    apply Qcnot_lt_le in Hn.
    pose proof (filter_length_le (λ z, Qclt z x') (λ z, Qclt z x) (elements cods)) as Hle.
    assert (length (filter (λ z, Qclt z x') (elements cods))
            ≤ length (filter (λ z, Qclt z x) (elements cods)))%nat.
    { apply Hle. intros z Hz. by apply (Qclt_le_trans _ x'). }
    lia.
Qed.

Lemma add_named_edge_loop_simple (ids : gmap string Z)
    (l : list (string * (string * string))) :
  (∀ a b v, ids !! a = Some v → ids !! b = Some v → a = b) →
  Forall (λ item, item.2.1 ≠ item.2.2) l →
  NoDup ((snd <$> l) ++ ((λ item, (item.2.2, item.2.1)) <$> l)) →
  ∀ g, wf g → (∀ name v, ids !! name = Some v → v ∈ vertices g) →
    (∀ item s t, item ∈ l → ids !! item.2.1 = Some s → ids !! item.2.2 = Some t →
                 t ∉ nbrs g s) →
    if decide (Forall (λ item, is_Some (ids !! item.2.1) ∧ is_Some (ids !! item.2.2)) l)
    then ∃ g', for_each l (Loader.add_named_edge ids) g = Ok g' ∧
           ∀ x y, y ∈ nbrs g' x ↔
             y ∈ nbrs g x ∨
             ∃ item, item ∈ l ∧
               ((ids !! item.2.1 = Some x ∧ ids !! item.2.2 = Some y) ∨
                (ids !! item.2.1 = Some y ∧ ids !! item.2.2 = Some x))
    else for_each l (Loader.add_named_edge ids) g = Raise KeyError.
Proof.
  intros Hinj. induction l as [|e l IH]; intros Hloop Hnd g Hwf Hids Hfresh.
  - rewrite decide_True by constructor. exists g. split; [done | ].
    intros x y. split; [auto | ]. intros [? | (item & Hi & _)]; [done | inversion Hi].
  - apply Forall_cons in Hloop as [Hne Hloop].
    assert (Hnd' : NoDup ((snd <$> l) ++ ((λ item, (item.2.2, item.2.1)) <$> l)) ∧
                   ∀ item, item ∈ l → item.2 ≠ e.2 ∧ item.2 ≠ (e.2.2, e.2.1)).
    { rewrite !fmap_cons in Hnd. apply NoDup_app in Hnd as (Hnd1 & Hdisj & Hnd2).
      apply NoDup_cons in Hnd1 as [He1 Hnd1]. apply NoDup_cons in Hnd2 as [He2 Hnd2].
      split.
      - apply NoDup_app. split; [done | ]. split; [ | done].
        intros p Hp Hp'. apply (Hdisj p); [by right | by right].
      - intros item Hi. split.
        + intros Heq. apply He1. rewrite <- Heq. apply list_elem_of_fmap. eauto.
        + intros Heq. apply (Hdisj item.2).
          * right. apply list_elem_of_fmap. eauto.
          * rewrite Heq. left. }
    destruct Hnd' as [Hnd' Hother].
    destruct (ids !! e.2.1) as [s | ] eqn:Es; cycle 1.
    { rewrite decide_False.
      - cbn [for_each]. unfold Loader.add_named_edge. by rewrite Es.
      - intros [[[? ?] _] _]%Forall_cons. congruence. }
    destruct (ids !! e.2.2) as [t | ] eqn:Et; cycle 1.
    { rewrite decide_False.
      - cbn [for_each]. unfold Loader.add_named_edge. by rewrite Es, Et.
      - intros [[_ [? ?]] _]%Forall_cons. congruence. }
    assert (Hst : s ≠ t) by (intros ->; apply Hne; by apply (Hinj _ _ t)).
    pose proof Hwf as (_ & Hty & _ & Hsym)%wf_facts.
    assert (Hts : t ∉ nbrs g s) by (apply (Hfresh e); [left | done | done]).
    assert (Hst' : s ∉ nbrs g t) by (intros H; apply Hts; by apply Hsym in H as [_ ?]).
    destruct (add_edge_spec g s t Hst) as (g1 & Hadd & Hv1 & Hm1 & Hn1);
      [apply Hty; eauto | apply Hty; eauto | eauto | eauto | done | done | ].
    assert (Hstep : Loader.add_named_edge ids g e = Ok g1).
    { unfold Loader.add_named_edge. by rewrite Es, Et. }
    destruct (add_edge_wf g (s, t) g1 Hwf Hadd) as (Hwf1 & _).
    assert (Hmem : ∀ x y, y ∈ nbrs g1 x ↔
                     y ∈ nbrs g x ∨ (x = s ∧ y = t) ∨ (x = t ∧ y = s)).
    { intros x y. rewrite Hn1. repeat case_decide; subst;
        rewrite ?elem_of_app, ?list_elem_of_singleton; naive_solver. }
    specialize (IH Hloop Hnd' g1 Hwf1).
    cbn [for_each]. rewrite Hstep. cbn [mbind result_bind].
    assert (Hids1 : ∀ name v, ids !! name = Some v → v ∈ vertices g1).
    { intros. rewrite Hv1. eauto. }
    assert (Hfresh1 : ∀ item s' t', item ∈ l → ids !! item.2.1 = Some s' →
              ids !! item.2.2 = Some t' → t' ∉ nbrs g1 s').
    { intros item s' t' Hi Hs' Ht' Hin.
      apply Hmem in Hin as [Hin | [[-> ->] | [-> ->]]].
      - apply (Hfresh item s' t'); [by right | done | done | done].
      - destruct (Hother item Hi) as [H1 _]. apply H1.
        pose proof (Hinj _ _ _ Hs' Es). pose proof (Hinj _ _ _ Ht' Et).
        destruct item as [? [? ?]], e as [? [? ?]]. cbn in *. congruence.
      - destruct (Hother item Hi) as [_ H2]. apply H2.
        pose proof (Hinj _ _ _ Hs' Et). pose proof (Hinj _ _ _ Ht' Es).
        destruct item as [? [? ?]], e as [? [? ?]]. cbn in *. congruence. }
    specialize (IH Hids1 Hfresh1).
    destruct (decide (Forall (λ item, is_Some (ids !! item.2.1)
                                      ∧ is_Some (ids !! item.2.2)) l)) as [Hall | Hall].
    + rewrite decide_True by (constructor; [rewrite Es, Et; eauto | done]).
      destruct IH as (g' & Hrun & Hn'). exists g'. split; [done | ].
      intros x y. rewrite Hn', Hmem. split.
      * intros [[? | [[-> ->] | [-> ->]]] | (item & Hi & HJ)].
        -- by left.
        -- right. exists e. split; [left | auto].
        -- right. exists e. split; [left | auto].
        -- right. exists item. split; [by right | done].
      * intros [? | (item & [-> | Hi]%elem_of_cons & HJ)].
        -- left. by left.
        -- left. right. rewrite Es, Et in HJ. naive_solver.
        -- right. eauto.
    + rewrite decide_False; [done | ]. by intros [_ ?]%Forall_cons.
Qed.


Lemma load_graph_accepted set_phase data g :
  load_graph set_phase data = Ok g → accepted set_phase data.
Proof.
  unfold load_graph, load_graph_ids. intros Hrun.
  apply bind_Ok in Hrun as (st & Hrun & _).
  apply bind_Ok in Hrun as ([g1 ids1] & H1 & Hrun).
  apply bind_Ok in Hrun as ([g2 ids2] & H2 & _).
  destruct (add_named_loop fst snd (λ _, 0) (λ _, Ok tt) _ _ (wire_vertices data)
              Loader.empty_graph ∅ g1 ids1 bare_empty H1) as (Hb1 & _).
  destruct (add_named_loop fst (λ item, item.2.1) (λ item, Loader.v_type item.2.2.1)
              (λ item, set_phase (Loader.v_type item.2.2.1) (Loader.v_val item.2.2.2))
              _ _ (node_vertices data) g1 ids1 g2 ids2 Hb1 H2) as (_ & _ & Hph & _).
  exact Hph.
Qed.

(** X20: A node whose phase the graph library refuses ends the loading:
    when the library takes the phases of the nodes before it, [load_graph]
    raises the exception of the library, whatever the edges of the
    document are. *)
Theorem load_graph_refused set_phase data l1 item l2 e :
  node_vertices data = l1 ++ item :: l2 →
  Forall (λ item, set_phase (Loader.v_type item.2.2.1) (Loader.v_val item.2.2.2) = Ok tt)
         l1 →
  set_phase (Loader.v_type item.2.2.1) (Loader.v_val item.2.2.2) = Raise e →
  load_graph set_phase data = Raise e.
Proof.
  intros Hl Hph He. unfold load_graph, load_graph_ids. cbn zeta.
  destruct (add_named_loop_total fst snd (λ _, 0) (λ _, Ok tt)
              (Loader.cood_map (Loader.xcods data)) (Loader.cood_map (Loader.ycods data))
              (wire_vertices data))
    with (st := (Loader.empty_graph, (∅ : gmap string Z))) as [st1 H1].
  { apply Forall_forall. intros w Hw.
    destruct (coords_lookup data w.2) as [-> ->]; [ | eauto].
    unfold Loader.coords. apply elem_of_app. left. apply list_elem_of_fmap. eauto. }
  { by apply Forall_forall. }
  rewrite H1. cbn [mbind result_bind].
  assert (Hc : Forall (λ n : string * ((Qc * Qc) * (string * option json)),
                         is_Some (Loader.cood_map (Loader.xcods data) !! n.2.1.1) ∧
                         is_Some (Loader.cood_map (Loader.ycods data) !! n.2.1.2))
                      (l1 ++ item :: l2)).
  { rewrite <- Hl. apply Forall_forall. intros n Hn.
    destruct (coords_lookup data n.2.1) as [-> ->]; [ | eauto].
    unfold Loader.coords. apply elem_of_app. right. apply list_elem_of_fmap. eauto. }
  rewrite Hl.
  rewrite (add_named_loop_refused fst (λ n, n.2.1) (λ n, Loader.v_type n.2.2.1)
             (λ n, set_phase (Loader.v_type n.2.2.1) (Loader.v_val n.2.2.2))
             _ _ l1 l2 item e Hc Hph He st1).
  reflexivity.
Qed.

Lemma load_graph_edge_loop set_phase data :
  accepted set_phase data →
  ∃ g0 ids,
    load_graph set_phase data
    = for_each (undir_edges data) (Loader.add_named_edge ids) g0 ∧
    bare g0 ∧ vindex g0 = Z.of_nat (length (names data)) ∧
    (∀ k t, types data !! k = Some t → ty g0 !! Z.of_nat k = Some t) ∧
    (∀ k c, Loader.coords data !! k = Some c →
       rindex g0 !! Z.of_nat k = Some (inject_Z (rank (Loader.xcods data) c.1)) ∧
       qindex g0 !! Z.of_nat k = Some (inject_Z (rank (Loader.ycods data) c.2))) ∧
    (∀ name v, ids !! name = Some v →
       0 ≤ v ∧ names data !! Z.to_nat v = Some name) ∧
    (NoDup (names data) → ∀ k name, names data !! k = Some name →
       ids !! name = Some (Z.of_nat k)).
Proof.
  intros Hacc.
  destruct (load_vertices set_phase data Hacc) as (g0 & ids & Heq & Hrest).
  exists g0, ids. split; [ | exact Hrest].
  unfold load_graph. rewrite Heq.
  by destruct (for_each (undir_edges data) (Loader.add_named_edge ids) g0).
Qed.

(** What [load_graph] has built when it returns. *)
Lemma load_graph_inv set_phase data g :
  load_graph set_phase data = Ok g →
  wf g ∧ vertices g = seqZ 0 (Z.of_nat (length (names data))) ∧
  vindex g = Z.of_nat (length (names data)) ∧ inputs g = [] ∧ outputs g = [] ∧
  (∀ k t, types data !! k = Some t → ty g !! Z.of_nat k = Some t) ∧
  (∀ k c, Loader.coords data !! k = Some c →
     rindex g !! Z.of_nat k = Some (inject_Z (rank (Loader.xcods data) c.1)) ∧
     qindex g !! Z.of_nat k = Some (inject_Z (rank (Loader.ycods data) c.2))) ∧
  ∃ ids : gmap string Z,
    (∀ name v, ids !! name = Some v → 0 ≤ v ∧ names data !! Z.to_nat v = Some name) ∧
    Forall (λ item, is_Some (ids !! item.2.1) ∧ is_Some (ids !! item.2.2))
           (undir_edges data) ∧
    ∀ x y, y ∈ nbrs g x →
      ∃ item, item ∈ undir_edges data ∧
        ((ids !! item.2.1 = Some x ∧ ids !! item.2.2 = Some y) ∨
         (ids !! item.2.1 = Some y ∧ ids !! item.2.2 = Some x)).
Proof.
  intros Hrun.
  destruct (load_graph_edge_loop set_phase data (load_graph_accepted _ _ _ Hrun))
    as (g0 & ids & Heq & Hb & Hi & Hty & Hpos & Hsound & _).
  rewrite Heq in Hrun.
  destruct (add_named_edge_loop ids (undir_edges data) g0 g (bare_wf g0 Hb) Hrun)
    as (Hwf & Hv & (Ht & Hi' & Hin & Hout) & Hall & Hadj).
  destruct (add_named_edge_loop_pos ids (undir_edges data) g0 g Hrun) as [Hr Hq].
  pose proof Hb as (Hv0 & _ & Hn0 & Hin0 & Hout0 & _).
  split; [done | ]. split; [by rewrite Hv, Hv0, Hi | ].
  split; [by rewrite Hi' | ]. split; [by rewrite Hin | ]. split; [by rewrite Hout | ].
  split; [by rewrite Ht | ]. split; [by rewrite Hr, Hq | ].
  exists ids. split; [done | ]. split; [done | ].
  intros x y Hxy. destruct (Hadj x y Hxy) as [H0 | ?]; [ | done].
  rewrite Hn0 in H0. inversion H0.
Qed.

(** On the document of a simple graph the edge loop either meets a name
    that no vertex has, or adds exactly the edges of the document. *)
Lemma load_graph_simple_cases set_phase data :
  simple data → accepted set_phase data →
  if decide (named data)
  then ∃ g, load_graph set_phase data = Ok g ∧
         ∀ i j a b, names data !! i = Some a → names data !! j = Some b →
           (Z.of_nat j ∈ nbrs g (Z.of_nat i) ↔
            ∃ item, item ∈ undir_edges data ∧ joins item a b)
  else load_graph set_phase data = Raise KeyError.
Proof.
  intros (Hnd & Hloop & Hpairs) Hacc.
  destruct (load_graph_edge_loop set_phase data Hacc)
    as (g0 & ids & Heq & Hb & Hi & _ & _ & Hsound & Hcompl).
  specialize (Hcompl Hnd).
  pose proof Hb as (Hv0 & _ & Hn0 & _).
  assert (Hinj : ∀ a b v, ids !! a = Some v → ids !! b = Some v → a = b).
  { intros a b v [_ Ha]%Hsound [_ Hb']%Hsound. congruence. }
  assert (Hres : ∀ name, is_Some (ids !! name) ↔ name ∈ names data).
  { intros name. split.
    - intros [v [_ Hv]%Hsound]. by eapply list_elem_of_lookup_2.
    - intros [k Hk]%list_elem_of_lookup. rewrite (Hcompl k name Hk). eauto. }
  assert (Hids : ∀ name k, ids !! name = Some (Z.of_nat k) ↔ names data !! k = Some name).
  { intros name k. split; [ | apply Hcompl].
    intros [_ Hk]%Hsound. by rewrite Nat2Z.id in Hk. }
  pose proof (add_named_edge_loop_simple ids (undir_edges data) Hinj Hloop Hpairs g0
                (bare_wf g0 Hb)) as Hrun.
  rewrite Heq.
  assert (Hall : Forall (λ item, is_Some (ids !! item.2.1) ∧ is_Some (ids !! item.2.2))
                        (undir_edges data) ↔ named data).
  { unfold named. apply Forall_iff. intros item. by rewrite !Hres. }
  destruct (decide (named data)) as [Hnamed | Hnamed].
  - rewrite decide_True in Hrun by by apply Hall.
    destruct Hrun as (g & Hg & Hadj).
    + intros name v Hv. rewrite Hv0. apply elem_of_seqZ.
      destruct (Hsound name v Hv) as [? Hk]. apply lookup_lt_Some in Hk. lia.
    + intros item s t _ _ _. rewrite Hn0. apply not_elem_of_nil.
    + exists g. split; [done | ]. intros i j a b Hi' Hj.
      rewrite Hadj, Hn0. unfold joins. split.
      * intros [H0 | (item & Hin & Hitem)]; [inversion H0 | ].
        exists item. split; [done | ]. rewrite !Hids in Hitem.
        destruct item as [? [src tgt]]. cbn [fst snd] in *.
        destruct Hitem as [[? ?] | [? ?]]; [left | right]; congruence.
      * intros (item & Hin & Hitem). right. exists item. split; [done | ].
        rewrite !Hids. destruct item as [? [src tgt]]. cbn [fst snd] in *.
        destruct Hitem as [[= -> ->] | [= -> ->]]; [left | right]; done.
  - rewrite decide_False in Hrun by by rewrite Hall.
    apply Hrun.
    + intros name v Hv. rewrite Hv0. apply elem_of_seqZ.
      destruct (Hsound name v Hv) as [? Hk]. apply lookup_lt_Some in Hk. lia.
    + intros item s t _ _ _. rewrite Hn0. apply not_elem_of_nil.
Qed.

(** X12: On the document of a simple graph, whenever [load_graph] returns,
    the diagram is well formed: its vertices are numbered from 0 in the
    order of the document, wire vertices first, and it names no input and
    no output. *)
Theorem load_graph_wf set_phase data g :
  simple data → load_graph set_phase data = Ok g →
  wf g ∧ vertices g = seqZ 0 (Z.of_nat (length (names data))) ∧
  vindex g = Z.of_nat (length (names data)) ∧ inputs g = [] ∧ outputs g = [].
Proof.
  intros _ (? & ? & ? & ? & ? & _)%load_graph_inv. done.
Qed.

Lemma load_graph_wf_witness :
  simple doc ∧ load_graph Loader.int_phase doc = Ok doc_graph ∧
  wf doc_graph ∧ vertices doc_graph = seqZ 0 (Z.of_nat (length (names doc))) ∧
  vindex doc_graph = Z.of_nat (length (names doc)) ∧
  inputs doc_graph = [] ∧ outputs doc_graph = [].
Proof.
  assert (Hs : simple doc) by (apply (bool_decide_unpack _); vm_compute; exact I).
  assert (load_graph Loader.int_phase doc = Ok doc_graph) as Hrun
    by (vm_compute; reflexivity).
  split; [exact Hs | ]. split; [exact Hrun | ].
  exact (load_graph_wf Loader.int_phase doc doc_graph Hs Hrun).
Defined.

(** X13: On the document of a simple graph, whenever [load_graph] returns,
    every wire vertex is a boundary vertex of the diagram, and a node
    vertex is an X spider if its type is "X", a Z spider if it is "Z", and
    an H-box for any other type; the diagram has no vertex of another
    type. *)
Theorem load_graph_types set_phase data g :
  simple data → load_graph set_phase data = Ok g →
  (∀ k item, wire_vertices data !! k = Some item → ty g !! Z.of_nat k = Some 0) ∧
  (∀ k item, node_vertices data !! k = Some item →
     ty g !! Z.of_nat (length (wire_vertices data) + k)
     = Some (if decide (item.2.2.1 = "X") then 2
             else if decide (item.2.2.1 = "Z") then 1 else 3)) ∧
  (∀ v, v ∈ vertices g → ∃ t, ty g !! v = Some t ∧ 0 ≤ t ≤ 3).
Proof.
  intros _ (_ & Hv & _ & _ & _ & Hty & _)%load_graph_inv.
  split; [ | split].
  - intros k item Hk. apply Hty. unfold types.
    apply lookup_app_Some. left. by rewrite list_lookup_fmap, Hk.
  - intros k item Hk. apply Hty. unfold types.
    rewrite lookup_app_r by (rewrite length_fmap; lia).
    rewrite length_fmap.
    replace (length (wire_vertices data) + k - length (wire_vertices data))%nat
      with k by lia.
    by rewrite list_lookup_fmap, Hk.
  - intros v Hin. rewrite Hv in Hin. apply elem_of_seqZ in Hin.
    destruct (lookup_lt_is_Some_2 (types data) (Z.to_nat v)) as [t Ht].
    { unfold types, names in *. rewrite length_app, !length_fmap in *. lia. }
    exists t. split.
    + rewrite <- (Z2Nat.id v) by lia. by apply Hty.
    + apply list_elem_of_lookup_2 in Ht. unfold types in Ht.
      apply elem_of_app in Ht as [Ht | Ht];
        apply list_elem_of_fmap in Ht as (item & -> & _); [lia | ].
      unfold Loader.v_type. repeat case_decide; lia.
Qed.

Lemma load_graph_types_witness :
  simple doc ∧ load_graph Loader.int_phase doc = Ok doc_graph ∧
  (∀ k item, wire_vertices doc !! k = Some item → ty doc_graph !! Z.of_nat k = Some 0) ∧
  (∀ k item, node_vertices doc !! k = Some item →
     ty doc_graph !! Z.of_nat (length (wire_vertices doc) + k)
     = Some (if decide (item.2.2.1 = "X") then 2
             else if decide (item.2.2.1 = "Z") then 1 else 3)) ∧
  (∀ v, v ∈ vertices doc_graph → ∃ t, ty doc_graph !! v = Some t ∧ 0 ≤ t ≤ 3).
Proof.
  assert (Hs : simple doc) by (apply (bool_decide_unpack _); vm_compute; exact I).
  assert (load_graph Loader.int_phase doc = Ok doc_graph) as Hrun
    by (vm_compute; reflexivity).
  split; [exact Hs | ]. split; [exact Hrun | ].
  exact (load_graph_types Loader.int_phase doc doc_graph Hs Hrun).
Defined.

(** X14: On the document of a simple graph whose coordinates are finite
    numbers, whenever [load_graph] returns, the row of a vertex is the
    number of different first coordinates of the document below its own,
    and its qubit the number of different second coordinates below its
    own. *)
Theorem load_graph_positions set_phase data g k c :
  simple data → load_graph set_phase data = Ok g →
  Loader.coords data !! k = Some c →
  row g (Z.of_nat k) = inject_Z (rank (Loader.xcods data) c.1) ∧
  qubit g (Z.of_nat k) = inject_Z (rank (Loader.ycods data) c.2).
Proof.
  intros _ (_ & _ & _ & _ & _ & _ & Hpos & _)%load_graph_inv Hk.
  destruct (Hpos k c Hk) as [Hr Hq]. unfold row, qubit. by rewrite Hr, Hq.
Qed.

Lemma load_graph_positions_witness :
  simple doc ∧ load_graph Loader.int_phase doc = Ok doc_graph ∧
  Loader.coords doc !! 3%nat = Some (Q2Qc (3 # 2), Q2Qc 1) ∧
  row doc_graph 3 = inject_Z (rank (Loader.xcods doc) (Q2Qc (3 # 2))) ∧
  qubit doc_graph 3 = inject_Z (rank (Loader.ycods doc) (Q2Qc 1)).
Proof.
  assert (Hs : simple doc) by (apply (bool_decide_unpack _); vm_compute; exact I).
  assert (load_graph Loader.int_phase doc = Ok doc_graph) as Hrun
    by (vm_compute; reflexivity).
  assert (Loader.coords doc !! 3%nat = Some (Q2Qc (3 # 2), Q2Qc 1)) as Hk by reflexivity.
  split; [exact Hs | ]. split; [exact Hrun | ]. split; [exact Hk | ].
  exact (load_graph_positions Loader.int_phase doc doc_graph 3 _ Hs Hrun Hk).
Defined.

(** X15: On the document of a simple graph whose coordinates are finite
    numbers, loading keeps the order of the coordinates: one vertex lies
    in a lower row than another exactly when its first coordinate is the
    smaller one, and likewise for qubits and second coordinates. *)
Theorem load_graph_order set_phase data g i j c c' :
  simple data → load_graph set_phase data = Ok g →
  Loader.coords data !! i = Some c → Loader.coords data !! j = Some c' →
  (Qclt c.1 c'.1 ↔ (row g (Z.of_nat i) < row g (Z.of_nat j))%Q) ∧
  (Qclt c.2 c'.2 ↔ (qubit g (Z.of_nat i) < qubit g (Z.of_nat j))%Q).
Proof.
  intros _ (_ & _ & _ & _ & _ & _ & Hpos & _)%load_graph_inv Hi Hj.
  destruct (Hpos i c Hi) as [Hr Hq]. destruct (Hpos j c' Hj) as [Hr' Hq'].
  assert (row g (Z.of_nat i) = inject_Z (rank (Loader.xcods data) c.1)) as ->
    by (unfold row; by rewrite Hr).
  assert (row g (Z.of_nat j) = inject_Z (rank (Loader.xcods data) c'.1)) as ->
    by (unfold row; by rewrite Hr').
  assert (qubit g (Z.of_nat i) = inject_Z (rank (Loader.ycods data) c.2)) as ->
    by (unfold qubit; by rewrite Hq).
  assert (qubit g (Z.of_nat j) = inject_Z (rank (Loader.ycods data) c'.2)) as ->
    by (unfold qubit; by rewrite Hq').
  rewrite <- !Zlt_Qlt.
  assert (Hc : c ∈ Loader.coords data) by by eapply list_elem_of_lookup_2.
  split; apply rank_lt; apply cods_elem; right; by exists c.
Qed.

Lemma load_graph_order_witness :
  simple doc ∧ load_graph Loader.int_phase doc = Ok doc_graph ∧
  Loader.coords doc !! 3%nat = Some (Q2Qc (3 # 2), Q2Qc 1) ∧
  Loader.coords doc !! 1%nat = Some (Q2Qc 3, Q2Qc 1) ∧
  (Qclt (Q2Qc (3 # 2)) (Q2Qc 3) ↔ (row doc_graph 3 < row doc_graph 1)%Q) ∧
  (Qclt (Q2Qc 1) (Q2Qc 1) ↔ (qubit doc_graph 3 < qubit doc_graph 1)%Q).
Proof.
  assert (Hs : simple doc) by (apply (bool_decide_unpack _); vm_compute; exact I).
  assert (load_graph Loader.int_phase doc = Ok doc_graph) as Hrun
    by (vm_compute; reflexivity).
  assert (Loader.coords doc !! 3%nat = Some (Q2Qc (3 # 2), Q2Qc 1)) as Hi by reflexivity.
  assert (Loader.coords doc !! 1%nat = Some (Q2Qc 3, Q2Qc 1)) as Hj by reflexivity.
  split; [exact Hs | ]. split; [exact Hrun | ]. split; [exact Hi | ]. split; [exact Hj | ].
  exact (load_graph_order Loader.int_phase doc doc_graph 3 1 _ _ Hs Hrun Hi Hj).
Defined.

(** X16: On the document of a simple graph, whenever [load_graph] returns,
    every end of every edge entry is the name of a vertex, and every edge
    of the diagram joins two vertices that an entry of the document joins
    by name. *)
Theorem load_graph_edges set_phase data g :
  simple data → load_graph set_phase data = Ok g →
  named data ∧
  ∀ x y, y ∈ nbrs g x →
    ∃ item a b, item ∈ undir_edges data ∧ joins item a b ∧
      0 ≤ x ∧ names data !! Z.to_nat x = Some a ∧
      0 ≤ y ∧ names data !! Z.to_nat y = Some b.
Proof.
  intros _ (_ & _ & _ & _ & _ & _ & _ & ids & Hsound & Hall & Hadj)%load_graph_inv.
  split.
  - unfold named. eapply Forall_impl; [exact Hall | ].
    intros item [[s [_ Hs]%Hsound] [t [_ Ht]%Hsound]].
    split; by eapply list_elem_of_lookup_2.
  - intros x y Hxy. destruct (Hadj x y Hxy) as (item & Hin & Hitem).
    destruct item as [e [src tgt]]. cbn [fst snd] in Hitem.
    destruct Hitem as [[Hs Ht] | [Hs Ht]];
      apply Hsound in Hs as [? ?]; apply Hsound in Ht as [? ?].
    + exists (e, (src, tgt)), src, tgt. unfold joins. cbn [snd]. naive_solver.
    + exists (e, (src, tgt)), tgt, src. unfold joins. cbn [snd]. naive_solver.
Qed.

Lemma load_graph_edges_witness :
  simple doc ∧ load_graph Loader.int_phase doc = Ok doc_graph ∧ named doc ∧
  ∀ x y, y ∈ nbrs doc_graph x →
    ∃ item a b, item ∈ undir_edges doc ∧ joins item a b ∧
      0 ≤ x ∧ names doc !! Z.to_nat x = Some a ∧
      0 ≤ y ∧ names doc !! Z.to_nat y = Some b.
Proof.
  assert (Hs : simple doc) by (apply (bool_decide_unpack _); vm_compute; exact I).
  assert (load_graph Loader.int_phase doc = Ok doc_graph) as Hrun
    by (vm_compute; reflexivity).
  split; [exact Hs | ]. split; [exact Hrun | ].
  exact (load_graph_edges Loader.int_phase doc doc_graph Hs Hrun).
Defined.

(** X17: On the document of a simple graph in which every edge entry names
    two vertices, and of whose nodes the graph library takes the phase,
    [load_graph] returns, and two vertices of the diagram are adjacent
    exactly when an entry joins their names. *)
Theorem load_graph_simple set_phase data :
  simple data → named data → accepted set_phase data →
  ∃ g, load_graph set_phase data = Ok g ∧
    ∀ i j a b, names data !! i = Some a → names data !! j = Some b →
      (Z.of_nat j ∈ nbrs g (Z.of_nat i) ↔
       ∃ item, item ∈ undir_edges data ∧ joins item a b).
Proof.
  intros Hs Hn Hacc. pose proof (load_graph_simple_cases set_phase data Hs Hacc) as H.
  by rewrite decide_True in H.
Qed.

Lemma load_graph_simple_witness :
  simple doc ∧ named doc ∧ accepted Loader.int_phase doc ∧
  ∃ g, load_graph Loader.int_phase doc = Ok g ∧
    ∀ i j a b, names doc !! i = Some a → names doc !! j = Some b →
      (Z.of_nat j ∈ nbrs g (Z.of_nat i) ↔
       ∃ item, item ∈ undir_edges doc ∧ joins item a b).
Proof.
  assert (Hs : simple doc) by (apply (bool_decide_unpack _); vm_compute; exact I).
  assert (Hn : named doc) by (apply (bool_decide_unpack _); vm_compute; exact I).
  assert (Ha : accepted Loader.int_phase doc)
    by (apply (bool_decide_unpack _); vm_compute; exact I).
  split; [exact Hs | ]. split; [exact Hn | ]. split; [exact Ha | ].
  exact (load_graph_simple Loader.int_phase doc Hs Hn Ha).
Defined.

(** X18: On the document of a simple graph of whose nodes the graph library
    takes the phase, and in which some edge entry names a vertex that the
    document does not have, [load_graph] raises [KeyError]. *)
Theorem load_graph_unnamed set_phase data :
  simple data → ¬ named data → accepted set_phase data →
  load_graph set_phase data = Raise KeyError.
Proof.
  intros Hs Hn Hacc. pose proof (load_graph_simple_cases set_phase data Hs Hacc) as H.
  by rewrite decide_False in H.
Qed.

Lemma load_graph_unnamed_witness :
  simple dangling ∧ ¬ named dangling ∧ accepted Loader.int_phase dangling ∧
  load_graph Loader.int_phase dangling = Raise KeyError.
Proof.
  assert (Hs : simple dangling) by (apply (bool_decide_unpack _); vm_compute; exact I).
  assert (Hn : ¬ named dangling) by (apply (bool_decide_unpack _); vm_compute; exact I).
  assert (Ha : accepted Loader.int_phase dangling)
    by (apply (bool_decide_unpack _); vm_compute; exact I).
  split; [exact Hs | ]. split; [exact Hn | ]. split; [exact Ha | ].
  exact (load_graph_unnamed Loader.int_phase dangling Hs Hn Ha).
Defined.

(** X19: Every diagram that [load_graph] returns on the document of a simple
    graph can be normalised: [make_rg] returns on it, with a well-formed
    diagram in RG form that still names no input and no output. *)
Theorem load_graph_make_rg set_phase data g :
  simple data → load_graph set_phase data = Ok g →
  ∃ g', make_rg g = Ok g' ∧ wf g' ∧ rg_form g' ∧ inputs g' = [] ∧ outputs g' = [].
Proof.
  intros _ (Hwf & _ & _ & Hin & Hout & _)%load_graph_inv.
  destruct (make_rg_spec g Hwf) as (g' & Hrun & Hwf' & (_ & _ & _ & Hin' & Hout') & _ & Hm).
  exists g'. split; [done | ]. split; [done | ].
  split; [ | split; congruence].
  apply Forall_forall.
  intros [u v] [Huv _]%edges_nbrs; [ | done]. simpl.
  intros cu cv Hu Hv _ _ ->. apply (Hm u v). split; [done | congruence].
Qed.

Lemma load_graph_make_rg_witness :
  simple doc ∧ load_graph Loader.int_phase doc = Ok doc_graph ∧
  ∃ g', make_rg doc_graph = Ok g' ∧ wf g' ∧ rg_form g' ∧ inputs g' = [] ∧ outputs g' = [].
Proof.
  assert (Hs : simple doc) by (apply (bool_decide_unpack _); vm_compute; exact I).
  assert (load_graph Loader.int_phase doc = Ok doc_graph) as Hrun
    by (vm_compute; reflexivity).
  split; [exact Hs | ]. split; [exact Hrun | ].
  exact (load_graph_make_rg Loader.int_phase doc doc_graph Hs Hrun).
Defined.

Lemma load_graph_refused_witness :
  load_graph Loader.int_phase float_doc = Raise TypeError.
Proof.
  apply (load_graph_refused Loader.int_phase float_doc []
           ("v0", ((Q2Qc 1, Q2Qc 1), ("Z", Some (JFloat (Q2Qc (1 # 2))))))
           [("v1", ((Q2Qc (3 # 2), Q2Qc 1), ("X", Some (JInt 1))))] TypeError).
  - reflexivity.
  - constructor.
  - reflexivity.
Defined.
